(** * libyarp/idl: scanner, parser and file-set resolver

    A shallow embedding of the Go package [idl] (scanner.go, parser.go,
    types.go, the token cursor, [File] and [FileSet]) and the properties of
    its specification, each settled against the embedded code. *)

From Stdlib Require Import ZArith List String Ascii Bool Lia.
From stdpp Require Import base option gmap strings list.

Local Open Scope Z_scope.

(** ** Go values *)

(** A [rune] is an int32 code point; a Go [string] is a byte string. *)
Definition rune := Z.

Definition ch (c : ascii) : rune := Z.of_N (N_of_ascii c).

(** The double quote, U+0022. *)
Definition dquote : rune := 34.

Definition byte_of (z : Z) : ascii := ascii_of_N (Z.to_N z).

(** [string(r)] for one rune: the UTF-8 encoding, U+FFFD for a value that is
    not a code point. *)
Definition encodeRune (r : rune) : list ascii :=
  if (r <? 0) || (1114111 <? r) || ((55296 <=? r) && (r <=? 57343))
  then [byte_of 239; byte_of 191; byte_of 189]
  else if r <=? 127 then [byte_of r]
  else if r <=? 2047 then
    [byte_of (Z.lor 192 (Z.shiftr r 6));
     byte_of (Z.lor 128 (Z.land r 63))]
  else if r <=? 65535 then
    [byte_of (Z.lor 224 (Z.shiftr r 12));
     byte_of (Z.lor 128 (Z.land (Z.shiftr r 6) 63));
     byte_of (Z.lor 128 (Z.land r 63))]
  else
    [byte_of (Z.lor 240 (Z.shiftr r 18));
     byte_of (Z.lor 128 (Z.land (Z.shiftr r 12) 63));
     byte_of (Z.lor 128 (Z.land (Z.shiftr r 6) 63));
     byte_of (Z.lor 128 (Z.land r 63))].

(** [string(rs)] for a rune slice. *)
Definition string_of_runes (rs : list rune) : string :=
  string_of_list_ascii (concat (map encodeRune rs)).

(** [[]rune(s)] on ASCII text, which is how the source texts below are
    written. *)
Definition runes (s : string) : list rune := map ch (list_ascii_of_string s).

(** [data[lo:hi]] on a slice whose capacity is its length. *)
Definition subslice {A} (l : list A) (lo hi : nat) : list A :=
  firstn (hi - lo) (skipn lo l).

(** The tables of Go's [unicode] package, which are not part of the
    repository. *)
Class UnicodeTables := {
  IsDigit : rune -> bool;
  IsGraphic : rune -> bool;
  IsSpace : rune -> bool
}.

(** ** How a Go call ends *)

Inductive panic :=
| IndexOutOfRange
| NilPointerDereference
| AssignmentToNilMap.

Inductive outcome (E A : Type) :=
| Ok (a : A)
| Err (e : E)
| Panicked (p : panic)
| OutOfFuel.
Arguments Ok {E A} a.
Arguments Err {E A} e.
Arguments Panicked {E A} p.
Arguments OutOfFuel {E A}.

(** Methods on a pointer receiver: the receiver is threaded through, and its
    mutations stay when the call returns an error. *)
Definition M (St E A : Type) := St -> outcome E A * St.

Definition ret {St E A} (a : A) : M St E A := fun s => (Ok a, s).
Definition fail {St E A} (e : E) : M St E A := fun s => (Err e, s).
Definition throw {St E A} (p : panic) : M St E A := fun s => (Panicked p, s).
Definition out_of_fuel {St E A} : M St E A := fun s => (OutOfFuel, s).
Definition get {St E} : M St E St := fun s => (Ok s, s).
Definition put {St E} (s : St) : M St E unit := fun _ => (Ok tt, s).
Definition modify {St E} (f : St -> St) : M St E unit := fun s => (Ok tt, f s).

Definition bind {St E A B} (c : M St E A) (k : A -> M St E B) : M St E B :=
  fun s =>
    match c s with
    | (Ok a, s') => k a s'
    | (Err e, s') => (Err e, s')
    | (Panicked p, s') => (Panicked p, s')
    | (OutOfFuel, s') => (OutOfFuel, s')
    end.

Declare Scope go_scope.
Delimit Scope go_scope with go.
Notation "x <- c ;; k" := (bind c (fun x => k))
  (at level 100, c at next level, right associativity) : go_scope.
Notation "c ;;; k" := (bind c (fun _ => k))
  (at level 100, right associativity) : go_scope.
Local Open Scope go_scope.

(** ** types.go *)

Inductive PrimitiveType :=
| Invalid | Uint8 | Uint16 | Uint32 | Uint64
| Int8 | Int16 | Int32 | Int64
| Float32 | Float64 | Struct | OneOf | Bool | String.

Inductive Element :=
| InvalidElement | Identifier | OpenCurly | CloseCurly | OpenParen | CloseParen
| OpenAngled | CloseAngled | Comma | Dot | LineBreak | Equal | Number | Arrow
| Semi | Comment | Annotation | StringElement | EOF.

#[global] Instance PrimitiveType_eq_dec : EqDecision PrimitiveType.
Proof. solve_decision. Defined.
#[global] Instance Element_eq_dec : EqDecision Element.
Proof. solve_decision. Defined.

Module Token.
Record Token := {
  Type_ : Element;
  Value : string;
  Line : Z;
  Column : Z
}.

(** The method [is] of the source. *)
Definition is_ (t : Token) (o : Element) : bool := bool_decide (Type_ t = o).
End Token.
Abbreviation Token := Token.Token.

Inductive Type' :=
| Primitive (Kind : PrimitiveType)
| Array (Of : Type')
| Map (Key : PrimitiveType) (Value : Type')
| Unresolved (Name : string).

(** ** Errors *)

Module SyntaxError.
Record SyntaxError := {
  Message : string;
  Line : Z;
  Column : Z
}.
End SyntaxError.
Abbreviation SyntaxError := SyntaxError.SyntaxError.

Module ParseError.
Record ParseError := {
  Token : Token;
  Message : string
}.
End ParseError.
Abbreviation ParseError := ParseError.ParseError.

(** The error values the package returns. *)
Inductive error :=
| ESyntax (e : SyntaxError)
| EParse (e : ParseError)
| ErrorString (msg : string)
| NumError (num : string)
| PathError (op path : string)
| SourceFileNotFoundError (Path : string)
| ImportFileNotFoundError (Source Path : string)
| SourceIsDirectoryError (Path : string)
| MixedPackagesError (Path Package1 Package2 : string)
| Wrapped (prefix : string) (e : error).

(** ** scanner.go *)

Module Scanner.

Record Scanner := {
  tokens : list Token;
  data : list rune;
  dataLen : nat;
  start : nat;
  current : nat
}.

Definition ScanM := M Scanner SyntaxError.

Definition set_tokens (ts : list Token) (s : Scanner) : Scanner :=
  {| tokens := ts; data := data s; dataLen := dataLen s;
     start := start s; current := current s |}.
Definition set_start (n : nat) (s : Scanner) : Scanner :=
  {| tokens := tokens s; data := data s; dataLen := dataLen s;
     start := n; current := current s |}.
Definition set_current (n : nat) (s : Scanner) : Scanner :=
  {| tokens := tokens s; data := data s; dataLen := dataLen s;
     start := start s; current := n |}.

(** [buf] is the text read from the reader, as the code points of
    [[]rune(string(buf))]; [dataLen] is its length in bytes. *)
Definition NewScanner (buf : list rune) : Scanner :=
  {| tokens := [];
     data := buf;
     dataLen := String.length (string_of_runes buf);
     start := 0;
     current := 0 |}.

Definition isAtEnd (s : Scanner) : bool := (length (data s) <=? current s)%nat.

(** [s.data[s.current]] is read before [current] moves: past the end it
    panics. *)
Definition advance : ScanM rune :=
  fun s =>
    match nth_error (data s) (current s) with
    | None => (Panicked IndexOutOfRange, s)
    | Some r => (Ok r, set_current (S (current s)) s)
    end.

Definition peek (s : Scanner) : rune :=
  if isAtEnd s then 0 else nth (current s) (data s) 0.

Definition peekNext (s : Scanner) : outcome SyntaxError rune :=
  if (dataLen s <=? current s + 1)%nat then Ok 0
  else match nth_error (data s) (current s + 1) with
       | None => Panicked IndexOutOfRange
       | Some r => Ok r
       end.

(** The loop of [pos]: [i] runs from 0 up to [current], [n] iterations are
    left. *)
Fixpoint pos_loop (d : list rune) (i n : nat) (line column : Z)
  : option (Z * Z) :=
  match n with
  | O => Some (line, column)
  | S n' =>
      match nth_error d i with
      | None => None
      | Some r =>
          if r =? ch "010" then pos_loop d (S i) n' (line + 1) (1 + 1)
          else pos_loop d (S i) n' line (column + 1)
      end
  end.

Definition pos : ScanM (Z * Z) :=
  fun s =>
    match pos_loop (data s) 0 (current s) 1 1 with
    | None => (Panicked IndexOutOfRange, s)
    | Some lc => (Ok lc, s)
    end.

Definition error {A} (msg : string) : ScanM A :=
  lc <- pos ;;
  fail {| SyntaxError.Message := msg;
          SyntaxError.Line := fst lc;
          SyntaxError.Column := snd lc |}.

Definition appendToken (k : Element) (v : string) (lc : Z * Z) : ScanM unit :=
  modify (fun s =>
    set_tokens (tokens s ++
      [{| Token.Type_ := k; Token.Value := v;
         Token.Line := fst lc; Token.Column := snd lc |}]) s).

Definition pushToken (k : Element) (v : string) : ScanM unit :=
  lc <- pos ;;
  appendToken k v lc.

Definition simpleTokens (r : rune) : option Element :=
  if r =? ch "(" then Some OpenParen
  else if r =? ch ")" then Some CloseParen
  else if r =? ch "<" then Some OpenAngled
  else if r =? ch ">" then Some CloseAngled
  else if r =? ch "{" then Some OpenCurly
  else if r =? ch "}" then Some CloseCurly
  else if r =? ch "," then Some Comma
  else if r =? ch "." then Some Dot
  else if r =? ch "=" then Some Equal
  else if r =? ch ";" then Some Semi
  else if r =? ch "010" then Some LineBreak
  else None.


(** [s.data[lo:hi]]: the bounds are checked. *)
Definition sliceData (lo hi : nat) : ScanM (list rune) :=
  fun s =>
    if (lo <=? hi)%nat && (hi <=? length (data s))%nat
    then (Ok (subslice (data s) lo hi), s)
    else (Panicked IndexOutOfRange, s).

(** [strings.ReplaceAll(v, `\"`, `"`)]: the two bytes backslash, quote
    become one quote, matches taken left to right without overlap. *)
Fixpoint unescapeQuotes (v : string) : string :=
  match v with
  | EmptyString => EmptyString
  | String.String c rest =>
      match rest with
      | String.String c' rest' =>
          if Ascii.eqb c "\" && Ascii.eqb c' (byte_of dquote)
          then String.String c' (unescapeQuotes rest')
          else String.String c (unescapeQuotes rest)
      | EmptyString => String.String c EmptyString
      end
  end.

Definition isLetter (c : rune) : bool :=
  ((ch "a" <=? c) && (c <=? ch "z")) ||
  ((ch "A" <=? c) && (c <=? ch "Z")) ||
  (c =? ch "_").

Definition isLetterOrDigit (c : rune) : bool :=
  ((ch "a" <=? c) && (c <=? ch "z")) ||
  ((ch "A" <=? c) && (c <=? ch "Z")) ||
  (c =? ch "_") ||
  ((ch "0" <=? c) && (c <=? ch "9")).

Section WithTables.
Context `{UnicodeTables}.

Fixpoint dropSpace (l : list rune) : list rune :=
  match l with
  | r :: l' => if IsSpace r then dropSpace l' else l
  | [] => []
  end.

(** [strings.TrimSpace] of the string of a rune slice: the leading and the
    trailing white space runes go. *)
Definition TrimSpace (rs : list rune) : list rune :=
  rev (dropSpace (rev (dropSpace rs))).

(** The loop of [number]. *)
Fixpoint number_loop (fuel : nat) : ScanM unit :=
  match fuel with
  | O => out_of_fuel
  | S fuel' =>
      s <- get ;;
      if IsDigit (peek s) then (advance ;;; number_loop fuel')
      else ret tt
  end.

Definition number (fuel : nat) : ScanM unit :=
  lc <- pos ;;
  number_loop fuel ;;;
  s <- get ;;
  v <- sliceData (start s) (current s) ;;
  appendToken Number (string_of_runes v) lc.

(** The loop of [identifier]. *)
Fixpoint identifier_loop (fuel : nat) : ScanM unit :=
  match fuel with
  | O => out_of_fuel
  | S fuel' =>
      s <- get ;;
      if isLetterOrDigit (peek s) then (advance ;;; identifier_loop fuel')
      else ret tt
  end.

Definition identifier (fuel : nat) : ScanM unit :=
  lc <- pos ;;
  s <- get ;;
  (if isLetter (peek s) then (advance ;;; ret tt) else ret tt) ;;;
  identifier_loop fuel ;;;
  s <- get ;;
  v <- sliceData (start s) (current s) ;;
  appendToken Identifier (string_of_runes v) lc.

(** The loop of [comment]: it stops at a line feed only. *)
Fixpoint comment_loop (fuel : nat) : ScanM unit :=
  match fuel with
  | O => out_of_fuel
  | S fuel' =>
      s <- get ;;
      if negb (peek s =? ch "010") then (advance ;;; comment_loop fuel')
      else ret tt
  end.

Definition comment (fuel : nat) : ScanM unit :=
  lc <- pos ;;
  comment_loop fuel ;;;
  s <- get ;;
  v <- sliceData (start s + 1) (current s) ;;
  appendToken Comment (string_of_runes (TrimSpace v)) lc.

(** The loop of [annotation]: it stops at a space only. *)
Fixpoint annotation_loop (fuel : nat) : ScanM unit :=
  match fuel with
  | O => out_of_fuel
  | S fuel' =>
      s <- get ;;
      if negb (peek s =? ch " ") then (advance ;;; annotation_loop fuel')
      else ret tt
  end.

Definition annotation (fuel : nat) : ScanM unit :=
  lc <- pos ;;
  annotation_loop fuel ;;;
  s <- get ;;
  let consumed := (current s - start s)%nat in
  if (consumed =? 1)%nat then
    error ("Unexpected `" +:+ string_of_runes [peek s] +:+
           "', expected identifier")
  else
    v <- sliceData (start s + 1) (current s) ;;
    appendToken Annotation (string_of_runes v) lc.

(** The loop of [string], with its local [escaping]. *)
Fixpoint string_loop (fuel : nat) (escaping : bool) : ScanM unit :=
  match fuel with
  | O => out_of_fuel
  | S fuel' =>
      s <- get ;;
      if isAtEnd s then error "unterminated string"
      else if peek s =? dquote then
        if negb escaping then ret tt
        else (advance ;;; string_loop fuel' false)
      else if peek s =? ch "\" then (advance ;;; string_loop fuel' true)
      else if peek s =? ch "010" then error "unterminated string"
      else (advance ;;; string_loop fuel' escaping)
  end.

Definition string (fuel : nat) : ScanM unit :=
  lc <- pos ;;
  advance ;;;
  string_loop fuel false ;;;
  advance ;;;
  s <- get ;;
  v <- sliceData (start s + 1) (current s - 1) ;;
  appendToken StringElement (unescapeQuotes (string_of_runes v)) lc.

Definition scanToken (fuel : nat) : ScanM unit :=
  r <- advance ;;
  if r =? ch "@" then annotation fuel
  else if r =? ch "-" then
    s <- get ;;
    if negb (peek s =? ch ">") then
      unkChar <- advance ;;
      error ("Unexpected `" +:+ string_of_runes [unkChar] +:+
             "', expected `>'")
    else
      pushToken Arrow "->" ;;;
      advance ;;;
      ret tt
  else if (r =? ch "013") || (r =? ch " ") || (r =? ch "009") then ret tt
  else if r =? dquote then string fuel
  else if r =? ch "#" then comment fuel
  else
    match simpleTokens r with
    | Some k => pushToken k (string_of_runes [r])
    | None =>
        if IsDigit r then number fuel
        else if IsGraphic r then identifier fuel
        else error ("Unexpected `" +:+ string_of_runes [r] +:+ "'")
    end.

(** The loop of [Run]; [fuel] bounds it and the loops inside a token. *)
Fixpoint Run_loop (fuel n : nat) : ScanM unit :=
  match n with
  | O => out_of_fuel
  | S n' =>
      s <- get ;;
      if negb (isAtEnd s) then
        modify (fun s => set_start (current s) s) ;;;
        scanToken fuel ;;;
        Run_loop fuel n'
      else ret tt
  end.

Definition Run (fuel : nat) : ScanM (list Token) :=
  Run_loop fuel fuel ;;;
  pushToken EOF EmptyString ;;;
  s <- get ;;
  ret (tokens s).

(** [Scan], on the text the reader delivers. Every loop moves [current]
    forward or leaves, so one more than the length of the text bounds each
    of them (see [Scan_terminates]). *)
Definition Scan (buf : list rune) : outcome SyntaxError (list Token) :=
  fst (Run (S (length buf)) (NewScanner buf)).

End WithTables.

End Scanner.

(** ** Slices and their backing arrays

    A slice value is a view (array, length, capacity) of a backing array on
    the heap; copying the slice copies the view, not the array. The source
    only ever reslices with [s[:0]], so a view always starts at cell 0. *)

Record slice := {
  arr : option nat;
  len : nat;
  cap : nat
}.

(** The nil slice. *)
Definition nil_slice : slice := {| arr := None; len := 0; cap := 0 |}.

(** [s[:0]] *)
Definition reslice0 (s : slice) : slice :=
  {| arr := arr s; len := 0; cap := cap s |}.

Class Zero (A : Type) := zero : A.

(** The capacity [append] gives a new backing array, from the old capacity
    and the length needed: the policy of the Go runtime, which is not part of
    the repository. *)
Class GoRuntime := {
  growcap : nat -> nat -> nat
}.

Section Heap.
Context {A : Type} `{Zero A} `{GoRuntime}.

(** The elements a slice shows, read through the heap. *)
Definition read (h : list (list A)) (s : slice) : list A :=
  match arr s with
  | None => []
  | Some a => firstn (len s) (default [] (h !! a))
  end.

(** [append(s, x)]: within capacity the cell after the last one is written
    in place, in the array every other view of it shares; otherwise the
    elements move to a new array. *)
Definition append (h : list (list A)) (s : slice) (x : A)
  : list (list A) * slice :=
  match arr s with
  | Some a =>
      if (len s <? cap s)%nat then
        (alter (fun cells => <[len s := x]> cells) a h,
         {| arr := Some a; len := S (len s); cap := cap s |})
      else
        let c := Nat.max (growcap (cap s) (S (len s))) (S (len s)) in
        (h ++ [read h s ++ x :: replicate (c - S (len s)) zero],
         {| arr := Some (length h); len := S (len s); cap := c |})
  | None =>
      let c := Nat.max (growcap 0 1) 1 in
      (h ++ [x :: replicate (c - 1) zero],
       {| arr := Some (length h); len := 1; cap := c |})
  end.

(** [s[i] = x], bounds checked. *)
Definition store (h : list (list A)) (s : slice) (i : nat) (x : A)
  : option (list (list A)) :=
  match arr s with
  | Some a =>
      if (i <? len s)%nat
      then Some (alter (fun cells => <[i := x]> cells) a h)
      else None
  | None => None
  end.

End Heap.

(** ** parser.go: the syntax tree *)

Module Position.
Record Position := { Line : Z; Column : Z }.
End Position.
Abbreviation Position := Position.Position.

Module Offset.
Record Offset := { StartsAt : Position; EndsAt : Position }.
End Offset.
Abbreviation Offset := Offset.Offset.

Module Package.
Record Package := { Offset : Offset; Name : string }.
End Package.
Abbreviation Package := Package.Package.

(** The struct [Import] of the source. *)
Module Import'.
Record Import' := { Offset : Offset; Path : string }.
End Import'.
Abbreviation Import' := Import'.Import'.

(** [Value] is a [[]string]: a view of an array of the string heap. *)
Module AnnotationValue.
Record AnnotationValue := {
  Offset : Offset;
  Name : string;
  Value : slice
}.
End AnnotationValue.
Abbreviation AnnotationValue := AnnotationValue.AnnotationValue.

Definition RepeatedAnnotation : string := "repeated".
Definition OptionalAnnotation : string := "optional".
Definition DeprecatedAnnotation : string := "deprecated".

(** [Comments] is a [[]string] and [Annotations] an [AnnotationCollection],
    both views of heap arrays; a slice that is only built by appending and
    then read ([Fields], [Methods], [Items]) is a list. *)
Module Method.
Record Method := {
  Offset : Offset;
  Name : string;
  Comments : slice;
  Annotations : slice;
  ArgumentType : string;
  ReturnType : string;
  ReturnStreaming : bool
}.
End Method.
Abbreviation Method := Method.Method.

Module Field.
Record Field := {
  Offset : Offset;
  Name : string;
  Comments : slice;
  Annotations : slice;
  Type_ : Type';
  Index : Z
}.
End Field.
Abbreviation Field := Field.Field.

Module OneOfField.
Record OneOfField (any : Type) := {
  Offset : Offset;
  Comments : slice;
  Annotations : slice;
  Index : Z;
  Items : list any
}.
Arguments Build_OneOfField {any}.
Arguments Offset {any}.
Arguments Comments {any}.
Arguments Annotations {any}.
Arguments Index {any}.
Arguments Items {any}.
End OneOfField.

(** What a [[]any] of message members holds. *)
#[warnings="-register-all"]
Inductive member :=
| AField (f : Field)
| AOneOf (o : OneOfField.OneOfField member).
Abbreviation OneOfField := (OneOfField.OneOfField member).

Module Message.
Record Message := {
  Offset : Offset;
  Name : string;
  Comments : slice;
  Annotations : slice;
  Fields : list member
}.
End Message.
Abbreviation Message := Message.Message.

Module Service.
Record Service := {
  Offset : Offset;
  Name : string;
  Comments : slice;
  Annotations : slice;
  Methods : list Method
}.
End Service.
Abbreviation Service := Service.Service.

(** What [File.Tree] and [File.declaredNames] hold. *)
Inductive decl :=
| APackage (v : Package)
| AnImport (v : Import')
| AMessage (v : Message)
| AService (v : Service).

#[global] Instance zero_string : Zero string := EmptyString.
#[global] Instance zero_AnnotationValue : Zero AnnotationValue :=
  {| AnnotationValue.Offset :=
       {| Offset.StartsAt := {| Position.Line := 0; Position.Column := 0 |};
          Offset.EndsAt := {| Position.Line := 0; Position.Column := 0 |} |};
     AnnotationValue.Name := EmptyString;
     AnnotationValue.Value := nil_slice |}.

(** The heap the parser allocates in: the arrays behind [[]string] values
    and those behind [AnnotationCollection] values. *)
Record Memory := {
  strs : list (list string);
  anns : list (list AnnotationValue)
}.

Definition empty_memory : Memory := {| strs := []; anns := [] |}.

(** ** The token cursor *)

Module tokenList.

Record tokenList := {
  tokens : list Token;
  tokensLen : nat;
  current : nat
}.

Definition eofToken : Token :=
  {| Token.Type_ := EOF; Token.Value := EmptyString;
     Token.Line := 0; Token.Column := 0 |}.

Definition peek (t : tokenList) : outcome error Token :=
  if (tokensLen t <=? current t)%nat then Ok eofToken
  else match tokens t !! current t with
       | Some tok => Ok tok
       | None => Panicked IndexOutOfRange
       end.

Definition peekNext (t : tokenList) : outcome error Token :=
  if (tokensLen t <=? current t + 1)%nat then Ok eofToken
  else match tokens t !! (current t + 1)%nat with
       | Some tok => Ok tok
       | None => Panicked IndexOutOfRange
       end.

Definition peekPrevious (t : tokenList) : outcome error Token :=
  let i := if (current t =? 0)%nat then current t else (current t - 1)%nat in
  match tokens t !! i with
  | Some tok => Ok tok
  | None => Panicked IndexOutOfRange
  end.

Definition advance (t : tokenList) : outcome error Token * tokenList :=
  match peek t with
  | Ok tok =>
      (Ok tok, {| tokens := tokens t; tokensLen := tokensLen t;
                  current := S (current t) |})
  | o => (o, t)
  end.

Definition error {A} (t : tokenList) (msg : string) : outcome error A :=
  match peek t with
  | Ok tok => Err (EParse {| ParseError.Token := tok;
                             ParseError.Message := msg |})
  | Err e => Err e
  | Panicked p => Panicked p
  | OutOfFuel => OutOfFuel
  end.

End tokenList.
Abbreviation tokenList := tokenList.tokenList.

(** Lexical path functions of Go's [path/filepath], which are not part of
    the repository. *)
Class FilePath := {
  Clean : string -> string;
  Dir : string -> string;
  Join : string -> string -> string
}.

(** ** File *)

Module File.

Record File := {
  Tree : list decl;
  Package : string;
  DeclaredMessages : list string;
  DeclaredServices : list string;
  ImportedFiles : list string;
  declaredNames : option (gmap string decl)
}.

(** [&File{}] *)
Definition empty : File :=
  {| Tree := []; Package := EmptyString; DeclaredMessages := [];
     DeclaredServices := []; ImportedFiles := []; declaredNames := None |}.

Section WithPaths.
Context `{FilePath}.

Definition push (val : decl) (f : File) : File :=
  let tree := Tree f ++ [val] in
  match val with
  | APackage v =>
      {| Tree := tree; Package := Package.Name v;
         DeclaredMessages := DeclaredMessages f;
         DeclaredServices := DeclaredServices f;
         ImportedFiles := ImportedFiles f;
         declaredNames := declaredNames f |}
  | AnImport v =>
      {| Tree := tree; Package := Package f;
         DeclaredMessages := DeclaredMessages f;
         DeclaredServices := DeclaredServices f;
         ImportedFiles := ImportedFiles f ++ [Clean (Import'.Path v)];
         declaredNames := declaredNames f |}
  | AMessage v =>
      {| Tree := tree; Package := Package f;
         DeclaredMessages := DeclaredMessages f ++ [Message.Name v];
         DeclaredServices := DeclaredServices f;
         ImportedFiles := ImportedFiles f;
         declaredNames :=
           Some (<[Message.Name v := val]> (default ∅ (declaredNames f))) |}
  | AService v =>
      {| Tree := tree; Package := Package f;
         DeclaredMessages := DeclaredMessages f;
         DeclaredServices := DeclaredServices f ++ [Service.Name v];
         ImportedFiles := ImportedFiles f;
         declaredNames :=
           Some (<[Service.Name v := val]> (default ∅ (declaredNames f))) |}
  end.

Definition isImported (path : string) (f : File) : bool :=
  existsb (String.eqb (Clean path)) (ImportedFiles f).

End WithPaths.

Definition isDefined (name : string) (f : File) : bool :=
  match declaredNames f with
  | None => false
  | Some m => bool_decide (is_Some (m !! name))
  end.

(** A read of a nil map finds nothing. *)
Definition MessageByName (name : string) (f : File) : option Message :=
  match default ∅ (declaredNames f) !! name with
  | Some (AMessage m) => Some m
  | _ => None
  end.

Definition ServiceByName (name : string) (f : File) : option Service :=
  match default ∅ (declaredNames f) !! name with
  | Some (AService s) => Some s
  | _ => None
  end.

End File.
Abbreviation File := File.File.

(** ** parser.go: the parser *)

(** [strconv.Atoi] on what the parser gives it: an optional sign and decimal
    digits, within the range of a 64-bit [int]. *)
Fixpoint digits_value (acc : Z) (l : list ascii) : option Z :=
  match l with
  | [] => Some acc
  | c :: l' =>
      let d := Z.of_N (N_of_ascii c) - 48 in
      if (0 <=? d) && (d <=? 9) then digits_value (10 * acc + d) l' else None
  end.

Definition Atoi (v : string) : outcome error Z :=
  let parse (neg : bool) (l : list ascii) :=
    match l with
    | [] => Err (NumError v)
    | _ =>
        match digits_value 0 l with
        | Some n =>
            let n := if neg then - n else n in
            if (- 2 ^ 63 <=? n) && (n <? 2 ^ 63) then Ok n
            else Err (NumError v)
        | None => Err (NumError v)
        end
    end in
  match list_ascii_of_string v with
  | "+"%char :: l => parse false l
  | "-"%char :: l => parse true l
  | l => parse false l
  end.

Definition stringToPrimitive (t : string) : option PrimitiveType :=
  if String.eqb t "string" then Some String
  else if String.eqb t "uint8" then Some Uint8
  else if String.eqb t "uint16" then Some Uint16
  else if String.eqb t "uint32" then Some Uint32
  else if String.eqb t "uint64" then Some Uint64
  else if String.eqb t "int8" then Some Int8
  else if String.eqb t "int16" then Some Int16
  else if String.eqb t "int32" then Some Int32
  else if String.eqb t "int64" then Some Int64
  else if String.eqb t "float32" then Some Float32
  else if String.eqb t "float64" then Some Float64
  else if String.eqb t "bool" then Some Bool
  else None.

(** The keys of [stringToPrimitive], as the message of [parseMapKey] lists
    them. Go ranges over a map in an unspecified order; the order of the
    table is used here. *)
Definition validKeys : list string :=
  ["string"; "uint8"; "uint16"; "uint32"; "uint64"; "int8"; "int16";
   "int32"; "int64"; "float32"; "float64"; "bool"].

Definition offsetBetween (a b : Token) : Offset :=
  {| Offset.StartsAt :=
       {| Position.Line := Token.Line a; Position.Column := Token.Column a |};
     Offset.EndsAt :=
       {| Position.Line := Token.Line b; Position.Column := Token.Column b |}
  |}.

Definition zeroOffset : Offset :=
  {| Offset.StartsAt := {| Position.Line := 0; Position.Column := 0 |};
     Offset.EndsAt := {| Position.Line := 0; Position.Column := 0 |} |}.

Module parser.

Record parser := {
  annotations : slice;
  comments : slice;
  file : File;
  tokens : tokenList;
  memory : Memory
}.

Definition P := M parser error.

Definition set_annotations (a : slice) (p : parser) : parser :=
  {| annotations := a; comments := comments p; file := file p;
     tokens := tokens p; memory := memory p |}.
Definition set_comments (c : slice) (p : parser) : parser :=
  {| annotations := annotations p; comments := c; file := file p;
     tokens := tokens p; memory := memory p |}.
Definition set_file (f : File) (p : parser) : parser :=
  {| annotations := annotations p; comments := comments p; file := f;
     tokens := tokens p; memory := memory p |}.
Definition set_tokens (t : tokenList) (p : parser) : parser :=
  {| annotations := annotations p; comments := comments p; file := file p;
     tokens := t; memory := memory p |}.
Definition set_strs (h : list (list string)) (p : parser) : parser :=
  {| annotations := annotations p; comments := comments p; file := file p;
     tokens := tokens p;
     memory := {| strs := h; anns := anns (memory p) |} |}.
Definition set_anns (h : list (list AnnotationValue)) (p : parser) : parser :=
  {| annotations := annotations p; comments := comments p; file := file p;
     tokens := tokens p;
     memory := {| strs := strs (memory p); anns := h |} |}.

Definition newParser (toks : list Token) : parser :=
  {| annotations := nil_slice;
     comments := nil_slice;
     file := File.empty;
     tokens := {| tokenList.tokens := toks;
                  tokenList.tokensLen := length toks;
                  tokenList.current := 0 |};
     memory := empty_memory |}.

(** [p.tokens.peek()], [p.tokens.peekPrevious()], [p.tokens.advance()],
    [p.tokens.error(...)] *)
Definition peek : P Token := fun p => (tokenList.peek (tokens p), p).
Definition peekPrevious : P Token :=
  fun p => (tokenList.peekPrevious (tokens p), p).
Definition advance : P Token :=
  fun p =>
    let (o, t) := tokenList.advance (tokens p) in (o, set_tokens t p).
Definition error {A} (msg : string) : P A :=
  fun p => (tokenList.error (tokens p) msg, p).

(** [p.tokens.peek().is(el)] *)
Definition peekIs (el : Element) : P bool :=
  t <- peek ;; ret (Token.is_ t el).

Section WithRuntime.
Context `{GoRuntime} `{FilePath}.

(** [v = append(v, x)] and [strings.Join(v, sep)] on a local [[]string]. *)
Definition appendString (v : slice) (x : string) : P slice :=
  fun p =>
    let (h, v') := append (strs (memory p)) v x in (Ok v', set_strs h p).
Definition joinStrings (v : slice) (sep : string) : P string :=
  p <- get ;; ret (String.concat sep (read (strs (memory p)) v)).

(** [p.comments = append(p.comments, c)] *)
Definition appendComment (c : string) : P unit :=
  modify (fun p =>
    let (h, v) := append (strs (memory p)) (comments p) c in
    set_comments v (set_strs h p)).

(** [p.annotations = append(p.annotations, a)] *)
Definition appendAnnotation (a : AnnotationValue) : P unit :=
  modify (fun p =>
    let (h, v) := append (anns (memory p)) (annotations p) a in
    set_annotations v (set_anns h p)).

(** [p.file.push(val)] *)
Definition push (val : decl) : P unit :=
  modify (fun p => set_file (File.push val (file p)) p).

Definition flushMeta : P unit :=
  modify (fun p =>
    set_annotations (reslice0 (annotations p))
      (set_comments (reslice0 (comments p)) p)).

Definition parseMapKey : P PrimitiveType :=
  id <- peekIs Identifier ;;
  if negb id then error "unexpected token"
  else
    k <- advance ;;
    match stringToPrimitive (Token.Value k) with
    | Some Bool | None =>
        error ("invalid type for map key, expected one of " +:+
               String.concat ", " validKeys)
    | Some v => ret v
    end.

Definition parseMapType (parseType : P Type') : P Type' :=
  k <- parseMapKey ;;
  c <- peekIs Comma ;;
  if negb c then fail (ErrorString "expected ','")
  else
    advance ;;;
    v <- parseType ;;
    c <- peekIs CloseAngled ;;
    if negb c then fail (ErrorString "expected '>'")
    else
      advance ;;;
      ret (Map k v).

Definition parseArrayType (parseType : P Type') : P Type' :=
  o <- peekIs OpenAngled ;;
  if negb o then error "expected '<"
  else
    advance ;;;
    t <- parseType ;;
    c <- peekIs CloseAngled ;;
    if negb c then error "expected '>"
    else
      advance ;;;
      ret (Array t).

(** The loop that collects a dotted name: [v = append(v, advance().Value)]
    while the next token is an identifier or a dot. *)
Fixpoint dotted_loop (fuel : nat) (v : list string) : P (list string) :=
  match fuel with
  | O => out_of_fuel
  | S fuel' =>
      t <- peek ;;
      if Token.is_ t Identifier || Token.is_ t Dot then
        t <- advance ;;
        dotted_loop fuel' (v ++ [Token.Value t])
      else ret v
  end.

Fixpoint parseType (fuel : nat) : P Type' :=
  match fuel with
  | O => out_of_fuel
  | S fuel' =>
      id <- peekIs Identifier ;;
      if negb id then error "unexpected token"
      else
        tok <- advance ;;
        let t := Token.Value tok in
        match stringToPrimitive t with
        | Some v => ret (Primitive v)
        | None =>
            if String.eqb t "array" then parseArrayType (parseType fuel')
            else if String.eqb t "map" then parseMapType (parseType fuel')
            else
              v <- dotted_loop fuel' [t] ;;
              ret (Unresolved (String.concat EmptyString v))
        end
  end.

Definition parseIndex : P Z :=
  e <- peekIs Equal ;;
  if negb e then error "expected '='"
  else
    advance ;;;
    n <- peekIs Number ;;
    if negb n then error "expected number"
    else
      t <- advance ;;
      fun p => (Atoi (Token.Value t), p).

(** The loop of [parseOne] over the values of an annotation, with its
    locals [vals] and [val]; it leaves at a closing parenthesis only. *)
Fixpoint values_loop (fuel : nat) (vals val : slice) : P (slice * slice) :=
  match fuel with
  | O => out_of_fuel
  | S fuel' =>
      t <- peek ;;
      if Token.is_ t CloseParen then ret (vals, val)
      else if Token.is_ t Comma then
        if (len vals =? 0)%nat then error "expected value"
        else
          j <- joinStrings val " " ;;
          vals <- appendString vals j ;;
          advance ;;;
          values_loop fuel' vals (reslice0 val)
      else
        t <- advance ;;
        val <- appendString val (Token.Value t) ;;
        values_loop fuel' vals val
  end.

(** [parseOne(or)]. The closure [or] of the source appends to a slice of its
    caller; that slice is passed in as [acc] and handed back. *)
Definition parseOne {A} (fuel : nat) (or : A -> P A) (acc : A) : P A :=
  current <- peek ;;
  match Token.Type_ current with
  | LineBreak =>
      prev <- peekPrevious ;;
      (if Token.is_ prev LineBreak then flushMeta else ret tt) ;;;
      advance ;;;
      ret acc
  | Annotation =>
      start <- advance ;;
      o <- peekIs OpenParen ;;
      r <- (if o then
              vv <- values_loop fuel nil_slice nil_slice ;;
              let '(vals, val) := vv in
              vals <- (if (0 <? len val)%nat then
                         j <- joinStrings val " " ;;
                         appendString vals j
                       else ret vals) ;;
              e <- advance ;;
              ret (e, vals)
            else ret (start, nil_slice)) ;;
      let '(e, vals) := r in
      appendAnnotation
        {| AnnotationValue.Offset := offsetBetween start e;
           AnnotationValue.Name := Token.Value start;
           AnnotationValue.Value := vals |} ;;;
      ret acc
  | Comment =>
      prev <- peekPrevious ;;
      let push := Token.is_ prev LineBreak in
      cmm <- advance ;;
      (if push then appendComment (Token.Value cmm) else ret tt) ;;;
      ret acc
  | _ => or acc
  end.

(** [for !p.tokens.peek().is(CloseCurly) { parseOne(or) }] *)
Fixpoint members_loop {A} (fuel n : nat) (or : A -> P A) (acc : A) : P A :=
  match n with
  | O => out_of_fuel
  | S n' =>
      c <- peekIs CloseCurly ;;
      if negb c then
        acc <- parseOne fuel or acc ;;
        members_loop fuel n' or acc
      else ret acc
  end.

Definition parseOneOf (fuel : nat)
    (parseStructureField : bool -> list member -> P (list member))
    (arr : list member) : P (list member) :=
  start <- advance ;;
  o <- peekIs OpenCurly ;;
  if negb o then error "expected '{'"
  else
    advance ;;;
    p <- get ;;
    let comments := comments p in
    let annotations := annotations p in
    flushMeta ;;;
    items <- members_loop fuel fuel (parseStructureField false) [] ;;
    advance ;;;
    idx <- parseIndex ;;
    s <- peekIs Semi ;;
    if negb s then error "expected ';'"
    else
      e <- advance ;;
      ret (arr ++ [AOneOf
        {| OneOfField.Offset := offsetBetween start e;
           OneOfField.Comments := comments;
           OneOfField.Annotations := annotations;
           OneOfField.Index := idx;
           OneOfField.Items := items |}]).

Fixpoint parseStructureField (fuel : nat) (allowOneOf : bool)
    (arr : list member) : P (list member) :=
  match fuel with
  | O => out_of_fuel
  | S fuel' =>
      t <- peek ;;
      if negb (Token.is_ t Identifier) then error "expected identifier"
      else if String.eqb (Token.Value t) "oneof" then
        if negb allowOneOf then
          error "oneof field is not allowed at this point"
        else parseOneOf fuel' (parseStructureField fuel') arr
      else
        fName <- advance ;;
        fType <- parseType fuel ;;
        fIndex <- parseIndex ;;
        s <- peekIs Semi ;;
        if negb s then error "expected ';'"
        else
          e <- advance ;;
          p <- get ;;
          flushMeta ;;;
          ret (arr ++ [AField
            {| Field.Offset := offsetBetween fName e;
               Field.Name := Token.Value fName;
               Field.Comments := comments p;
               Field.Annotations := annotations p;
               Field.Type_ := fType;
               Field.Index := fIndex |}])
  end.

Definition message (fuel : nat) : P unit :=
  start <- advance ;;
  id <- peekIs Identifier ;;
  if negb id then error "expected identifier"
  else
    name <- peek ;;
    p <- get ;;
    if File.isDefined (Token.Value name) (file p) then
      error (Token.Value name +:+ " is already defined")
    else
      advance ;;;
      o <- peekIs OpenCurly ;;
      if negb o then error "expected '{'"
      else
        p <- get ;;
        let comments := comments p in
        let annotations := annotations p in
        advance ;;;
        flushMeta ;;;
        fields <- members_loop fuel fuel (parseStructureField fuel true) [] ;;
        e <- advance ;;
        push (AMessage
          {| Message.Offset := offsetBetween start e;
             Message.Name := Token.Value name;
             Message.Comments := comments;
             Message.Annotations := annotations;
             Message.Fields := fields |}).

(** [reqType] in [parseMethod]: the first piece replaces the ["void"] it
    starts from, the others are appended. *)
Fixpoint reqType_loop (fuel : nat) (reqType : string) : P string :=
  match fuel with
  | O => out_of_fuel
  | S fuel' =>
      t <- peek ;;
      if Token.is_ t Identifier || Token.is_ t Dot then
        t <- advance ;;
        if String.eqb reqType "void"
        then reqType_loop fuel' (Token.Value t)
        else reqType_loop fuel' (reqType +:+ Token.Value t)
      else ret reqType
  end.

Fixpoint retType_loop (fuel : nat) (retType : string) : P string :=
  match fuel with
  | O => out_of_fuel
  | S fuel' =>
      t <- peek ;;
      if Token.is_ t Identifier || Token.is_ t Dot then
        t <- advance ;;
        retType_loop fuel' (retType +:+ Token.Value t)
      else ret retType
  end.

(** The closure [parseMethod(&s)] returns; [methods] is [s.Methods]. *)
Definition parseMethod (fuel : nat) (methods : list Method)
  : P (list Method) :=
  id <- peekIs Identifier ;;
  if negb id then error "expected identifier"
  else
    name <- advance ;;
    o <- peekIs OpenParen ;;
    if negb o then error "expected '('"
    else
      advance ;;;
      t <- peek ;;
      if negb (Token.is_ t Identifier) && negb (Token.is_ t CloseParen) then
        error "expected identifier or ')'"
      else
        reqType <- reqType_loop fuel "void" ;;
        c <- peekIs CloseParen ;;
        if negb c then error "expected ')'"
        else
          advance ;;;
          s <- peekIs Semi ;;
          r <- (if negb s then
                  a <- peekIs Arrow ;;
                  if negb a then error "expected '->'"
                  else
                    advance ;;;
                    t <- peek ;;
                    stream <-
                      (if Token.is_ t Identifier &&
                          String.eqb (Token.Value t) "stream"
                       then (advance ;;; ret true) else ret false) ;;
                    id <- peekIs Identifier ;;
                    if negb id then error "expected identifier"
                    else
                      retType <- retType_loop fuel EmptyString ;;
                      ret (retType, stream)
                else ret ("void", false)) ;;
          let '(retType, stream) := r in
          s <- peekIs Semi ;;
          if negb s then error "expected ';'"
          else
            e <- advance ;;
            p <- get ;;
            flushMeta ;;;
            ret (methods ++
              [{| Method.Offset := offsetBetween name e;
                  Method.Name := Token.Value name;
                  Method.Comments := comments p;
                  Method.Annotations := annotations p;
                  Method.ArgumentType := reqType;
                  Method.ReturnType := retType;
                  Method.ReturnStreaming := stream |}]).

Definition service (fuel : nat) : P unit :=
  start <- advance ;;
  id <- peekIs Identifier ;;
  if negb id then error "expected identifier"
  else
    name <- peek ;;
    p <- get ;;
    if File.isDefined (Token.Value name) (file p) then
      error (Token.Value name +:+ " is already defined")
    else
      advance ;;;
      o <- peekIs OpenCurly ;;
      if negb o then error "expected '{'"
      else
        advance ;;;
        p <- get ;;
        let comments := comments p in
        let annotations := annotations p in
        flushMeta ;;;
        methods <- members_loop fuel fuel (parseMethod fuel) [] ;;
        e <- advance ;;
        push (AService
          {| Service.Offset := offsetBetween start e;
             Service.Name := Token.Value name;
             Service.Comments := comments;
             Service.Annotations := annotations;
             Service.Methods := methods |}).

Definition messageOrService (fuel : nat) (_ : unit) : P unit :=
  t <- peek ;;
  if negb (Token.is_ t Identifier) then error "expected identifier"
  else if String.eqb (Token.Value t) "message" then message fuel
  else if String.eqb (Token.Value t) "service" then service fuel
  else if String.eqb (Token.Value t) "import" then
    error ("imports are only allowed in the beginning of the file, " +:+
           "after the package directive.")
  else
    error ("unexpected `" +:+ Token.Value t +:+
           "', expected 'message', 'service'").

(** The first loop of [parsePackage]. *)
Fixpoint skip_loop (fuel : nat) : P unit :=
  match fuel with
  | O => out_of_fuel
  | S fuel' =>
      t <- peek ;;
      if Token.is_ t LineBreak || Token.is_ t Comment
      then (advance ;;; skip_loop fuel')
      else ret tt
  end.

Definition parsePackage (fuel : nat) : P unit :=
  skip_loop fuel ;;;
  t <- peek ;;
  if negb (Token.is_ t Identifier) then error "expected identifier"
  else if negb (String.eqb (Token.Value t) "package") then
    error ("unexpected " +:+ Token.Value t +:+
           ", expected package identifier")
  else
    start <- advance ;;
    first <- advance ;;
    pName <- dotted_loop fuel [Token.Value first] ;;
    s <- peekIs Semi ;;
    if negb s then error "expected ';'"
    else
      e <- advance ;;
      push (APackage
        {| Package.Offset := offsetBetween start e;
           Package.Name := String.concat EmptyString pName |}).

(** The inner loop of [parseImports]. *)
Fixpoint trivia_loop (fuel : nat) : P unit :=
  match fuel with
  | O => out_of_fuel
  | S fuel' =>
      t <- peek ;;
      if Token.is_ t LineBreak then
        prev <- peekPrevious ;;
        (if Token.is_ prev LineBreak then flushMeta else ret tt) ;;;
        advance ;;;
        trivia_loop fuel'
      else if Token.is_ t Comment then
        c <- advance ;;
        appendComment (Token.Value c) ;;;
        trivia_loop fuel'
      else ret tt
  end.

Fixpoint parseImports (fuel n : nat) : P unit :=
  match n with
  | O => out_of_fuel
  | S n' =>
      trivia_loop fuel ;;;
      t <- peek ;;
      if negb (Token.is_ t Identifier) then ret tt
      else if negb (String.eqb (Token.Value t) "import") then ret tt
      else
        flushMeta ;;;
        start <- advance ;;
        s <- peekIs StringElement ;;
        if negb s then error "expected string"
        else
          path <- advance ;;
          p <- get ;;
          if File.isImported (Token.Value path) (file p) then
            error "duplicated import"
          else
            s <- peekIs Semi ;;
            if negb s then error "expected ';'"
            else
              e <- advance ;;
              push (AnImport
                {| Import'.Offset := offsetBetween start e;
                   Import'.Path := Token.Value path |}) ;;;
              parseImports fuel n'
  end.

(** The loop of [run]. *)
Fixpoint run_loop (fuel n : nat) : P unit :=
  match n with
  | O => out_of_fuel
  | S n' =>
      e <- peekIs EOF ;;
      if negb e then
        parseOne fuel (messageOrService fuel) tt ;;;
        run_loop fuel n'
      else ret tt
  end.

Definition run (fuel : nat) : P File :=
  parsePackage fuel ;;;
  parseImports fuel fuel ;;;
  run_loop fuel fuel ;;;
  p <- get ;;
  ret (file p).

End WithRuntime.

End parser.
Abbreviation parser := parser.parser.

(** [Parse]: the file, and the heap its slices point into. [fuel] bounds
    every loop and the depth of the recursion. *)
Definition Parse `{GoRuntime} `{FilePath} (fuel : nat) (toks : list Token)
  : outcome error (File * Memory) :=
  match parser.run fuel (parser.newParser toks) with
  | (Ok f, p) => Ok (f, parser.memory p)
  | (Err e, _) => Err e
  | (Panicked x, _) => Panicked x
  | (OutOfFuel, _) => OutOfFuel
  end.

(** ** The file-set resolver *)

(** What [os.Stat] answers. *)
Inductive StatResult :=
| StatOk (isDir : bool)
| StatNotExist
| StatError (e : error).

(** The host the resolver runs on: [filepath.Abs], [os.Stat], and
    [os.Open] followed by the read of the whole file, as its code points. *)
Record Host := {
  Abs : string -> outcome error string;
  Stat : string -> StatResult;
  Open : string -> outcome error (list rune)
}.

Module FileSet.

(** The three maps may be nil, as in the zero [FileSet]; [Messages] and
    [Services] hold the declarations the pointers of the source point to. *)
Record FileSet := {
  loadedFiles : option (gmap string bool);
  knownServices : option (gmap string bool);
  packageName : string;
  messages : option (gmap string Message);
  Messages : list Message;
  Services : list Service
}.

Definition L := M FileSet error.

Definition NewFileSet : FileSet :=
  {| loadedFiles := Some ∅;
     knownServices := Some ∅;
     packageName := EmptyString;
     messages := Some ∅;
     Messages := [];
     Services := [] |}.

Definition set_loadedFiles (m : option (gmap string bool)) (f : FileSet) :=
  {| loadedFiles := m; knownServices := knownServices f;
     packageName := packageName f; messages := messages f;
     Messages := Messages f; Services := Services f |}.
Definition set_knownServices (m : option (gmap string bool)) (f : FileSet) :=
  {| loadedFiles := loadedFiles f; knownServices := m;
     packageName := packageName f; messages := messages f;
     Messages := Messages f; Services := Services f |}.
Definition set_packageName (n : string) (f : FileSet) :=
  {| loadedFiles := loadedFiles f; knownServices := knownServices f;
     packageName := n; messages := messages f;
     Messages := Messages f; Services := Services f |}.
Definition set_messages (m : option (gmap string Message)) (f : FileSet) :=
  {| loadedFiles := loadedFiles f; knownServices := knownServices f;
     packageName := packageName f; messages := m;
     Messages := Messages f; Services := Services f |}.
Definition set_Messages (l : list Message) (f : FileSet) :=
  {| loadedFiles := loadedFiles f; knownServices := knownServices f;
     packageName := packageName f; messages := messages f;
     Messages := l; Services := Services f |}.
Definition set_Services (l : list Service) (f : FileSet) :=
  {| loadedFiles := loadedFiles f; knownServices := knownServices f;
     packageName := packageName f; messages := messages f;
     Messages := Messages f; Services := l |}.

(** [fmt.Sprintf("%s.%s", pkg, name)] *)
Definition fqn (pkg name : string) : string := pkg +:+ "." +:+ name.

Definition registerMessage (file : File) (msg : Message) : L unit :=
  let n := fqn (File.Package file) (Message.Name msg) in
  modify (fun f =>
    match messages f with
    | None => set_messages (Some ∅) f
    | Some _ => f
    end) ;;;
  f <- get ;;
  if bool_decide (is_Some (default ∅ (messages f) !! n)) then
    fail (ErrorString ("duplicated definition of " +:+ n))
  else
    modify (set_messages (Some (<[n := msg]> (default ∅ (messages f))))).

Definition isLoaded (path : string) (f : FileSet) : bool :=
  bool_decide (is_Some (default ∅ (loadedFiles f) !! path)).

(** [f.loadedFiles[path] = true] *)
Definition markLoaded (path : string) : L unit :=
  f <- get ;;
  match loadedFiles f with
  | None => throw AssignmentToNilMap
  | Some m => put (set_loadedFiles (Some (<[path := true]> m)) f)
  end.

(** A read through a [*File] that may be nil. *)
Definition deref (file : option File) : L File :=
  match file with
  | Some v => ret v
  | None => throw NilPointerDereference
  end.

Section WithHost.
Context `{UnicodeTables} `{GoRuntime} `{FilePath}.
Variable host : Host.
Variable parseFuel : nat.

(** [findAndLoad] has a value receiver and only reads the set. It answers
    the final path and the parsed file, or an error; for a path already
    loaded it answers the empty path and a nil file, without error. *)
Definition findAndLoad (path : string) (f : FileSet)
  : outcome error (string * option File) :=
  match Abs host path with
  | Ok s =>
      if isLoaded s f then Ok (EmptyString, None)
      else
        let located : outcome error (string * bool * option bool) :=
          (* the path to open, [exist] and [stat.IsDir()] when there is
             a [stat] *)
          let retry (isDir : option bool) :=
            let next := path +:+ ".yarp" in
            match Stat host next with
            | StatOk false => Ok (next, true, Some false)
            | _ => Ok (path, bool_decide (is_Some isDir), isDir)
            end in
          match Stat host s with
          | StatNotExist => retry None
          | StatError e => Err e
          | StatOk true => retry (Some true)
          | StatOk false => Ok (s, true, Some false)
          end in
        match located with
        | Ok (path, exist_, isDir) =>
            if negb exist_ then Err (SourceFileNotFoundError path)
            else if bool_decide (isDir = Some true)
            then Err (SourceIsDirectoryError path)
            else
              match Open host path with
              | Ok text =>
                  match Scanner.Scan text with
                  | Ok tokens =>
                      match Parse parseFuel tokens with
                      | Ok (result, _) => Ok (path, Some result)
                      | Err e => Err e
                      | Panicked x => Panicked x
                      | OutOfFuel => OutOfFuel
                      end
                  | Err e => Err (ESyntax e)
                  | Panicked x => Panicked x
                  | OutOfFuel => OutOfFuel
                  end
              | Err e => Err e
              | Panicked x => Panicked x
              | OutOfFuel => OutOfFuel
              end
        | Err e => Err e
        | Panicked x => Panicked x
        | OutOfFuel => OutOfFuel
        end
  | Err e => Err e
  | Panicked x => Panicked x
  | OutOfFuel => OutOfFuel
  end.

(** The loop over the declared services, the same in [Load] and in
    [processImports]. *)
Fixpoint addServices (finalPath : string) (file : File) (ns : list string)
  : L unit :=
  match ns with
  | [] => ret tt
  | n :: ns' =>
      match File.ServiceByName n file with
      | None =>
          fail (ErrorString ("BUG: " +:+ finalPath +:+ " declares " +:+ n +:+
                             ", but service could not be found"))
      | Some s =>
          modify (fun f =>
            match knownServices f with
            | None => set_knownServices (Some ∅) f
            | Some _ => f
            end) ;;;
          f <- get ;;
          if bool_decide (is_Some (default ∅ (knownServices f) !! n)) then
            fail (ErrorString ("multiple declarations of service " +:+ n +:+
                               " (duplicate found in " +:+ finalPath +:+ ")"))
          else
            modify (fun f =>
              set_Services (Services f ++ [s])
                (set_knownServices
                   (Some (<[n := true]> (default ∅ (knownServices f)))) f)) ;;;
            addServices finalPath file ns'
      end
  end.

(** The loop of [processImports] over the messages of an imported file. *)
Fixpoint addImportedMessages (finalPath : string) (imported : File)
    (ns : list string) : L unit :=
  match ns with
  | [] => ret tt
  | m :: ns' =>
      match File.MessageByName m imported with
      | None =>
          fail (ErrorString ("BUG: " +:+ finalPath +:+ " declares " +:+ m +:+
                             ", but message could not be found"))
      | Some msg =>
          registerMessage imported msg ;;;
          f <- get ;;
          (if String.eqb (File.Package imported) (packageName f)
           then modify (fun f => set_Messages (Messages f ++ [msg]) f)
           else ret tt) ;;;
          addImportedMessages finalPath imported ns'
      end
  end.

(** The loop of [Load] over the messages of the file. *)
Fixpoint addMessages (finalPath : string) (file : File) (ns : list string)
  : L unit :=
  match ns with
  | [] => ret tt
  | n :: ns' =>
      match File.MessageByName n file with
      | None =>
          fail (ErrorString ("BUG: " +:+ finalPath +:+ " declares " +:+ n +:+
                             ", but message could not be found"))
      | Some m =>
          modify (fun f => set_Messages (Messages f ++ [m]) f) ;;;
          registerMessage file m ;;;
          addMessages finalPath file ns'
      end
  end.

(** One round of the loop of [processImports], for the import [i];
    [processImports] is the recursive call. *)
Definition processImport
    (processImports : string -> option File -> L unit)
    (path : string) (i : string) : L unit :=
  let pwd := Dir path in
  fun f =>
    match Abs host (Join pwd i) with
    | Ok target =>
        match findAndLoad target f with
        | Ok (finalPath, imported) =>
            (markLoaded finalPath ;;;
             processImports finalPath imported ;;;
             imported <- deref imported ;;
             addImportedMessages finalPath imported
               (File.DeclaredMessages imported) ;;;
             f <- get ;;
             if String.eqb (File.Package imported) (packageName f)
             then addServices finalPath imported
                    (File.DeclaredServices imported)
             else ret tt) f
        | Err (SourceFileNotFoundError nf) =>
            (Err (ImportFileNotFoundError path nf), f)
        | Err e => (Err e, f)
        | Panicked x => (Panicked x, f)
        | OutOfFuel => (OutOfFuel, f)
        end
    | Err e => (Err e, f)
    | Panicked x => (Panicked x, f)
    | OutOfFuel => (OutOfFuel, f)
    end.

(** [for _, i := range file.ImportedFiles { ... }] *)
Fixpoint forImports (body : string -> L unit) (l : list string) : L unit :=
  match l with
  | [] => ret tt
  | i :: l' => body i ;;; forImports body l'
  end.

(** [depth] bounds the depth of the recursion along the import graph. *)
Fixpoint processImports (depth : nat) (path : string) (file : option File)
  : L unit :=
  match depth with
  | O => out_of_fuel
  | S depth' =>
      file <- deref file ;;
      forImports (processImport (processImports depth') path)
        (File.ImportedFiles file)
  end.

Definition Load (depth : nat) (path : string) : L unit :=
  fun f =>
    match findAndLoad path f with
    | Ok (finalPath, file) =>
        (markLoaded finalPath ;;;
         f <- get ;;
         (if String.eqb (packageName f) EmptyString then
            file <- deref file ;;
            modify (set_packageName (File.Package file))
          else
            file <- deref file ;;
            if negb (String.eqb (packageName f) (File.Package file)) then
              fail (MixedPackagesError path (packageName f)
                      (File.Package file))
            else ret tt) ;;;
         processImports depth finalPath file ;;;
         file <- deref file ;;
         addMessages finalPath file (File.DeclaredMessages file) ;;;
         addServices finalPath file (File.DeclaredServices file)) f
    | Err e => (Err (Wrapped path e), f)
    | Panicked x => (Panicked x, f)
    | OutOfFuel => (OutOfFuel, f)
    end.

End WithHost.

End FileSet.
Abbreviation FileSet := FileSet.FileSet.

(** ** AnnotationCollection.FindByName

    [FindByName] hands out the address of its loop variable. To tell that
    address from the address of a cell of the collection, a pointer is one
    or the other, and the store holds the variables next to the heap. *)

Module AnnotationCollection.

Inductive pointer :=
| Var (n : nat)
| Elem (a i : nat).

Record Store := {
  heap : Memory;
  vars : list AnnotationValue
}.

Definition set_strs (h : list (list string)) (st : Store) : Store :=
  {| heap := {| strs := h; anns := anns (heap st) |}; vars := vars st |}.

(** [for _, v := range a { if v.Name == name { return &v, true } }]: each
    round copies the element into the variable [v]. *)
Fixpoint range_loop (name : string) (l : list AnnotationValue) (st : Store)
  : option pointer * Store :=
  match l with
  | [] => (None, st)
  | e :: l' =>
      let v := length (vars st) in
      let st' := {| heap := heap st; vars := vars st ++ [e] |} in
      if String.eqb (AnnotationValue.Name e) name then (Some (Var v), st')
      else range_loop name l' st'
  end.

(** [None] stands for the answer [(nil, false)]. *)
Definition FindByName (a : slice) (name : string) (st : Store)
  : option pointer * Store :=
  range_loop name (read (anns (heap st)) a) st.

(** [*p] *)
Definition load (p : pointer) (st : Store) : option AnnotationValue :=
  match p with
  | Var n => vars st !! n
  | Elem a i => cells ← anns (heap st) !! a; cells !! i
  end.

(** [*p = v] *)
Definition assign (p : pointer) (v : AnnotationValue) (st : Store)
  : option Store :=
  match p with
  | Var n =>
      if (n <? length (vars st))%nat
      then Some {| heap := heap st; vars := <[n := v]> (vars st) |}
      else None
  | Elem a i =>
      cells ← anns (heap st) !! a;
      if (i <? length cells)%nat
      then Some {| heap := {| strs := strs (heap st);
                              anns := <[a := <[i := v]> cells]>
                                        (anns (heap st)) |};
                   vars := vars st |}
      else None
  end.

(** What a caller can do through a [*AnnotationValue]. *)
Inductive mutation :=
| SetOffset (o : Offset)
| SetName (n : string)
| SetValue (v : slice)
| SetValueAt (i : nat) (x : string).

(** [p.Offset = o], [p.Name = n], [p.Value = v] and [p.Value[i] = x]. *)
Definition mutate (p : pointer) (m : mutation) (st : Store) : option Store :=
  v ← load p st;
  match m with
  | SetOffset o =>
      assign p {| AnnotationValue.Offset := o;
                  AnnotationValue.Name := AnnotationValue.Name v;
                  AnnotationValue.Value := AnnotationValue.Value v |} st
  | SetName n =>
      assign p {| AnnotationValue.Offset := AnnotationValue.Offset v;
                  AnnotationValue.Name := n;
                  AnnotationValue.Value := AnnotationValue.Value v |} st
  | SetValue s =>
      assign p {| AnnotationValue.Offset := AnnotationValue.Offset v;
                  AnnotationValue.Name := AnnotationValue.Name v;
                  AnnotationValue.Value := s |} st
  | SetValueAt i x =>
      h ← store (strs (heap st)) (AnnotationValue.Value v) i x;
      Some (set_strs h st)
  end.

(** A field assignment, as opposed to a write into the array behind
    [Value]. *)
Definition assignsField (m : mutation) : bool :=
  match m with
  | SetValueAt _ _ => false
  | _ => true
  end.

(** What a reader of the collection sees: each annotation with the strings
    of its [Value]. *)
Definition contents (a : slice) (st : Store)
  : list (Offset * string * list string) :=
  map (fun v => (AnnotationValue.Offset v, AnnotationValue.Name v,
                 read (strs (heap st)) (AnnotationValue.Value v)))
      (read (anns (heap st)) a).

End AnnotationCollection.

(** ** Tables for Latin-1 text

    Go's [unicode.IsDigit], [unicode.IsGraphic] and [unicode.IsSpace] on
    U+0000..U+00FF; the range tables above Latin-1 are not reproduced, and
    the source texts evaluated below stay inside ASCII. *)
#[global] Instance Latin1 : UnicodeTables := {|
  IsDigit r := (48 <=? r) && (r <=? 57);
  IsGraphic r :=
    ((32 <=? r) && (r <=? 126)) ||
    ((160 <=? r) && (r <=? 255) && negb (r =? 173));
  IsSpace r :=
    ((9 <=? r) && (r <=? 13)) || (r =? 32) || (r =? 133) || (r =? 160)
|}.

(** ** The runtime and the paths of a Unix host

    [append] doubles a capacity below 256 and then grows it by a quarter
    plus 192; the rounding of the runtime to allocation size classes is not
    reproduced. *)
#[global] Instance GoGrowth : GoRuntime := {|
  growcap oldCap newLen :=
    if (oldCap + oldCap <? newLen)%nat then newLen
    else if (oldCap <? 256)%nat then (oldCap + oldCap)%nat
    else (oldCap + (oldCap + 768) / 4)%nat
|}.

Module unix.

(** The pieces of a path between its slashes. *)
Fixpoint split (acc : string) (p : string) : list string :=
  match p with
  | EmptyString => [acc]
  | String.String c p' =>
      if Ascii.eqb c "/" then acc :: split EmptyString p'
      else split (acc +:+ String.String c EmptyString) p'
  end.

(** The pieces that stay, last one first. *)
Fixpoint resolve (rooted : bool) (stack : list string) (l : list string)
  : list string :=
  match l with
  | [] => stack
  | e :: l' =>
      if String.eqb e EmptyString || String.eqb e "." then
        resolve rooted stack l'
      else if String.eqb e ".." then
        match stack with
        | top :: rest =>
            if String.eqb top ".." then resolve rooted (e :: stack) l'
            else resolve rooted rest l'
        | [] =>
            if rooted then resolve rooted [] l'
            else resolve rooted [e] l'
        end
      else resolve rooted (e :: stack) l'
  end.

Definition rooted (p : string) : bool :=
  match p with
  | String.String c _ => Ascii.eqb c "/"
  | EmptyString => false
  end.

Definition Clean (p : string) : string :=
  let body := String.concat "/" (rev (resolve (rooted p) [] (split EmptyString p))) in
  if rooted p then "/" +:+ body
  else if String.eqb body EmptyString then "." else body.

(** Up to and with the last slash, cleaned. *)
Definition Dir (p : string) : string :=
  let pieces := split EmptyString p in
  Clean (String.concat "/" (removelast pieces) +:+
         (if (1 <? length pieces)%nat then "/" else EmptyString)).

Definition Join (a b : string) : string :=
  if negb (String.eqb a EmptyString) then Clean (a +:+ "/" +:+ b)
  else if negb (String.eqb b EmptyString) then Clean b
  else EmptyString.

(** [filepath.Abs] in the working directory [wd]. *)
Definition Abs (wd : string) (p : string) : outcome error string :=
  if rooted p then Ok (Clean p) else Ok (Join wd p).

End unix.

#[global] Instance UnixPaths : FilePath := {|
  Clean := unix.Clean;
  Dir := unix.Dir;
  Join := unix.Join
|}.

(** ** Source texts and hosts to evaluate the code on *)

(** Line feed and double quote, as one-character strings. *)
Definition LF : string := String.String (byte_of 10) EmptyString.
Definition DQ : string := String.String (byte_of 34) EmptyString.

(** [Scan] and then [Parse], as [findAndLoad] chains them. *)
Definition ScanParse `{UnicodeTables} `{GoRuntime} `{FilePath}
    (fuel : nat) (text : string) : outcome error (File * Memory) :=
  match Scanner.Scan (runes text) with
  | Ok toks => Parse fuel toks
  | Err e => Err (ESyntax e)
  | Panicked x => Panicked x
  | OutOfFuel => OutOfFuel
  end.

(** The message called [name] in the tree of a file. *)
Definition messageNamed (name : string) (f : File) : option Message :=
  head (omap (fun d => match d with
                       | AMessage m =>
                           if String.eqb (Message.Name m) name then Some m
                           else None
                       | _ => None
                       end) (File.Tree f)).

(** The members of that message that are fields. *)
Definition fieldsOf (m : Message) : list Field :=
  omap (fun x => match x with AField f => Some f | _ => None end)
       (Message.Fields m).

(** A host whose disk holds the given files (absolute path, text) and
    directories, with working directory [wd]. *)
Definition lookupFile (files : list (string * string)) (p : string)
  : option string :=
  snd <$> head (filter (fun e => bool_decide (fst e = p)) files).

Definition memHost (wd : string) (files : list (string * string))
    (dirs : list string) : Host :=
  {| Abs := unix.Abs wd;
     Stat p :=
       match unix.Abs wd p with
       | Ok q =>
           if existsb (String.eqb q) dirs then StatOk true
           else if bool_decide (is_Some (lookupFile files q))
           then StatOk false
           else StatNotExist
       | _ => StatNotExist
       end;
     Open p :=
       match unix.Abs wd p with
       | Ok q =>
           match lookupFile files q with
           | Some text => Ok (runes text)
           | None => Err (PathError "open" p)
           end
       | _ => Err (PathError "open" p)
       end |}.

(** A comment and an annotation name that run to the end of the text. *)
Definition text_comment_at_end : string := "#a".
Definition text_annotation_at_end : string := "@a".

(** [(] alone, and on the second line. *)
Definition text_paren : string := "(".
Definition text_paren_line2 : string := LF +:+ "(".

(** The literals ["ab"] and ["a\b"], quotes included. *)
Definition text_string_ab : string := DQ +:+ "ab" +:+ DQ.
Definition text_string_backslash : string := DQ +:+ "a\b" +:+ DQ.

(** A message with one field of the given type. *)
Definition text_field (type : string) : string :=
  "package p;" +:+ LF +:+
  "message M {" +:+ LF +:+
  "  f " +:+ type +:+ " = 0;" +:+ LF +:+
  "}" +:+ LF.

(** A message with one annotated field. *)
Definition text_annotated (annotation : string) : string :=
  "package p;" +:+ LF +:+
  "message M {" +:+ LF +:+
  "  " +:+ annotation +:+ " f string = 0;" +:+ LF +:+
  "}" +:+ LF.

(** Two messages, each under a comment of its own. *)
Definition text_two_messages : string :=
  "package p;" +:+ LF +:+
  "# A" +:+ LF +:+
  "message M {" +:+ LF +:+
  "}" +:+ LF +:+
  "# B" +:+ LF +:+
  "message N {" +:+ LF +:+
  "}" +:+ LF.

(** The annotations of the field [f] of the message [M], each with its name
    and the strings of its [Value]. *)
Definition annotationsOfField (r : outcome error (File * Memory))
  : option (list (string * list string)) :=
  match r with
  | Ok (file, mem) =>
      m ← messageNamed "M" file;
      f ← head (fieldsOf m);
      Some (map (fun a => (AnnotationValue.Name a,
                           read (strs mem) (AnnotationValue.Value a)))
                (read (anns mem) (Field.Annotations f)))
  | _ => None
  end.

(** The type of the field [f] of the message [M]. *)
Definition typeOfField (r : outcome error (File * Memory)) : option Type' :=
  match r with
  | Ok (file, _) =>
      m ← messageNamed "M" file;
      f ← head (fieldsOf m);
      Some (Field.Type_ f)
  | _ => None
  end.

(** The message of a parse error. *)
Definition parseErrorAt (r : outcome error (File * Memory))
  : option (Element * string) :=
  match r with
  | Err (EParse e) =>
      Some (Token.Type_ (ParseError.Token e), ParseError.Message e)
  | _ => None
  end.

(** The types and the positions of scanned tokens. *)
Definition positions (r : outcome SyntaxError (list Token))
  : option (list (Element * Z * Z)) :=
  match r with
  | Ok toks =>
      Some (map (fun t => (Token.Type_ t, Token.Line t, Token.Column t)) toks)
  | _ => None
  end.

(** Files for the resolver: [a.yarp] of package [a] imports [b.yarp] of
    package [b]; [u1.yarp] and [u2.yarp] of package [p] both declare
    [User]; [c.yarp] of package [c] stands alone. *)
Definition file_a : string :=
  "package a;" +:+ LF +:+
  "import " +:+ DQ +:+ "b.yarp" +:+ DQ +:+ ";" +:+ LF.
Definition file_b : string :=
  "package b;" +:+ LF +:+ "message M {" +:+ LF +:+ "}" +:+ LF.
Definition file_c : string :=
  "package c;" +:+ LF +:+ "message C {" +:+ LF +:+ "}" +:+ LF.
Definition file_user : string :=
  "package p;" +:+ LF +:+ "message User {" +:+ LF +:+ "}" +:+ LF.

(** A diamond inside one package: [top] imports [left] and [base], and
    [left] imports [base]. *)
Definition file_top : string :=
  "package p;" +:+ LF +:+
  "import " +:+ DQ +:+ "left.yarp" +:+ DQ +:+ ";" +:+ LF +:+
  "import " +:+ DQ +:+ "base.yarp" +:+ DQ +:+ ";" +:+ LF.
Definition file_left : string :=
  "package p;" +:+ LF +:+
  "import " +:+ DQ +:+ "base.yarp" +:+ DQ +:+ ";" +:+ LF.
Definition file_base : string :=
  "package p;" +:+ LF +:+ "message Base {" +:+ LF +:+ "}" +:+ LF.

Definition disk : Host :=
  memHost "/w"
    [("/w/a.yarp", file_a); ("/w/b.yarp", file_b); ("/w/c.yarp", file_c);
     ("/w/u1.yarp", file_user); ("/w/u2.yarp", file_user);
     ("/w/top.yarp", file_top); ("/w/left.yarp", file_left);
     ("/w/base.yarp", file_base)]
    [].

(** [Load] on [disk], with room for the parser and for the import graph. *)
Definition load (path : string) (f : FileSet) : outcome error unit * FileSet :=
  FileSet.Load disk 100 10 path f.

(** The tokens of [text_two_messages]. *)
Definition tokens_two_messages : list Token :=
  match Scanner.Scan (runes text_two_messages) with
  | Ok toks => toks
  | _ => []
  end.

(** [run] up to and with its first declaration: what [run] does before the
    second round of its loop. *)
Definition first_declaration `{GoRuntime} `{FilePath} (fuel : nat)
  : parser.P unit :=
  parser.parsePackage fuel ;;;
  parser.parseImports fuel fuel ;;;
  parser.parseOne fuel (parser.messageOrService fuel) tt.

(** The comments of the message called [name], read in the heap of the
    parser. *)
Definition commentsOfMessage (name : string) (p : parser)
  : option (list string) :=
  m ← messageNamed name (parser.file p);
  Some (read (strs (parser.memory p)) (Message.Comments m)).

(** The set [f'] holds all that [f] held, where [f] held it: the output
    collections are extended at their end, the name index gains names. *)
Definition grows (f f' : FileSet) : Prop :=
  FileSet.Messages f `prefix_of` FileSet.Messages f' /\
  FileSet.Services f `prefix_of` FileSet.Services f' /\
  default ∅ (FileSet.messages f) ⊆ default ∅ (FileSet.messages f').

(** A step of the resolver that only ever adds to the set. *)
Definition keeps {A} (c : FileSet.L A) : Prop :=
  forall f, grows f (snd (c f)).

(** The set after [a.yarp] is loaded, and [c.yarp] as the parser reads
    it. *)
Definition set_after_a : FileSet := snd (load "/w/a.yarp" FileSet.NewFileSet).
Definition parsed_c : File :=
  match ScanParse 100 file_c with
  | Ok (file, _) => file
  | _ => File.empty
  end.

(** The set after [u1.yarp] is loaded. *)
Definition set_after_u1 : FileSet :=
  snd (load "/w/u1.yarp" FileSet.NewFileSet).

(** A collection of one annotation, [a] with the value [x], in a store. *)
Definition one_annotation : slice := {| arr := Some 0%nat; len := 1; cap := 1 |}.
Definition store_one_annotation : AnnotationCollection.Store :=
  {| AnnotationCollection.heap :=
       {| strs := [["x"]];
          anns := [[{| AnnotationValue.Offset := zeroOffset;
                       AnnotationValue.Name := "a";
                       AnnotationValue.Value :=
                         {| arr := Some 0%nat; len := 1; cap := 1 |} |}]] |};
     AnnotationCollection.vars := [] |}.

(** The first element of a collection with the given name. *)
Definition firstNamed (name : string) (l : list AnnotationValue)
  : option AnnotationValue :=
  head (filter (fun v => AnnotationValue.Name v = name) l).

(** The scanner went on in the same text: [s'] is [s] some characters
    later. *)
Definition later (s s' : Scanner.Scanner) : Prop :=
  Scanner.data s' = Scanner.data s /\
  (Scanner.current s <= Scanner.current s')%nat.

(** The text left to scan in [s] is shorter than [n]. *)
Definition room (n : nat) (s : Scanner.Scanner) : Prop :=
  (length (Scanner.data s) - Scanner.current s < n)%nat.

(** With a loop budget longer than the text left, the step [c] comes to an
    end of its own, and it only moves forward. *)
Definition runs {A} (n : nat) (c : Scanner.ScanM A) : Prop :=
  forall s, room n s -> fst (c s) <> OutOfFuel /\ later s (snd (c s)).

(** A message annotated [@x] whose one field is annotated [@y]. *)
Definition text_annotated_message : string :=
  "package p;" +:+ LF +:+
  "@x message M {" +:+ LF +:+
  "  @y f string = 0;" +:+ LF +:+
  "}" +:+ LF.

(** The names of the annotations of the message [M], as they read when the
    parse is over. *)
Definition annotationNamesOfMessage (r : outcome error (File * Memory))
  : option (list string) :=
  match r with
  | Ok (file, mem) =>
      m ← messageNamed "M" file;
      Some (map AnnotationValue.Name
              (read (anns mem) (Message.Annotations m)))
  | _ => None
  end.

(** ** The queries of the file set

    [strings.ContainsRune], [strings.Split], [strings.Join] and
    [strings.TrimSuffix], for the one-byte separators the source hands them. *)

Fixpoint ContainsRune (s : string) (r : ascii) : bool :=
  match s with
  | EmptyString => false
  | String.String c s' => Ascii.eqb c r || ContainsRune s' r
  end.

(** [strings.Split(s, sep)] for a separator of one byte: the pieces between
    the separators, one piece (the empty one) for the empty string. *)
Fixpoint Split (sep : ascii) (s : string) : list string :=
  match s with
  | EmptyString => [EmptyString]
  | String.String c s' =>
      if Ascii.eqb c sep then EmptyString :: Split sep s'
      else match Split sep s' with
           | piece :: pieces => String.String c piece :: pieces
           | [] => [String.String c EmptyString]
           end
  end.

(** [strings.TrimSuffix(s, suffix)] *)
Definition TrimSuffix (s suffix : string) : string :=
  let l := list_ascii_of_string s in
  let k := list_ascii_of_string suffix in
  if (length k <=? length l)%nat &&
     bool_decide (drop (length l - length k) l = k)
  then string_of_list_ascii (take (length l - length k) l)
  else s.

(** [FileSet.FindMessage]: [None] stands for the answer [(nil, false)]. *)
Definition FindMessage (name : string) (f : FileSet) : option Message :=
  let n := if negb (ContainsRune name ".") then
             FileSet.fqn (FileSet.packageName f) name
           else name in
  default ∅ (FileSet.messages f) !! n.

(** [FileSet.FromSamePackage] *)
Definition FromSamePackage (name : string) (f : FileSet) : bool :=
  let n := if negb (ContainsRune name ".") then
             FileSet.fqn (FileSet.packageName f) name
           else name in
  match default ∅ (FileSet.messages f) !! n with
  | None => false
  | Some m =>
      String.eqb (TrimSuffix n ("." +:+ Message.Name m))
                 (FileSet.packageName f)
  end.

(** [SplitComponents] *)
Definition SplitComponents (n : string) : string * string :=
  let components := Split "." n in
  if (length components =? 1)%nat then
    (EmptyString, List.last components EmptyString)
  else
    (String.concat "." (removelast components),
     List.last components EmptyString).

(** The message the set that loaded [a.yarp] holds under [b.M]. *)
Definition indexed_b_M : Message :=
  default {| Message.Offset := zeroOffset; Message.Name := EmptyString;
             Message.Comments := nil_slice; Message.Annotations := nil_slice;
             Message.Fields := [] |}
    (default ∅ (FileSet.messages set_after_a) !! FileSet.fqn "b" "M").

(** A file of the package [p] that declares nothing, and a message of a
    given name without fields. *)
Definition empty_file_of_p : File :=
  {| File.Tree := []; File.Package := "p"; File.DeclaredMessages := [];
     File.DeclaredServices := []; File.ImportedFiles := [];
     File.declaredNames := None |}.
Definition message_named (name : string) : Message :=
  {| Message.Offset := zeroOffset; Message.Name := name;
     Message.Comments := nil_slice; Message.Annotations := nil_slice;
     Message.Fields := [] |}.

(** A disk with a directory [/w/lib] and nothing else. *)
Definition disk_with_directory : Host := memHost "/w" [] ["/w/lib"].

(** [b.yarp] as the parser reads it, and the set after [c.yarp] is
    loaded. *)
Definition parsed_b : File :=
  match ScanParse 100 file_b with
  | Ok (file, _) => file
  | _ => File.empty
  end.
Definition set_after_c : FileSet := snd (load "/w/c.yarp" FileSet.NewFileSet).

(** A file of the package [p] with one service [S], as the parser reads it,
    and the set after its services are added. *)
Definition file_service : string :=
  "package p;" +:+ LF +:+ "service S {" +:+ LF +:+ "}" +:+ LF.
Definition parsed_service : File :=
  match ScanParse 100 file_service with
  | Ok (file, _) => file
  | _ => File.empty
  end.
Definition set_with_service_S : FileSet :=
  snd (FileSet.addServices "/w/s1.yarp" parsed_service ["S"]
         FileSet.NewFileSet).

(** ** Where a load stops

    The set once [Load] has entered the path of the file in
    [loadedFiles]. *)
Definition marked (finalPath : string) (f : FileSet) : FileSet :=
  FileSet.set_loadedFiles
    (Some (<[finalPath := true]> (default ∅ (FileSet.loadedFiles f)))) f.

(** The set as [Load] hands it to [processImports]: the path is entered,
    and the package of the file is adopted when the set had none. *)
Definition entered (finalPath : string) (file : File) (f : FileSet)
  : FileSet :=
  if String.eqb (FileSet.packageName f) EmptyString
  then FileSet.set_packageName (File.Package file) (marked finalPath f)
  else marked finalPath f.

(** The name index once the messages [ms] of [file] are registered, one
    after the other. *)
Definition registered (file : File) (ms : list Message)
    (idx : gmap string Message) : gmap string Message :=
  foldl (fun idx m =>
           <[FileSet.fqn (File.Package file) (Message.Name m) := m]> idx)
        idx ms.

(** The registry of service names once the names [ns] are entered. *)
Definition entered_names (ns : list string) (ks : gmap string bool)
  : gmap string bool :=
  foldl (fun ks n => <[n := true]> ks) ks ns.

(** The loop of [Load] over the declared messages [ns], started in [f],
    stopped with the error [e] and left [f']: the messages of the names
    before the one it stopped at are in [Messages] and in the name index;
    the message it stopped at is in [Messages] too when it is its
    registration that failed. *)
Definition stops_at_message (finalPath : string) (file : File)
    (ns : list string) (f : FileSet) (e : error) (f' : FileSet) : Prop :=
  exists (ns1 : list string) (n : string) (ns2 : list string)
         (ms : list Message),
    ns = ns1 ++ n :: ns2 /\
    Forall2 (fun k m => File.MessageByName k file = Some m) ns1 ms /\
    default ∅ (FileSet.messages f')
    = registered file ms (default ∅ (FileSet.messages f)) /\
    FileSet.Services f' = FileSet.Services f /\
    ((File.MessageByName n file = None /\
      e = ErrorString ("BUG: " +:+ finalPath +:+ " declares " +:+ n +:+
                       ", but message could not be found") /\
      FileSet.Messages f' = FileSet.Messages f ++ ms)
     \/
     (exists m : Message,
        File.MessageByName n file = Some m /\
        e = ErrorString ("duplicated definition of " +:+
                         FileSet.fqn (File.Package file) (Message.Name m)) /\
        is_Some (default ∅ (FileSet.messages f')
                   !! FileSet.fqn (File.Package file) (Message.Name m)) /\
        FileSet.Messages f' = FileSet.Messages f ++ ms ++ [m])).

(** The loop over the declared services [ns], started in [f], stopped with
    the error [e] and left [f']: the services of the names before the one
    it stopped at are in [Services], and their names in the registry. *)
Definition stops_at_service (finalPath : string) (file : File)
    (ns : list string) (f : FileSet) (e : error) (f' : FileSet) : Prop :=
  exists (ns1 : list string) (n : string) (ns2 : list string)
         (ss : list Service),
    ns = ns1 ++ n :: ns2 /\
    Forall2 (fun k s => File.ServiceByName k file = Some s) ns1 ss /\
    FileSet.Services f' = FileSet.Services f ++ ss /\
    default ∅ (FileSet.knownServices f')
    = entered_names ns1 (default ∅ (FileSet.knownServices f)) /\
    FileSet.Messages f' = FileSet.Messages f /\
    FileSet.messages f' = FileSet.messages f /\
    ((File.ServiceByName n file = None /\
      e = ErrorString ("BUG: " +:+ finalPath +:+ " declares " +:+ n +:+
                       ", but service could not be found"))
     \/
     (is_Some (File.ServiceByName n file) /\
      is_Some (default ∅ (FileSet.knownServices f') !! n) /\
      e = ErrorString ("multiple declarations of service " +:+ n +:+
                       " (duplicate found in " +:+ finalPath +:+ ")"))).

(** The set the refused load of [u2.yarp] leaves. *)
Definition set_after_u2 : FileSet :=
  snd (FileSet.Load disk 100 10 "/w/u2.yarp" set_after_u1).

(** A file of the package [p] with the services [T] and [S], as the parser
    reads it, and the service [T] it declares. *)
Definition file_services_T_S : string :=
  "package p;" +:+ LF +:+
  "service T {" +:+ LF +:+ "}" +:+ LF +:+
  "service S {" +:+ LF +:+ "}" +:+ LF.
Definition parsed_services_T_S : File :=
  match ScanParse 100 file_services_T_S with
  | Ok (file, _) => file
  | _ => File.empty
  end.
Definition service_T : Service :=
  default {| Service.Offset := zeroOffset; Service.Name := EmptyString;
             Service.Comments := nil_slice; Service.Annotations := nil_slice;
             Service.Methods := [] |}
    (File.ServiceByName "T" parsed_services_T_S).

(** The step [c] keeps the property [P] of the scanner. *)
Definition stays (P : Scanner.Scanner -> Prop) {A} (c : Scanner.ScanM A)
  : Prop :=
  forall s, P s -> P (snd (c s)).

(** No token scanned so far is the end-of-input token. *)
Definition noEOF (s : Scanner.Scanner) : Prop :=
  Forall (fun t => Token.Type_ t <> EOF) (Scanner.tokens s).
(** The characters [scanToken] only consumes. *)
Definition blankRune (r : rune) : bool :=
  (r =? ch "013") || (r =? ch " ") || (r =? ch "009").

(** The kind and the text of the token of a one-character token. *)
Definition punctuation (r : rune) : option (Element * string) :=
  match Scanner.simpleTokens r with
  | Some k => Some (k, string_of_runes [r])
  | None => None
  end.

(** The kinds and the texts of tokens, without their positions. *)
Definition kinds (toks : list Token) : list (Element * string) :=
  map (fun t => (Token.Type_ t, Token.Value t)) toks.

(** The number of line feeds in a text. *)
Definition lineFeeds (l : list rune) : Z :=
  Z.of_nat (count_occ Z.eq_dec l (ch "010")).

(** The line and the column [pos] has after it went over [l], from the line
    and the column it had before. *)
Fixpoint pos_over (l : list rune) (line column : Z) : Z * Z :=
  match l with
  | [] => (line, column)
  | r :: l' =>
      if r =? ch "010" then pos_over l' (line + 1) 2
      else pos_over l' line (column + 1)
  end.

(** ** What the parser keeps

    The tokens the parser has not consumed. *)
Definition ahead (p : parser) : list Token :=
  drop (tokenList.current (parser.tokens p))
       (tokenList.tokens (parser.tokens p)).

(** [tokensLen] is the length of [tokens], as [newParser] sets it. *)
Definition sound (p : parser) : Prop :=
  tokenList.tokensLen (parser.tokens p)
  = length (tokenList.tokens (parser.tokens p)).

(** The step [c], run in [p], does not panic, and however it ends the parser
    it leaves meets [Post]. *)
Definition lands {A} (Post : parser -> Prop) (c : parser.P A) (p : parser)
  : Prop :=
  Post (snd (c p)) /\ forall x, fst (c p) <> Panicked x.

(** The step [c] keeps [I] and does not panic where [I] holds. *)
Definition inv {A} (I : parser -> Prop) (c : parser.P A) : Prop :=
  forall p, I p -> lands I c p.

(** A property of sound parsers that only depends on the file: the steps
    that leave the file alone keep it. *)
Definition framed (I : parser -> Prop) : Prop :=
  (forall p, I p -> sound p) /\
  (forall p q, I p -> sound q -> parser.file q = parser.file p -> I q).

(** The parser is sound and its file is [f0]. *)
Definition file_is (f0 : File) (p : parser) : Prop :=
  sound p /\ parser.file p = f0.

(** Every declared name is declared once, and the name index of the file
    resolves it to a declaration of its kind that carries the name; no path
    is imported twice. *)
Definition declared_once `{FilePath} (f : File) : Prop :=
  NoDup (File.DeclaredMessages f ++ File.DeclaredServices f) /\
  Forall (fun n => exists m, File.MessageByName n f = Some m /\
                             Message.Name m = n)
         (File.DeclaredMessages f) /\
  Forall (fun n => exists s, File.ServiceByName n f = Some s /\
                             Service.Name s = n)
         (File.DeclaredServices f) /\
  NoDup (File.ImportedFiles f).

(** The parser is sound and its file declares each name once. *)
Definition tidy `{FilePath} (p : parser) : Prop :=
  sound p /\ declared_once (parser.file p).
(** [text_two_messages] as the parser reads it, with the heap of the
    parser. *)
Definition parsed_two_messages : File * Memory :=
  match Parse 100 tokens_two_messages with
  | Ok r => r
  | _ => (File.empty, empty_memory)
  end.

(** The message of [parsePackage] for the token it finds where the package
    clause should start. *)
Definition packageExpected (t : Token) : string :=
  if Token.is_ t Identifier
  then "unexpected " +:+ Token.Value t +:+ ", expected package identifier"
  else "expected identifier".

(** A token of the given kind and text, at line 1, column 1. *)
Definition token (k : Element) (v : string) : Token :=
  {| Token.Type_ := k; Token.Value := v; Token.Line := 1; Token.Column := 1 |}.

(** * Properties *)

(** ** The scanner *)

(** C2, evaluated on the code: [Scan] does not return a token sequence or a
    SyntaxError for every text. On a text that ends inside a comment, or
    inside an annotation name, the loop of [comment] (of [annotation]) asks
    for the next character although none is left, and [advance] indexes
    [data] past its end: the call panics. *)
Theorem Scan_panics_at_end_of_text :
  Scanner.Scan (runes text_comment_at_end) = Panicked IndexOutOfRange /\
  Scanner.Scan (runes text_annotation_at_end) = Panicked IndexOutOfRange.
Proof. split; vm_compute; reflexivity. Qed.

(** C7, evaluated on the code: the literal ["ab"] scans to a string token,
    but ["a\b"] does not. The backslash sets [escaping], nothing but a quote
    clears it, so the closing quote is taken for an escaped one and the scan
    ends in the SyntaxError "unterminated string". *)
Theorem Scan_backslash_swallows_closing_quote :
  (Scanner.Scan (runes text_string_ab) =
     Ok [{| Token.Type_ := StringElement; Token.Value := "ab";
            Token.Line := 1; Token.Column := 2 |};
         {| Token.Type_ := EOF; Token.Value := EmptyString;
            Token.Line := 1; Token.Column := 5 |}]) /\
  (Scanner.Scan (runes text_string_backslash) =
     Err {| SyntaxError.Message := "unterminated string";
            SyntaxError.Line := 1; SyntaxError.Column := 6 |}).
Proof. split; vm_compute; reflexivity. Qed.

(** C9, evaluated on the code: the position of a token is not the 1-based
    line and column of its first character. [pos] counts up to [current],
    which is already past that character, so [(] as the first character of
    a text is put at line 1, column 2; and as the first character of the
    second line it is put at column 3, the line feed before it at line 2. *)
Theorem Scan_positions_are_shifted :
  positions (Scanner.Scan (runes text_paren)) =
    Some [(OpenParen, 1, 2); (EOF, 1, 2)] /\
  positions (Scanner.Scan (runes text_paren_line2)) =
    Some [(LineBreak, 2, 2); (OpenParen, 2, 3); (EOF, 2, 3)].
Proof. split; vm_compute; reflexivity. Qed.

(** ** The parser *)

(** C1, evaluated on the code: a field of type [map<string,string>] does not
    parse. [parseMapType] goes to the key without consuming the [<] that
    [parseArrayType] consumes for an array, so [parseMapKey] finds [<] where
    it wants an identifier and answers "unexpected token". The array type
    next to it parses, and so does a map written without its [<]. *)
Theorem Parse_map_type_is_rejected :
  parseErrorAt (ScanParse 100 (text_field "map<string,string>")) =
    Some (OpenAngled, "unexpected token") /\
  typeOfField (ScanParse 100 (text_field "array<string>")) =
    Some (Array (Primitive String)) /\
  typeOfField (ScanParse 100 (text_field "map string,string>")) =
    Some (Map String (Primitive String)).
Proof. repeat split; vm_compute; reflexivity. Qed.

(** C6, evaluated on the code: an annotation written [@a(x, y)] does not
    give the field an annotation [a] with the values [x] and [y]. The scanner
    reads an annotation name up to the next space, so the name comes out as
    [a(x,] and the parse fails at what follows; [@a(x)] parses, to an
    annotation named [a(x)] without values. With a space before the
    parenthesis the parser does see the values, but it refuses the first
    comma with "expected value", and for one value it keeps the parenthesis
    in the run. *)
Theorem Parse_annotation_values_are_lost :
  parseErrorAt (ScanParse 100 (text_annotated "@a(x, y)")) =
    Some (CloseParen, "unexpected token") /\
  annotationsOfField (ScanParse 100 (text_annotated "@a(x)")) =
    Some [("a(x)", [])] /\
  parseErrorAt (ScanParse 100 (text_annotated "@a (x, y)")) =
    Some (Comma, "expected value") /\
  annotationsOfField (ScanParse 100 (text_annotated "@a (x)")) =
    Some [("a", ["( x"])].
Proof. repeat split; vm_compute; reflexivity. Qed.

(** A view taken of a slice shows what is appended after the slice is cut
    back with [[:0]]: the append writes the first cell of the array the view
    looks at. This holds whatever capacities the runtime hands out. *)
Lemma append_after_reslice0_is_seen `{GoRuntime} (h : list (list string))
    (x y : string) :
  let (h1, s1) := append h nil_slice x in
  let (h2, s2) := append h1 (reslice0 s1) y in
  read h1 s1 = [x] /\ read h2 s1 = [y].
Proof.
  unfold append, read, reslice0, nil_slice; simpl.
  set (c := Nat.max (growcap 0 1) 1).
  assert (Hc : (0 <? c)%nat = true) by (apply Nat.ltb_lt; lia).
  rewrite Hc. split.
  - rewrite lookup_app_r, Nat.sub_diag by lia. reflexivity.
  - rewrite list_lookup_alter_eq, lookup_app_r, Nat.sub_diag by lia.
    reflexivity.
Qed.

(** C8, evaluated on the code: a node changes after it is emitted. Parsing
    [text_two_messages], the message [M] enters the tree with the comment
    [A]; as [run] goes on, the same node shows the comment [B] of the next
    message. [flushMeta] cuts [p.comments] back with [[:0]] and keeps its
    array, the array [M.Comments] still looks at, and the next comment is
    appended into it. Annotations go the same way: the message written
    [@x message M] ends up with the annotation [y] of its field. *)
Theorem emitted_comments_are_overwritten :
  annotationNamesOfMessage (ScanParse 100 text_annotated_message)
    = Some ["y"]
  /\ exists p1 p2 : parser,
    first_declaration 100 (parser.newParser tokens_two_messages) = (Ok tt, p1)
    /\ parser.run_loop 100 100 p1 = (Ok tt, p2)
    /\ parser.run 100 (parser.newParser tokens_two_messages)
       = (Ok (parser.file p2), p2)
    /\ is_Some (messageNamed "M" (parser.file p1))
    /\ messageNamed "M" (parser.file p2) = messageNamed "M" (parser.file p1)
    /\ commentsOfMessage "M" p1 = Some ["A"]
    /\ commentsOfMessage "M" p2 = Some ["B"].
Proof.
  split; [vm_compute; reflexivity|].
  eexists. eexists.
  split; [vm_compute; reflexivity|].
  split; [vm_compute; reflexivity|].
  split; [vm_compute; reflexivity|].
  split; [vm_compute; eexists; reflexivity|].
  repeat split; vm_compute; reflexivity.
Qed.

(** ** The file-set resolver *)

(** C4, evaluated on the code: loading a path that is already loaded is not
    a no-op. [findAndLoad] answers a nil file for it, and [Load] reads
    [file.Package] through that nil pointer: the second [Load] of
    [/w/c.yarp] panics, after it has entered the empty path in
    [loadedFiles]. An import of a file already loaded ends the same way, in
    [processImports]: [top] imports [left] and [base], [left] imports
    [base], and the load of [top] panics when it comes to [base] again. *)
Theorem Load_of_a_loaded_path_panics :
  (exists f1 f2 : FileSet,
      load "/w/c.yarp" FileSet.NewFileSet = (Ok tt, f1)
      /\ load "/w/c.yarp" f1 = (Panicked NilPointerDereference, f2)
      /\ FileSet.isLoaded EmptyString f1 = false
      /\ FileSet.isLoaded EmptyString f2 = true)
  /\ fst (load "/w/top.yarp" FileSet.NewFileSet)
     = Panicked NilPointerDereference.
Proof.
  split; [|vm_compute; reflexivity].
  eexists. eexists.
  split; [vm_compute; reflexivity|].
  repeat split; vm_compute; reflexivity.
Qed.

(** *** What a failed load leaves behind *)

#[local] Instance grows_refl : Reflexive grows.
Proof. intros f. repeat split; reflexivity. Qed.

#[local] Instance grows_trans : Transitive grows.
Proof.
  intros f g h (M1 & S1 & I1) (M2 & S2 & I2).
  repeat split; etrans; eassumption.
Qed.

Lemma keeps_ret {A} (a : A) : keeps (ret a).
Proof. intros f. reflexivity. Qed.

Lemma keeps_fail {A} (e : error) : keeps (fail (A := A) e).
Proof. intros f. reflexivity. Qed.

Lemma keeps_throw {A} (x : panic) : keeps (throw (A := A) x).
Proof. intros f. reflexivity. Qed.

Lemma keeps_out_of_fuel {A} : keeps (out_of_fuel (A := A)).
Proof. intros f. reflexivity. Qed.

Lemma keeps_get : keeps get.
Proof. intros f. reflexivity. Qed.

Lemma keeps_modify (g : FileSet -> FileSet) :
  (forall f, grows f (g f)) -> keeps (modify g).
Proof. intros Hg f. apply Hg. Qed.

Lemma keeps_bind {A B} (c : FileSet.L A) (k : A -> FileSet.L B) :
  keeps c -> (forall a, keeps (k a)) -> keeps (bind c k).
Proof.
  intros Hc Hk f. unfold bind. specialize (Hc f).
  destruct (c f) as [[a | e | x | ] f1]; simpl in *; try assumption.
  etrans; [exact Hc | apply Hk].
Qed.

(** A step that looks at the set before it goes on. *)
Lemma keeps_bind_get {B} (k : FileSet -> FileSet.L B) :
  (forall f, grows f (snd (k f f))) -> keeps (bind get k).
Proof. intros Hk f. apply Hk. Qed.

Lemma keeps_deref (file : option File) : keeps (FileSet.deref file).
Proof. destruct file; [apply keeps_ret | apply keeps_throw]. Qed.

Lemma keeps_markLoaded (path : string) : keeps (FileSet.markLoaded path).
Proof.
  apply keeps_bind_get. intros f.
  destruct (FileSet.loadedFiles f); simpl; repeat split; reflexivity.
Qed.

Lemma keeps_registerMessage (file : File) (msg : Message) :
  keeps (FileSet.registerMessage file msg).
Proof.
  unfold FileSet.registerMessage. apply keeps_bind.
  - apply keeps_modify. intros f.
    destruct (FileSet.messages f) eqn:E; [reflexivity|].
    repeat split; simpl; try reflexivity. rewrite E. reflexivity.
  - intros _. apply keeps_bind_get. intros f.
    case_bool_decide as Hn; [reflexivity|].
    repeat split; simpl; try reflexivity.
    apply insert_subseteq.
    destruct (default ∅ (FileSet.messages f) !! _) eqn:E; [|reflexivity].
    exfalso. apply Hn. eexists. reflexivity.
Qed.

Lemma grows_add_Message (m : Message) (f : FileSet) :
  grows f (FileSet.set_Messages (FileSet.Messages f ++ [m]) f).
Proof. repeat split; simpl; try reflexivity. apply prefix_app_r. reflexivity. Qed.

Section ResolverKeeps.
Context `{UnicodeTables} `{GoRuntime} `{FilePath}.
Variable host : Host.
Variable parseFuel : nat.

Lemma keeps_addServices (finalPath : string) (file : File) (ns : list string) :
  keeps (FileSet.addServices finalPath file ns).
Proof.
  induction ns as [|n ns IH]; simpl; [apply keeps_ret|].
  destruct (File.ServiceByName n file) as [s|]; [|apply keeps_fail].
  apply keeps_bind.
  - apply keeps_modify. intros f.
    destruct (FileSet.knownServices f); repeat split; reflexivity.
  - intros _. apply keeps_bind_get. intros f.
    case_bool_decide; [reflexivity|].
    apply keeps_bind; [|intros _; exact IH].
    apply keeps_modify. intros g.
    repeat split; simpl; try reflexivity. apply prefix_app_r. reflexivity.
Qed.

Lemma keeps_addMessages (finalPath : string) (file : File) (ns : list string) :
  keeps (FileSet.addMessages finalPath file ns).
Proof.
  induction ns as [|n ns IH]; simpl; [apply keeps_ret|].
  destruct (File.MessageByName n file) as [m|]; [|apply keeps_fail].
  apply keeps_bind; [apply keeps_modify, grows_add_Message|].
  intros _. apply keeps_bind; [apply keeps_registerMessage|].
  intros _. exact IH.
Qed.

Lemma keeps_addImportedMessages (finalPath : string) (imported : File)
    (ns : list string) :
  keeps (FileSet.addImportedMessages finalPath imported ns).
Proof.
  induction ns as [|n ns IH]; simpl; [apply keeps_ret|].
  destruct (File.MessageByName n imported) as [m|]; [|apply keeps_fail].
  apply keeps_bind; [apply keeps_registerMessage|].
  intros _. apply keeps_bind_get. intros f.
  apply keeps_bind; [|intros _; exact IH].
  destruct (String.eqb _ _); [|apply keeps_ret].
  apply keeps_modify, grows_add_Message.
Qed.

Lemma keeps_processImport
    (rec : string -> option File -> FileSet.L unit) (path i : string) :
  (forall q file, keeps (rec q file)) ->
  keeps (FileSet.processImport host parseFuel rec path i).
Proof.
  intros Hrec f. unfold FileSet.processImport.
  destruct (Abs host _) as [target | e | x | ]; try reflexivity.
  destruct (FileSet.findAndLoad host parseFuel target f)
    as [[finalPath imported] | e | x | ]; try reflexivity.
  - revert f. apply keeps_bind; [apply keeps_markLoaded|].
    intros _. apply keeps_bind; [apply Hrec|].
    intros _. apply keeps_bind; [apply keeps_deref|].
    intros file. apply keeps_bind; [apply keeps_addImportedMessages|].
    intros _. apply keeps_bind_get. intros f.
    destruct (String.eqb _ _); [apply keeps_addServices | apply keeps_ret].
  - destruct e; reflexivity.
Qed.

Lemma keeps_forImports (body : string -> FileSet.L unit) (l : list string) :
  (forall i, keeps (body i)) -> keeps (FileSet.forImports body l).
Proof.
  intros Hbody. induction l as [|i l IH]; simpl; [apply keeps_ret|].
  apply keeps_bind; [apply Hbody | intros _; exact IH].
Qed.

Lemma keeps_processImports (depth : nat) (path : string) (file : option File) :
  keeps (FileSet.processImports host parseFuel depth path file).
Proof.
  revert path file.
  induction depth as [|depth IH]; intros path file; simpl;
    [apply keeps_out_of_fuel|].
  apply keeps_bind; [apply keeps_deref|].
  intros v. apply keeps_forImports.
  intros i. apply keeps_processImport. exact IH.
Qed.

(** Whatever way [Load] ends, the set it leaves holds all the set held
    before. *)
Lemma keeps_Load (depth : nat) (path : string) :
  keeps (FileSet.Load host parseFuel depth path).
Proof.
  intros f. unfold FileSet.Load.
  destruct (FileSet.findAndLoad host parseFuel path f)
    as [[finalPath file] | e | x | ]; try reflexivity.
  revert f. apply keeps_bind; [apply keeps_markLoaded|].
  intros _. apply keeps_bind_get. intros f.
  apply keeps_bind.
  { destruct (String.eqb _ _).
    - apply keeps_bind; [apply keeps_deref|].
      intros v. apply keeps_modify. intros g. repeat split; reflexivity.
    - apply keeps_bind; [apply keeps_deref|].
      intros v. destruct (negb _); [apply keeps_fail | apply keeps_ret]. }
  intros _. apply keeps_bind; [apply keeps_processImports|].
  intros _. apply keeps_bind; [apply keeps_deref|].
  intros v. apply keeps_bind; [apply keeps_addMessages|].
  intros _. apply keeps_addServices.
Qed.

End ResolverKeeps.


(** *** One package per set *)


(** ** Lookup of an annotation by name *)

Module FindByNameFacts.
Import AnnotationCollection.

(** The loop answers the address of a variable, which holds the first
    element of that name; the heap is as it was. *)
Lemma range_loop_finds (name : string) (l : list AnnotationValue)
    (st st' : Store) (p : pointer) :
  range_loop name l st = (Some p, st') ->
  exists (n : nat) (v : AnnotationValue),
    p = Var n /\ vars st' !! n = Some v /\ firstNamed name l = Some v
    /\ heap st' = heap st.
Proof.
  revert st. induction l as [|e l IH]; intros st Hl; simpl in Hl;
    [discriminate|].
  unfold firstNamed. rewrite filter_cons.
  destruct (String.eqb (AnnotationValue.Name e) name) eqn:E.
  - apply String.eqb_eq in E. injection Hl as <- <-.
    exists (length (vars st)), e. simpl.
    rewrite decide_True by exact E.
    repeat split. rewrite lookup_app_r, Nat.sub_diag by lia. reflexivity.
  - apply String.eqb_neq in E. rewrite decide_False by exact E.
    apply IH in Hl as (n & v & -> & Hv & Hf & Hh).
    exists n, v. repeat split; assumption.
Qed.

(** A field assignment through the address of a variable leaves the heap
    alone. *)
Lemma mutate_Var_keeps_heap (n : nat) (m : mutation) (st st' : Store) :
  assignsField m = true ->
  mutate (Var n) m st = Some st' -> heap st' = heap st.
Proof.
  intros Hm Hmut. unfold mutate in Hmut.
  destruct (load (Var n) st) as [v|]; [|discriminate]. simpl in Hmut.
  destruct m; try discriminate; simpl in Hmut;
    destruct (n <? length (vars st))%nat; try discriminate;
    injection Hmut as <-; reflexivity.
Qed.

(** The same assignment through the address of a cell of the collection
    would show in the collection, so the theorem below does rest on which
    address [FindByName] gives out. *)
Lemma mutate_Elem_is_seen :
  (contents one_annotation <$>
     mutate (Elem 0 0) (SetName "b") store_one_annotation)
  = Some [(zeroOffset, "b", ["x"])].
Proof. vm_compute. reflexivity. Qed.

End FindByNameFacts.

(** C10, as amended: [FindByName] answers the address of a copy of the
    first annotation of that name, not the address of a cell of the
    collection, and it leaves the collection as it is; assigning to a field
    of the copy ([Offset], [Name] or [Value]) through that address changes
    nothing a reader of the collection sees. *)
Theorem FindByName_returns_a_copy (a : slice) (name : string)
    (st st' : AnnotationCollection.Store) (p : AnnotationCollection.pointer) :
  AnnotationCollection.FindByName a name st = (Some p, st') ->
  (exists v,
      AnnotationCollection.load p st' = Some v /\
      firstNamed name (read (anns (AnnotationCollection.heap st)) a) = Some v)
  /\ AnnotationCollection.contents a st' = AnnotationCollection.contents a st
  /\ forall m st'',
       AnnotationCollection.assignsField m = true ->
       AnnotationCollection.mutate p m st' = Some st'' ->
       AnnotationCollection.contents a st''
       = AnnotationCollection.contents a st'.
Proof.
  intros HF. unfold AnnotationCollection.FindByName in HF.
  apply FindByNameFacts.range_loop_finds in HF
    as (n & v & -> & Hv & Hf & Hh).
  split; [exists v; split; assumption|].
  split.
  - unfold AnnotationCollection.contents. rewrite Hh. reflexivity.
  - intros m st'' Hm Hmut.
    apply FindByNameFacts.mutate_Var_keeps_heap in Hmut; [|exact Hm].
    unfold AnnotationCollection.contents. rewrite Hmut. reflexivity.
Qed.

(** C10, witness: the annotation [a] of a collection of one, renamed
    through the pointer. *)
Lemma FindByName_returns_a_copy_witness :
  AnnotationCollection.FindByName one_annotation "a" store_one_annotation
    = (Some (AnnotationCollection.Var 0),
       snd (AnnotationCollection.FindByName one_annotation "a"
              store_one_annotation))
  /\ forall st'',
       AnnotationCollection.mutate (AnnotationCollection.Var 0)
         (AnnotationCollection.SetName "b")
         (snd (AnnotationCollection.FindByName one_annotation "a"
                 store_one_annotation)) = Some st'' ->
       AnnotationCollection.contents one_annotation st''
       = AnnotationCollection.contents one_annotation
           (snd (AnnotationCollection.FindByName one_annotation "a"
                   store_one_annotation)).
Proof.
  assert (HF : AnnotationCollection.FindByName one_annotation "a"
                 store_one_annotation
               = (Some (AnnotationCollection.Var 0),
                  snd (AnnotationCollection.FindByName one_annotation "a"
                         store_one_annotation)))
    by (vm_compute; reflexivity).
  split; [exact HF|].
  intros st''.
  apply (FindByName_returns_a_copy one_annotation "a" store_one_annotation
           _ _ HF).
  reflexivity.
Defined.

(** C10, as stated, fails: the copy is shallow. Its [Value] is a view of the
    array the [Value] of the element views, so a write of [p.Value[0]]
    through the pointer [FindByName] answered is a write into the
    collection: the value [x] of the annotation [a] reads [y] afterwards. *)
Lemma FindByName_copy_shares_Value :
  exists (p : AnnotationCollection.pointer)
         (st1 st2 : AnnotationCollection.Store),
    AnnotationCollection.FindByName one_annotation "a" store_one_annotation
      = (Some p, st1)
    /\ AnnotationCollection.mutate p (AnnotationCollection.SetValueAt 0 "y")
         st1 = Some st2
    /\ AnnotationCollection.contents one_annotation st1
       = [(zeroOffset, "a", ["x"])]
    /\ AnnotationCollection.contents one_annotation st2
       = [(zeroOffset, "a", ["y"])].
Proof.
  eexists. eexists. eexists.
  split; [vm_compute; reflexivity|].
  split; [vm_compute; reflexivity|].
  split; vm_compute; reflexivity.
Qed.

(** ** The defects, for every input that meets them *)

Section ParserFacts.
Context `{GoRuntime} `{FilePath}.

(** Whenever the token after [map] is not an identifier, and [<] is not
    one, [parseType] answers the parse error of [parseMapKey] at that
    token. *)
Lemma parseType_map_stops_at_angle (fuel : nat) (p : parser) (t1 t2 : Token) :
  tokenList.peek (parser.tokens p) = Ok t1 ->
  Token.Type_ t1 = Identifier ->
  Token.Value t1 = "map" ->
  tokenList.peek (snd (tokenList.advance (parser.tokens p))) = Ok t2 ->
  Token.Type_ t2 <> Identifier ->
  fst (parser.parseType (S fuel) p)
  = Err (EParse {| ParseError.Token := t2;
                   ParseError.Message := "unexpected token" |}).
Proof.
  intros Hp1 Hty Hval Hp2 Hnid.
  assert (Hadv : tokenList.advance (parser.tokens p)
                 = (Ok t1, snd (tokenList.advance (parser.tokens p)))).
  { unfold tokenList.advance. rewrite Hp1. reflexivity. }
  cbn [parser.parseType].
  unfold bind at 1. unfold parser.peekIs at 1. unfold bind at 1.
  unfold parser.peek at 1. rewrite Hp1. cbn [ret].
  unfold Token.is_. rewrite Hty. rewrite bool_decide_eq_true_2 by reflexivity.
  cbn [negb].
  unfold bind at 1. unfold parser.advance at 1. rewrite Hadv.
  rewrite Hval. cbn [stringToPrimitive String.eqb Ascii.eqb Bool.eqb].
  unfold parser.parseMapType, parser.parseMapKey.
  unfold bind at 1. unfold bind at 1. unfold parser.peekIs at 1.
  unfold bind at 1. unfold parser.peek at 1.
  cbn [parser.tokens parser.set_tokens]. rewrite Hp2. cbn [ret].
  unfold Token.is_. rewrite bool_decide_eq_false_2 by exact Hnid. cbn [negb].
  unfold parser.error, tokenList.error.
  cbn [parser.tokens parser.set_tokens fst]. rewrite Hp2. reflexivity.
Qed.

End ParserFacts.

Section ResolverFacts.
Context `{UnicodeTables} `{GoRuntime} `{FilePath}.
Variable host : Host.
Variable parseFuel : nat.

(** Whenever the absolute form of the path is already in [loadedFiles],
    [Load] panics on the nil file [findAndLoad] answers. *)
Lemma Load_loaded_panics (depth : nat) (path s : string) (f : FileSet) :
  Abs host path = Ok s ->
  FileSet.isLoaded s f = true ->
  fst (FileSet.Load host parseFuel depth path f)
  = Panicked NilPointerDereference.
Proof.
  intros Habs Hl.
  unfold FileSet.Load, FileSet.findAndLoad. rewrite Habs, Hl.
  assert (exists m, FileSet.loadedFiles f = Some m) as [m Hm].
  { unfold FileSet.isLoaded in Hl.
    destruct (FileSet.loadedFiles f) as [m|]; [eauto|].
    simpl in Hl. rewrite lookup_empty in Hl.
    apply bool_decide_eq_true_1 in Hl. destruct Hl; discriminate. }
  unfold bind at 1. unfold FileSet.markLoaded at 1.
  unfold bind at 1. unfold get at 1. rewrite Hm. unfold put.
  unfold bind at 1. unfold bind at 1. unfold get at 1.
  destruct (String.eqb _ _); reflexivity.
Qed.

(** And [processImports] panics on it, for an import already loaded. *)
Lemma processImport_loaded_panics (depth : nat) (path i target : string)
    (f : FileSet) :
  Abs host (Join (Dir path) i) = Ok target ->
  Abs host target = Ok target ->
  FileSet.isLoaded target f = true ->
  fst (FileSet.processImport host parseFuel
         (FileSet.processImports host parseFuel depth) path i f)
  = match depth with
    | O => OutOfFuel
    | S _ => Panicked NilPointerDereference
    end.
Proof.
  intros Ht Habs Hl.
  unfold FileSet.processImport, FileSet.findAndLoad. rewrite Ht, Habs, Hl.
  assert (exists m, FileSet.loadedFiles f = Some m) as [m Hm].
  { unfold FileSet.isLoaded in Hl.
    destruct (FileSet.loadedFiles f) as [m|]; [eauto|].
    simpl in Hl. rewrite lookup_empty in Hl.
    apply bool_decide_eq_true_1 in Hl. destruct Hl; discriminate. }
  unfold bind at 1. unfold FileSet.markLoaded at 1.
  unfold bind at 1. unfold get at 1. rewrite Hm. unfold put.
  unfold bind at 1. destruct depth; reflexivity.
Qed.

End ResolverFacts.

(** *** Running a sequence *)

Lemma bind_get_run {St E B} (k : St -> M St E B) (s : St) :
  bind get k s = k s s.
Proof. reflexivity. Qed.

Lemma bind_modify_run {St E B} (g : St -> St) (k : unit -> M St E B) (s : St) :
  bind (modify g) k s = k tt (g s).
Proof. reflexivity. Qed.

Lemma bind_run_Ok {St E A B} (c : M St E A) (k : A -> M St E B)
    (s s1 : St) (a : A) :
  c s = (Ok a, s1) -> bind c k s = k a s1.
Proof. intros Hc. unfold bind. rewrite Hc. reflexivity. Qed.

Lemma bind_run_Panicked {St E A B} (c : M St E A) (k : A -> M St E B)
    (s : St) (x : panic) :
  fst (c s) = Panicked x -> fst (bind c k s) = Panicked x.
Proof.
  unfold bind. destruct (c s) as [o s1]. simpl. intros ->. reflexivity.
Qed.

(** *** The scanner comes to an end *)

Section ScannerFacts.
Context `{UnicodeTables}.

Lemma later_refl (s : Scanner.Scanner) : later s s.
Proof. split; [reflexivity | lia]. Qed.

Lemma later_trans (s1 s2 s3 : Scanner.Scanner) :
  later s1 s2 -> later s2 s3 -> later s1 s3.
Proof. intros [D1 C1] [D2 C2]. split; [congruence | lia]. Qed.

Lemma room_later (n : nat) (s s' : Scanner.Scanner) :
  room n s -> later s s' -> room n s'.
Proof. unfold room. intros Hr [D C]. rewrite D. lia. Qed.

Lemma runs_ret {A} (n : nat) (a : A) : runs n (ret a).
Proof. intros s _. split; [discriminate | apply later_refl]. Qed.

Lemma runs_fail {A} (n : nat) (e : SyntaxError) : runs n (fail (A := A) e).
Proof. intros s _. split; [discriminate | apply later_refl]. Qed.

Lemma runs_get (n : nat) : runs n get.
Proof. intros s _. split; [discriminate | apply later_refl]. Qed.

Lemma runs_modify (n : nat) (g : Scanner.Scanner -> Scanner.Scanner) :
  (forall s, later s (g s)) -> runs n (modify g).
Proof. intros Hg s _. split; [discriminate | apply Hg]. Qed.

Lemma runs_bind {A B} (n : nat) (c : Scanner.ScanM A)
    (k : A -> Scanner.ScanM B) :
  runs n c -> (forall a, runs n (k a)) -> runs n (bind c k).
Proof.
  intros Hc Hk s Hr. destruct (Hc s Hr) as [Hf Hl]. unfold bind.
  destruct (c s) as [[a | e | x | ] s1]; simpl in *.
  - destruct (Hk a s1 (room_later _ _ _ Hr Hl)) as [Hf' Hl'].
    split; [exact Hf' | exact (later_trans _ _ _ Hl Hl')].
  - split; [discriminate | exact Hl].
  - split; [discriminate | exact Hl].
  - contradiction.
Qed.

Lemma advance_Ok (s s' : Scanner.Scanner) (r : rune) :
  Scanner.advance s = (Ok r, s') ->
  Scanner.data s' = Scanner.data s /\
  Scanner.current s' = S (Scanner.current s) /\
  (Scanner.current s < length (Scanner.data s))%nat.
Proof.
  unfold Scanner.advance.
  destruct (nth_error (Scanner.data s) (Scanner.current s)) eqn:E;
    [|discriminate].
  intros [= <- <-]. repeat split.
  apply nth_error_Some. congruence.
Qed.

Lemma runs_advance (n : nat) : runs n Scanner.advance.
Proof.
  intros s _. unfold Scanner.advance.
  destruct (nth_error (Scanner.data s) (Scanner.current s)); simpl.
  - split; [discriminate | split; simpl; [reflexivity | lia]].
  - split; [discriminate | apply later_refl].
Qed.

(** One character consumed, then a step that is one shorter. *)
Lemma runs_advance_then {B} (n : nat) (k : Scanner.ScanM B) :
  runs n k -> runs (S n) (Scanner.advance ;;; k).
Proof.
  intros Hk s Hr. unfold bind.
  destruct (Scanner.advance s) as [[r | e | x | ] s1] eqn:E; simpl.
  - apply advance_Ok in E as (D & C & L).
    assert (Hl : later s s1) by (split; [exact D | lia]).
    assert (Hr1 : room n s1) by (unfold room in *; rewrite D, C; lia).
    destruct (Hk s1 Hr1) as [Hf Hl'].
    split; [exact Hf | exact (later_trans _ _ _ Hl Hl')].
  - pose proof (runs_advance (S n) s Hr) as [_ Hl]. rewrite E in Hl.
    split; [discriminate | exact Hl].
  - pose proof (runs_advance (S n) s Hr) as [_ Hl]. rewrite E in Hl.
    split; [discriminate | exact Hl].
  - pose proof (runs_advance (S n) s Hr) as [Hf _]. rewrite E in Hf.
    contradiction.
Qed.

Lemma runs_pos (n : nat) : runs n Scanner.pos.
Proof.
  intros s _. unfold Scanner.pos.
  destruct (Scanner.pos_loop _ _ _ _ _); split; try discriminate;
    apply later_refl.
Qed.

Lemma runs_error {A} (n : nat) (msg : string) :
  runs n (Scanner.error (A := A) msg).
Proof. apply runs_bind; [apply runs_pos | intros lc; apply runs_fail]. Qed.

Lemma runs_appendToken (n : nat) (k : Element) (v : string) (lc : Z * Z) :
  runs n (Scanner.appendToken k v lc).
Proof. apply runs_modify. intros s. split; simpl; [reflexivity | lia]. Qed.

Lemma runs_pushToken (n : nat) (k : Element) (v : string) :
  runs n (Scanner.pushToken k v).
Proof.
  apply runs_bind; [apply runs_pos | intros lc; apply runs_appendToken].
Qed.

Lemma runs_sliceData (n lo hi : nat) : runs n (Scanner.sliceData lo hi).
Proof.
  intros s _. unfold Scanner.sliceData.
  destruct (_ && _); split; try discriminate; apply later_refl.
Qed.

(** The four loops that advance while a test on the scanner holds. *)
Lemma runs_while (cond : Scanner.Scanner -> bool)
    (loop : nat -> Scanner.ScanM unit) :
  loop O = out_of_fuel ->
  (forall fuel,
     loop (S fuel)
     = (s <- get ;;
        if cond s then (Scanner.advance ;;; loop fuel) else ret tt)) ->
  forall fuel, runs fuel (loop fuel).
Proof.
  intros H0 HS fuel. induction fuel as [|fuel IH].
  - intros s Hr. unfold room in Hr. lia.
  - rewrite HS. apply runs_bind; [apply runs_get | intros s].
    destruct (cond s); [apply runs_advance_then, IH | apply runs_ret].
Qed.

Lemma runs_number_loop (fuel : nat) : runs fuel (Scanner.number_loop fuel).
Proof.
  apply (runs_while (fun s => IsDigit (Scanner.peek s))); [reflexivity|].
  intros; reflexivity.
Qed.

Lemma runs_identifier_loop (fuel : nat) :
  runs fuel (Scanner.identifier_loop fuel).
Proof.
  apply (runs_while (fun s => Scanner.isLetterOrDigit (Scanner.peek s)));
    [reflexivity|].
  intros; reflexivity.
Qed.

Lemma runs_comment_loop (fuel : nat) : runs fuel (Scanner.comment_loop fuel).
Proof.
  apply (runs_while (fun s => negb (Scanner.peek s =? ch "010")));
    [reflexivity|].
  intros; reflexivity.
Qed.

Lemma runs_annotation_loop (fuel : nat) :
  runs fuel (Scanner.annotation_loop fuel).
Proof.
  apply (runs_while (fun s => negb (Scanner.peek s =? ch " ")));
    [reflexivity|].
  intros; reflexivity.
Qed.

Lemma runs_string_loop (fuel : nat) (escaping : bool) :
  runs fuel (Scanner.string_loop fuel escaping).
Proof.
  revert escaping. induction fuel as [|fuel IH]; intros escaping.
  - intros s Hr. unfold room in Hr. lia.
  - cbn [Scanner.string_loop].
    apply runs_bind; [apply runs_get | intros s].
    destruct (Scanner.isAtEnd s); [apply runs_error|].
    destruct (Scanner.peek s =? dquote).
    { destruct (negb escaping); [apply runs_ret|].
      apply runs_advance_then, IH. }
    destruct (Scanner.peek s =? ch "\"); [apply runs_advance_then, IH|].
    destruct (Scanner.peek s =? ch "010"); [apply runs_error|].
    apply runs_advance_then, IH.
Qed.

Ltac runs_step :=
  first
    [ apply runs_ret | apply runs_fail | apply runs_get | apply runs_advance
    | apply runs_pos | apply runs_error | apply runs_appendToken
    | apply runs_pushToken | apply runs_sliceData | apply runs_number_loop
    | apply runs_identifier_loop | apply runs_comment_loop
    | apply runs_annotation_loop | apply runs_string_loop
    | match goal with
      | |- runs _ (bind _ _) => apply runs_bind; [|intros ?]
      | |- runs _ (if ?b then _ else _) => destruct b
      | |- runs _ (match ?o with Some _ => _ | None => _ end) => destruct o
      | |- runs _ (let _ := _ in _) => cbv zeta
      end ].

Ltac runs_steps := repeat runs_step.

Lemma runs_number (fuel : nat) : runs fuel (Scanner.number fuel).
Proof. unfold Scanner.number. runs_steps. Qed.

Lemma runs_identifier (fuel : nat) : runs fuel (Scanner.identifier fuel).
Proof. unfold Scanner.identifier. runs_steps. Qed.

Lemma runs_comment (fuel : nat) : runs fuel (Scanner.comment fuel).
Proof. unfold Scanner.comment. runs_steps. Qed.

Lemma runs_annotation (fuel : nat) : runs fuel (Scanner.annotation fuel).
Proof. unfold Scanner.annotation. runs_steps. Qed.

Lemma runs_string (fuel : nat) : runs fuel (Scanner.string fuel).
Proof. unfold Scanner.string. runs_steps. Qed.

Ltac runs_token_steps :=
  repeat first
    [ apply runs_number | apply runs_identifier | apply runs_comment
    | apply runs_annotation | apply runs_string | runs_step ].

Lemma runs_scanToken (fuel : nat) : runs fuel (Scanner.scanToken fuel).
Proof. unfold Scanner.scanToken. runs_token_steps. Qed.

(** A token takes at least one character. *)
Lemma scanToken_moves (fuel : nat) (s s' : Scanner.Scanner) :
  room fuel s ->
  Scanner.scanToken fuel s = (Ok tt, s') ->
  Scanner.data s' = Scanner.data s /\
  (Scanner.current s < Scanner.current s')%nat.
Proof.
  intros Hr. unfold Scanner.scanToken. unfold bind at 1.
  destruct (Scanner.advance s) as [[r | e | x | ] s1] eqn:E;
    try discriminate.
  apply advance_Ok in E as (D & C & L).
  assert (Hr1 : room fuel s1) by (unfold room in *; rewrite D, C; lia).
  match goal with
  | |- ?c s1 = _ -> _ =>
      assert (Hk : runs fuel c) by runs_token_steps
  end.
  intros Hs. destruct (Hk s1 Hr1) as [_ [D' C']]. rewrite Hs in D', C'.
  simpl in D', C'. split; [congruence | lia].
Qed.

Lemma runs_Run_loop (fuel n : nat) (s : Scanner.Scanner) :
  room fuel s -> room n s ->
  fst (Scanner.Run_loop fuel n s) <> OutOfFuel /\
  later s (snd (Scanner.Run_loop fuel n s)).
Proof.
  revert s. induction n as [|n IH]; intros s Hf Hn.
  - unfold room in Hn. lia.
  - cbn [Scanner.Run_loop]. rewrite bind_get_run.
    destruct (Scanner.isAtEnd s) eqn:Hend; cbn [negb];
      [split; [discriminate | apply later_refl]|].
    unfold Scanner.isAtEnd in Hend. apply Nat.leb_gt in Hend.
    rewrite bind_modify_run.
    set (s0 := Scanner.set_start (Scanner.current s) s).
    assert (Hl0 : later s s0) by (split; simpl; [reflexivity | lia]).
    assert (Hf0 : room fuel s0) by exact (room_later _ _ _ Hf Hl0).
    pose proof (runs_scanToken fuel s0 Hf0) as [Hne Hl1].
    destruct (Scanner.scanToken fuel s0) as [[[] | e | x | ] s1] eqn:E;
      [rewrite (bind_run_Ok _ _ _ _ _ E)
      | unfold bind; rewrite E .. ]; simpl in *.
    + apply scanToken_moves in E as [D C]; [|exact Hf0].
      assert (Hn1 : room n s1).
      { unfold room in *. rewrite D. subst s0. simpl in *. lia. }
      destruct (IH s1 (room_later _ _ _ Hf0 Hl1) Hn1) as [Hne' Hl'].
      split; [exact Hne'|].
      exact (later_trans _ _ _ Hl0 (later_trans _ _ _ Hl1 Hl')).
    + split; [discriminate | exact (later_trans _ _ _ Hl0 Hl1)].
    + split; [discriminate | exact (later_trans _ _ _ Hl0 Hl1)].
    + contradiction.
Qed.

(** Whatever the text and whatever the tables, [Scan] ends: it returns
    tokens, returns a SyntaxError, or panics; the loop budget it is given is
    never what stops it. *)
Lemma Scan_terminates (buf : list rune) : Scanner.Scan buf <> OutOfFuel.
Proof.
  unfold Scanner.Scan, Scanner.Run.
  set (s := Scanner.NewScanner buf).
  assert (Hr : room (S (length buf)) s) by (unfold room; simpl; lia).
  pose proof (runs_Run_loop _ _ s Hr Hr) as [Hne Hl].
  destruct (Scanner.Run_loop _ _ s) as [[[] | e | x | ] s1] eqn:E1;
    [rewrite (bind_run_Ok _ _ _ _ _ E1)
    | unfold bind; rewrite E1 .. ]; simpl in *;
    try discriminate; [|contradiction].
  pose proof (runs_pushToken (S (length buf)) EOF EmptyString s1
                (room_later _ _ _ Hr Hl)) as [Hne' _].
  destruct (Scanner.pushToken EOF EmptyString s1) as [[[] | e | x | ] s2]
    eqn:E2;
    [rewrite (bind_run_Ok _ _ _ _ _ E2)
    | unfold bind; rewrite E2 .. ]; simpl in *;
    try discriminate. contradiction.
Qed.

(** *** The scanner runs off the end *)

(** A loop that advances while a test on the next character holds, a test
    the character 0 passes, panics when all that is left of the text passes
    the test: at the end [peek] answers 0 and [advance] has nothing to
    read. *)
Lemma while_runs_off (cond : rune -> bool)
    (loop : nat -> Scanner.ScanM unit) :
  (forall fuel,
     loop (S fuel)
     = (s <- get ;;
        if cond (Scanner.peek s) then (Scanner.advance ;;; loop fuel)
        else ret tt)) ->
  cond 0 = true ->
  forall fuel s,
    room fuel s ->
    (forall i r, (Scanner.current s <= i)%nat ->
                 nth_error (Scanner.data s) i = Some r -> cond r = true) ->
    fst (loop fuel s) = Panicked IndexOutOfRange.
Proof.
  intros HS H0 fuel. induction fuel as [|fuel IH]; intros s Hr Hall.
  - unfold room in Hr. lia.
  - rewrite HS, bind_get_run.
    unfold Scanner.peek, Scanner.isAtEnd.
    destruct (nth_error (Scanner.data s) (Scanner.current s)) as [r|] eqn:E.
    + assert (Hlt : (Scanner.current s < length (Scanner.data s))%nat)
        by (apply nth_error_Some; congruence).
      apply Nat.leb_gt in Hlt as Hlt'. rewrite Hlt'.
      erewrite nth_error_nth by exact E.
      rewrite (Hall _ r (Nat.le_refl _) E).
      unfold bind at 1. unfold Scanner.advance. rewrite E.
      apply IH.
      * unfold room in *. simpl. lia.
      * intros i r' Hi. simpl in *. apply Hall. lia.
    + apply nth_error_None in E. apply Nat.leb_le in E as E'. rewrite E', H0.
      unfold bind, Scanner.advance. apply nth_error_None in E. rewrite E.
      reflexivity.
Qed.

Lemma pos_loop_Some (d : list rune) (n i : nat) (line column : Z) :
  (i + n <= length d)%nat ->
  is_Some (Scanner.pos_loop d i n line column).
Proof.
  revert i line column. induction n as [|n IH]; intros i line column Hle;
    simpl; [eexists; reflexivity|].
  destruct (nth_error d i) as [r|] eqn:E.
  - destruct (r =? ch "010"); apply IH; lia.
  - apply nth_error_None in E. lia.
Qed.

Lemma pos_Ok (s : Scanner.Scanner) :
  (Scanner.current s <= length (Scanner.data s))%nat ->
  exists lc, Scanner.pos s = (Ok lc, s).
Proof.
  intros Hle. unfold Scanner.pos.
  destruct (pos_loop_Some (Scanner.data s) (Scanner.current s) 0 1 1 Hle)
    as [lc ->].
  exists lc. reflexivity.
Qed.

Lemma comment_runs_off (fuel : nat) (s : Scanner.Scanner) :
  room fuel s ->
  (Scanner.current s <= length (Scanner.data s))%nat ->
  (forall i r, (Scanner.current s <= i)%nat ->
               nth_error (Scanner.data s) i = Some r -> r <> ch "010") ->
  fst (Scanner.comment fuel s) = Panicked IndexOutOfRange.
Proof.
  intros Hr Hle Hall. unfold Scanner.comment.
  destruct (pos_Ok s Hle) as [lc Hpos].
  rewrite (bind_run_Ok _ _ _ _ _ Hpos).
  apply bind_run_Panicked.
  apply (while_runs_off (fun r => negb (r =? ch "010")) Scanner.comment_loop);
    [intros; reflexivity | reflexivity | exact Hr |].
  intros i r Hi Hnth. apply negb_true_iff, Z.eqb_neq. exact (Hall i r Hi Hnth).
Qed.

Lemma scanToken_comment (fuel : nat) (s : Scanner.Scanner) :
  nth_error (Scanner.data s) (Scanner.current s) = Some (ch "#") ->
  Scanner.scanToken fuel s
  = Scanner.comment fuel (Scanner.set_current (S (Scanner.current s)) s).
Proof.
  intros Hnth. unfold Scanner.scanToken.
  erewrite bind_run_Ok
    by (unfold Scanner.advance; rewrite Hnth; reflexivity).
  reflexivity.
Qed.

(** Every text that is one comment without a line feed makes [Scan]
    panic, whatever the tables. *)
Lemma Scan_open_comment_panics (body : list rune) :
  Forall (fun r => r <> ch "010") body ->
  Scanner.Scan (ch "#" :: body) = Panicked IndexOutOfRange.
Proof.
  intros Hbody. unfold Scanner.Scan, Scanner.Run.
  apply bind_run_Panicked.
  cbn [Scanner.Run_loop]. rewrite bind_get_run.
  change (Scanner.isAtEnd (Scanner.NewScanner (ch "#" :: body))) with false.
  cbn [negb]. rewrite bind_modify_run.
  apply bind_run_Panicked.
  rewrite scanToken_comment by reflexivity.
  apply comment_runs_off.
  - unfold room. simpl. lia.
  - simpl. lia.
  - intros i r Hi Hnth. simpl in Hi, Hnth.
    destruct i as [|i]; [lia|]. simpl in Hnth.
    apply nth_error_In, list_elem_of_In in Hnth.
    rewrite Forall_forall in Hbody. exact (Hbody _ Hnth).
Qed.

End ScannerFacts.

(** * More of the code *)

(** ** Names and their components *)

Lemma append_cons (c : ascii) (s t : string) :
  String.String c s +:+ t = String.String c (s +:+ t).
Proof. reflexivity. Qed.

Lemma append_nil_l (t : string) : EmptyString +:+ t = t.
Proof. reflexivity. Qed.

Lemma append_assoc (s t u : string) : (s +:+ t) +:+ u = s +:+ (t +:+ u).
Proof.
  induction s as [|c s IH]; [reflexivity|].
  rewrite !append_cons, IH. reflexivity.
Qed.

Lemma append_nil_r (s : string) : s +:+ EmptyString = s.
Proof.
  induction s as [|c s IH]; [reflexivity|]. rewrite append_cons, IH.
  reflexivity.
Qed.

Lemma Split_nonempty (sep : ascii) (s : string) : Split sep s <> [].
Proof.
  destruct s as [|c s]; simpl; [discriminate|].
  destruct (Ascii.eqb c sep); [discriminate|].
  destruct (Split sep s); discriminate.
Qed.

Lemma concat_cons_nonempty (sep x : string) (l : list string) :
  l <> [] -> String.concat sep (x :: l) = x +:+ sep +:+ String.concat sep l.
Proof. destruct l; [congruence | reflexivity]. Qed.

Lemma Split_Join (sep : ascii) (s : string) :
  String.concat (String.String sep EmptyString) (Split sep s) = s.
Proof.
  induction s as [|c s IH]; simpl; [reflexivity|].
  destruct (Ascii.eqb c sep) eqn:E.
  - apply Ascii.eqb_eq in E. subst c.
    rewrite concat_cons_nonempty by apply Split_nonempty.
    rewrite IH. reflexivity.
  - pose proof (Split_nonempty sep s) as Hne.
    destruct (Split sep s) as [|piece pieces]; [congruence|].
    destruct pieces as [|p ps]; simpl in *; [congruence|].
    rewrite <- IH. reflexivity.
Qed.

Lemma Split_app (sep : ascii) (a b : string) :
  Split sep (a +:+ String.String sep b) = Split sep a ++ Split sep b.
Proof.
  induction a as [|c a IH]; simpl.
  - rewrite Ascii.eqb_refl. reflexivity.
  - destruct (Ascii.eqb c sep); [rewrite IH; reflexivity|].
    rewrite IH. pose proof (Split_nonempty sep a) as Hne.
    destruct (Split sep a); [congruence | reflexivity].
Qed.

Lemma Split_without_sep (sep : ascii) (s : string) :
  ContainsRune s sep = false -> Split sep s = [s].
Proof.
  induction s as [|c s IH]; simpl; [reflexivity|].
  intros Hc. apply orb_false_iff in Hc as [Hc Hs].
  rewrite Hc, (IH Hs). reflexivity.
Qed.

Lemma Split_last_without_sep (sep : ascii) (s : string) :
  ContainsRune (List.last (Split sep s) EmptyString) sep = false.
Proof.
  induction s as [|c s IH]; [reflexivity|].
  cbn [Split]. pose proof (Split_nonempty sep s) as Hne.
  destruct (Ascii.eqb c sep) eqn:E.
  - destruct (Split sep s) as [|p ps]; [congruence | exact IH].
  - destruct (Split sep s) as [|p ps]; [congruence|].
    destruct ps as [|q qs]; [|exact IH].
    simpl in *. rewrite E, IH. reflexivity.
Qed.

Lemma Split_single (sep : ascii) (s : string) :
  length (Split sep s) = 1%nat -> ContainsRune s sep = false.
Proof.
  induction s as [|c s IH]; [reflexivity|].
  cbn [Split ContainsRune]. pose proof (Split_nonempty sep s) as Hne.
  destruct (Ascii.eqb c sep) eqn:E.
  - destruct (Split sep s); [congruence | discriminate].
  - destruct (Split sep s) as [|p ps] eqn:Es; [congruence|].
    simpl. intros Hl. apply IH. exact Hl.
Qed.

Lemma concat_removelast_last (sep : string) (l : list string) :
  (2 <= length l)%nat ->
  String.concat sep l
  = String.concat sep (removelast l) +:+ sep +:+ List.last l EmptyString.
Proof.
  induction l as [|x l IH]; simpl; [lia|].
  intros Hl. destruct l as [|y l]; [simpl in Hl; lia|].
  destruct l as [|z l]; [reflexivity|].
  assert (H2 : (2 <= length (y :: z :: l))%nat) by (simpl; lia).
  specialize (IH H2).
  change (String.concat sep (x :: y :: z :: l))
    with (x +:+ sep +:+ String.concat sep (y :: z :: l)).
  rewrite IH.
  change (removelast (x :: y :: z :: l)) with (x :: removelast (y :: z :: l)).
  change (List.last (x :: y :: z :: l) EmptyString)
    with (List.last (y :: z :: l) EmptyString).
  rewrite concat_cons_nonempty by (simpl; destruct l; discriminate).
  rewrite !append_assoc. reflexivity.
Qed.

(** What [SplitComponents] answers puts the name back together: the message
    part holds no dot, a name without a dot is all message part, and any
    other name is the package part, a dot, and the message part. *)
Theorem SplitComponents_rejoins (n : string) :
  ContainsRune (snd (SplitComponents n)) "." = false /\
  (if ContainsRune n "."
   then n = fst (SplitComponents n) +:+ "." +:+ snd (SplitComponents n)
   else SplitComponents n = (EmptyString, n)).
Proof.
  unfold SplitComponents.
  destruct (length (Split "." n) =? 1)%nat eqn:E; simpl.
  - split; [apply Split_last_without_sep|].
    apply Nat.eqb_eq in E.
    rewrite (Split_single _ _ E).
    rewrite (Split_without_sep _ _ (Split_single _ _ E)). reflexivity.
  - split; [apply Split_last_without_sep|].
    apply Nat.eqb_neq in E.
    destruct (ContainsRune n ".") eqn:Ec.
    + rewrite <- concat_removelast_last; [symmetry; apply Split_Join|].
      pose proof (Split_nonempty "." n).
      destruct (Split "." n) as [|? [|? ?]]; simpl in *; try congruence; lia.
    + rewrite (Split_without_sep _ _ Ec) in E. simpl in E. congruence.
Qed.

(** [SplitComponents] undoes the qualification of a name: from
    [package.Name], for a [Name] without a dot, it answers the package and
    the name, whatever dots the package holds. *)
Theorem SplitComponents_of_fqn (pkg name : string) :
  ContainsRune name "." = false ->
  SplitComponents (FileSet.fqn pkg name) = (pkg, name).
Proof.
  intros Hname. unfold SplitComponents, FileSet.fqn.
  change (pkg +:+ "." +:+ name) with (pkg +:+ String.String "." name).
  rewrite Split_app, (Split_without_sep _ _ Hname).
  pose proof (Split_nonempty "." pkg) as Hne.
  rewrite length_app. simpl.
  destruct (length (Split "." pkg)) as [|k] eqn:El.
  { destruct (Split "." pkg); [congruence | discriminate]. }
  replace (S k + 1 =? 1)%nat with false by (symmetry; apply Nat.eqb_neq; lia).
  rewrite removelast_last, last_last.
  rewrite <- (Split_Join "." pkg) at 2. reflexivity.
Qed.

(** The witness of [SplitComponents_of_fqn]: a package of two pieces. *)
Lemma SplitComponents_of_fqn_witness :
  SplitComponents (FileSet.fqn "io.libyarp" "User") = ("io.libyarp", "User").
Proof. apply SplitComponents_of_fqn. reflexivity. Defined.

(** ** Registering a message and finding it *)

Lemma ContainsRune_app (a b : string) (r : ascii) :
  ContainsRune (a +:+ b) r = ContainsRune a r || ContainsRune b r.
Proof.
  induction a as [|c a IH]; [reflexivity|].
  rewrite append_cons. simpl. rewrite IH, orb_assoc. reflexivity.
Qed.

Lemma fqn_has_dot (pkg name : string) :
  ContainsRune (FileSet.fqn pkg name) "." = true.
Proof.
  unfold FileSet.fqn. rewrite ContainsRune_app.
  apply orb_true_iff. right. reflexivity.
Qed.

Lemma list_ascii_of_append (a b : string) :
  list_ascii_of_string (a +:+ b)
  = list_ascii_of_string a ++ list_ascii_of_string b.
Proof.
  induction a as [|c a IH]; [reflexivity|].
  rewrite append_cons. simpl. rewrite IH. reflexivity.
Qed.

Lemma TrimSuffix_app (a b : string) : TrimSuffix (a +:+ b) b = a.
Proof.
  unfold TrimSuffix. rewrite list_ascii_of_append, length_app.
  set (la := list_ascii_of_string a). set (lb := list_ascii_of_string b).
  replace (length la + length lb - length lb)%nat with (length la) by lia.
  rewrite drop_app_length, take_app_length.
  rewrite bool_decide_eq_true_2 by reflexivity.
  replace (length lb <=? length la + length lb)%nat with true
    by (symmetry; apply Nat.leb_le; lia).
  apply string_of_list_ascii_of_string.
Qed.

(** The key [registerMessage] files a message under. *)
Lemma registerMessage_Ok (file : File) (msg : Message) (f f' : FileSet) :
  FileSet.registerMessage file msg f = (Ok tt, f') ->
  default ∅ (FileSet.messages f)
    !! FileSet.fqn (File.Package file) (Message.Name msg) = None /\
  default ∅ (FileSet.messages f')
  = <[FileSet.fqn (File.Package file) (Message.Name msg) := msg]>
      (default ∅ (FileSet.messages f)) /\
  FileSet.packageName f' = FileSet.packageName f /\
  FileSet.Messages f' = FileSet.Messages f /\
  FileSet.Services f' = FileSet.Services f.
Proof.
  unfold FileSet.registerMessage. rewrite bind_modify_run, bind_get_run.
  set (g := match FileSet.messages f with
            | Some _ => f
            | None => FileSet.set_messages (Some ∅) f
            end).
  assert (Hg : default ∅ (FileSet.messages g) = default ∅ (FileSet.messages f)
               /\ FileSet.packageName g = FileSet.packageName f
               /\ FileSet.Messages g = FileSet.Messages f
               /\ FileSet.Services g = FileSet.Services f).
  { subst g. destruct (FileSet.messages f) eqn:E; simpl; rewrite ?E; auto. }
  destruct Hg as (Hm & Hp & HM & HS).
  case_bool_decide as Hin; [discriminate|].
  intros [= <-]. simpl. rewrite <- Hm.
  repeat split; try assumption.
  destruct (default ∅ (FileSet.messages g) !! _) eqn:E; [|reflexivity].
  exfalso. apply Hin. eexists. reflexivity.
Qed.

(** A message that [registerMessage] accepts is found under its qualified
    name, and under its bare name as well when its file is of the package
    of the set; no other name changes what it resolves to. *)
Theorem registerMessage_then_FindMessage (file : File) (msg : Message)
    (f f' : FileSet) :
  FileSet.registerMessage file msg f = (Ok tt, f') ->
  FindMessage (FileSet.fqn (File.Package file) (Message.Name msg)) f'
    = Some msg /\
  (File.Package file = FileSet.packageName f ->
   ContainsRune (Message.Name msg) "." = false ->
   FindMessage (Message.Name msg) f' = Some msg) /\
  (forall pkg name,
     FileSet.fqn pkg name
       <> FileSet.fqn (File.Package file) (Message.Name msg) ->
     FindMessage (FileSet.fqn pkg name) f'
     = FindMessage (FileSet.fqn pkg name) f).
Proof.
  intros HR. apply registerMessage_Ok in HR as (Hnone & Hm & Hp & _ & _).
  unfold FindMessage. rewrite Hm, Hp. repeat split.
  - rewrite fqn_has_dot. simpl. apply lookup_insert_eq.
  - intros Hpkg Hname. rewrite Hname. simpl. rewrite <- Hpkg.
    apply lookup_insert_eq.
  - intros pkg name Hne. rewrite fqn_has_dot. simpl.
    apply lookup_insert_ne. congruence.
Qed.

(** The witness of [registerMessage_then_FindMessage]: a message [User] of
    the package [p], registered in the set that has loaded [u1.yarp]. *)
Lemma registerMessage_then_FindMessage_witness :
  FindMessage (FileSet.fqn "p" "Other")
    (snd (FileSet.registerMessage empty_file_of_p (message_named "Other")
            set_after_u1))
    = Some (message_named "Other") /\
  FindMessage "Other"
    (snd (FileSet.registerMessage empty_file_of_p (message_named "Other")
            set_after_u1))
    = Some (message_named "Other").
Proof.
  assert (HR : FileSet.registerMessage empty_file_of_p (message_named "Other")
                 set_after_u1
               = (Ok tt,
                  snd (FileSet.registerMessage empty_file_of_p
                         (message_named "Other") set_after_u1)))
    by (vm_compute; reflexivity).
  destruct (registerMessage_then_FindMessage empty_file_of_p
              (message_named "Other") set_after_u1 _ HR) as (H1 & H2 & _).
  split; [exact H1|].
  apply H2; vm_compute; reflexivity.
Defined.

(** A message whose qualified name is taken is refused with the
    duplicate-definition error, and the one that holds the name keeps it. *)
Theorem registerMessage_refuses_duplicate (file : File) (msg : Message)
    (f : FileSet) :
  is_Some (default ∅ (FileSet.messages f)
             !! FileSet.fqn (File.Package file) (Message.Name msg)) ->
  FileSet.registerMessage file msg f
  = (Err (ErrorString
            ("duplicated definition of " +:+
             FileSet.fqn (File.Package file) (Message.Name msg))), f).
Proof.
  intros [m Hm]. unfold FileSet.registerMessage.
  rewrite bind_modify_run, bind_get_run.
  destruct (FileSet.messages f) as [idx|] eqn:E.
  - simpl in *. rewrite E. simpl.
    rewrite bool_decide_eq_true_2 by (eexists; exact Hm). reflexivity.
  - simpl in Hm. rewrite lookup_empty in Hm. discriminate.
Qed.

(** The witness of [registerMessage_refuses_duplicate]: [User] once more,
    in the set that has loaded [u1.yarp]. *)
Lemma registerMessage_refuses_duplicate_witness :
  FileSet.registerMessage empty_file_of_p (message_named "User") set_after_u1
  = (Err (ErrorString
            ("duplicated definition of " +:+ FileSet.fqn "p" "User")),
     set_after_u1).
Proof.
  apply (registerMessage_refuses_duplicate empty_file_of_p
           (message_named "User") set_after_u1).
  vm_compute. eexists. reflexivity.
Defined.

(** For a message filed under [package.Name], [FromSamePackage] of that
    qualified name tells whether [package] is the package of the set; so
    a message imported from another package is not of the same package,
    however it is asked for. *)
Theorem FromSamePackage_compares_packages (pkg name : string) (m : Message)
    (f : FileSet) :
  default ∅ (FileSet.messages f) !! FileSet.fqn pkg name = Some m ->
  Message.Name m = name ->
  FromSamePackage (FileSet.fqn pkg name) f
  = String.eqb pkg (FileSet.packageName f).
Proof.
  intros Hm Hname. unfold FromSamePackage.
  rewrite fqn_has_dot. simpl. rewrite Hm, Hname.
  unfold FileSet.fqn. rewrite TrimSuffix_app. reflexivity.
Qed.

(** The witness of [FromSamePackage_compares_packages]: the message [M] of
    the package [b], in the set of the package [a] that imported it. *)
Lemma FromSamePackage_compares_packages_witness :
  default ∅ (FileSet.messages set_after_a) !! FileSet.fqn "b" "M"
    = Some indexed_b_M
  /\ FromSamePackage (FileSet.fqn "b" "M") set_after_a
     = String.eqb "b" (FileSet.packageName set_after_a).
Proof.
  assert (E : default ∅ (FileSet.messages set_after_a) !! FileSet.fqn "b" "M"
              = Some indexed_b_M) by (vm_compute; reflexivity).
  split; [exact E|].
  apply (FromSamePackage_compares_packages "b" "M" indexed_b_M set_after_a E).
  vm_compute. reflexivity.
Defined.

(** ** The declarations of a file *)

Section FileFacts.
Context `{FilePath}.

(** A message pushed to a file is found by its name, and the name counts as
    defined; it is no service. Every other name resolves as before. *)
Theorem push_Message_then_lookup (m : Message) (f : File) :
  File.MessageByName (Message.Name m) (File.push (AMessage m) f) = Some m /\
  File.ServiceByName (Message.Name m) (File.push (AMessage m) f) = None /\
  File.isDefined (Message.Name m) (File.push (AMessage m) f) = true /\
  File.DeclaredMessages (File.push (AMessage m) f)
    = File.DeclaredMessages f ++ [Message.Name m] /\
  (forall n, n <> Message.Name m ->
     File.MessageByName n (File.push (AMessage m) f) = File.MessageByName n f
     /\ File.ServiceByName n (File.push (AMessage m) f)
        = File.ServiceByName n f
     /\ File.isDefined n (File.push (AMessage m) f) = File.isDefined n f).
Proof.
  unfold File.MessageByName, File.ServiceByName, File.isDefined. simpl.
  rewrite !lookup_insert_eq.
  split; [reflexivity|]. split; [reflexivity|].
  split; [apply bool_decide_eq_true_2; eexists; reflexivity|].
  split; [reflexivity|].
  intros n Hn. rewrite !lookup_insert_ne by congruence.
  split; [reflexivity|]. split; [reflexivity|].
  destruct (File.declaredNames f); simpl; [reflexivity|].
  rewrite lookup_empty. apply bool_decide_eq_false_2.
  intros [x Hx]. discriminate.
Qed.

(** The same for a service. *)
Theorem push_Service_then_lookup (s : Service) (f : File) :
  File.ServiceByName (Service.Name s) (File.push (AService s) f) = Some s /\
  File.MessageByName (Service.Name s) (File.push (AService s) f) = None /\
  File.isDefined (Service.Name s) (File.push (AService s) f) = true /\
  File.DeclaredServices (File.push (AService s) f)
    = File.DeclaredServices f ++ [Service.Name s] /\
  (forall n, n <> Service.Name s ->
     File.MessageByName n (File.push (AService s) f) = File.MessageByName n f
     /\ File.ServiceByName n (File.push (AService s) f)
        = File.ServiceByName n f
     /\ File.isDefined n (File.push (AService s) f) = File.isDefined n f).
Proof.
  unfold File.MessageByName, File.ServiceByName, File.isDefined. simpl.
  rewrite !lookup_insert_eq.
  split; [reflexivity|]. split; [reflexivity|].
  split; [apply bool_decide_eq_true_2; eexists; reflexivity|].
  split; [reflexivity|].
  intros n Hn. rewrite !lookup_insert_ne by congruence.
  split; [reflexivity|]. split; [reflexivity|].
  destruct (File.declaredNames f); simpl; [reflexivity|].
  rewrite lookup_empty. apply bool_decide_eq_false_2.
  intros [x Hx]. discriminate.
Qed.

(** An import pushed to a file is known under every spelling that cleans to
    the same path, and under no other; what was imported before stays
    imported. *)
Theorem push_Import_then_isImported (i : Import') (path : string) (f : File) :
  File.isImported path (File.push (AnImport i) f)
  = File.isImported path f || String.eqb (Clean path) (Clean (Import'.Path i)).
Proof.
  unfold File.isImported. simpl. rewrite existsb_app. simpl.
  rewrite orb_false_r. reflexivity.
Qed.

End FileFacts.

(** ** Where a load looks for its file *)

Section LoadFacts.
Context `{UnicodeTables} `{GoRuntime} `{FilePath}.
Variable host : Host.
Variable parseFuel : nat.

(** A path that names nothing, with nothing at the path plus [.yarp]
    either, is reported as not found under the name it was asked by, and
    the set is left as it was. *)
Theorem Load_missing_file (depth : nat) (path s : string) (f : FileSet) :
  Abs host path = Ok s ->
  FileSet.isLoaded s f = false ->
  Stat host s = StatNotExist ->
  Stat host (path +:+ ".yarp") <> StatOk false ->
  FileSet.Load host parseFuel depth path f
  = (Err (Wrapped path (SourceFileNotFoundError path)), f).
Proof.
  intros Habs Hl Hs Hnext.
  unfold FileSet.Load, FileSet.findAndLoad. rewrite Habs, Hl, Hs.
  destruct (Stat host (path +:+ ".yarp")) as [[|]| |e]; try reflexivity.
  congruence.
Qed.

(** A path that names a directory, with no regular file at the path plus
    [.yarp], is reported as a directory. *)
Theorem Load_directory (depth : nat) (path s : string) (f : FileSet) :
  Abs host path = Ok s ->
  FileSet.isLoaded s f = false ->
  Stat host s = StatOk true ->
  Stat host (path +:+ ".yarp") <> StatOk false ->
  FileSet.Load host parseFuel depth path f
  = (Err (Wrapped path (SourceIsDirectoryError path)), f).
Proof.
  intros Habs Hl Hs Hnext.
  unfold FileSet.Load, FileSet.findAndLoad. rewrite Habs, Hl, Hs.
  destruct (Stat host (path +:+ ".yarp")) as [[|]| |e]; try reflexivity.
  congruence.
Qed.

(** The file that is read, and the path it is known by afterwards: a
    regular file at the path is read under the absolute form of the path;
    when there is none, or a directory, the regular file at the path plus
    [.yarp] is read, under that name as it was given. *)
Theorem findAndLoad_final_path (path s : string) (f : FileSet)
    (finalPath : string) (file : option File) :
  Abs host path = Ok s ->
  FileSet.findAndLoad host parseFuel path f = Ok (finalPath, file) ->
  FileSet.isLoaded s f = true /\ finalPath = EmptyString /\ file = None
  \/ FileSet.isLoaded s f = false /\ is_Some file /\
     (Stat host s = StatOk false /\ finalPath = s
      \/ Stat host s <> StatOk false /\
         Stat host (path +:+ ".yarp") = StatOk false /\
         finalPath = path +:+ ".yarp").
Proof.
  intros Habs. unfold FileSet.findAndLoad. rewrite Habs.
  destruct (FileSet.isLoaded s f); [intros [= <- <-]; left; auto|].
  intros HF. right. split; [reflexivity|].
  destruct (Stat host s) as [[|]| |e] eqn:Hs; try discriminate.
  - (* a directory *)
    destruct (Stat host (path +:+ ".yarp")) as [[|]| |e] eqn:Hn;
      simpl in HF; try discriminate.
    destruct (Open host (path +:+ ".yarp")) as [text|?|?|]; try discriminate.
    destruct (Scanner.Scan text) as [toks|?|?|]; try discriminate.
    destruct (Parse parseFuel toks) as [[result mem]|?|?|]; try discriminate.
    injection HF as <- <-. split; [eexists; reflexivity|].
    right. split; [discriminate | split; reflexivity].
  - (* a regular file *)
    simpl in HF.
    destruct (Open host s) as [text|?|?|]; try discriminate.
    destruct (Scanner.Scan text) as [toks|?|?|]; try discriminate.
    destruct (Parse parseFuel toks) as [[result mem]|?|?|]; try discriminate.
    injection HF as <- <-. split; [eexists; reflexivity|].
    left. split; reflexivity.
  - (* nothing there *)
    destruct (Stat host (path +:+ ".yarp")) as [[|]| |e] eqn:Hn;
      simpl in HF; try discriminate.
    destruct (Open host (path +:+ ".yarp")) as [text|?|?|]; try discriminate.
    destruct (Scanner.Scan text) as [toks|?|?|]; try discriminate.
    destruct (Parse parseFuel toks) as [[result mem]|?|?|]; try discriminate.
    injection HF as <- <-. split; [eexists; reflexivity|].
    right. split; [discriminate | split; reflexivity].
Qed.

(** An import that names nothing is reported as an import not found, with
    the importing file and the path that was looked for; a file not found
    is the only error of an import that is put in other words. *)
Theorem processImport_missing_file
    (rec : string -> option File -> FileSet.L unit)
    (path i target s : string) (f : FileSet) :
  Abs host (Join (Dir path) i) = Ok target ->
  Abs host target = Ok s ->
  FileSet.isLoaded s f = false ->
  Stat host s = StatNotExist ->
  Stat host (target +:+ ".yarp") <> StatOk false ->
  FileSet.processImport host parseFuel rec path i f
  = (Err (ImportFileNotFoundError path target), f).
Proof.
  intros Ht Habs Hl Hs Hnext.
  unfold FileSet.processImport, FileSet.findAndLoad.
  rewrite Ht, Habs, Hl, Hs.
  destruct (Stat host (target +:+ ".yarp")) as [[|]| |e]; try reflexivity.
  congruence.
Qed.

End LoadFacts.

(** The witness of [Load_missing_file]: no [zz] and no [zz.yarp] on the
    disk. *)
Lemma Load_missing_file_witness :
  FileSet.Load disk 100 10 "/w/zz" FileSet.NewFileSet
  = (Err (Wrapped "/w/zz" (SourceFileNotFoundError "/w/zz")),
     FileSet.NewFileSet).
Proof.
  refine (Load_missing_file disk 100 10 "/w/zz" "/w/zz" FileSet.NewFileSet
            _ _ _ _).
  - vm_compute. reflexivity.
  - vm_compute. reflexivity.
  - vm_compute. reflexivity.
  - vm_compute. discriminate.
Defined.

(** The witness of [Load_directory]: the directory [/w/lib] of
    [disk_with_directory]. *)
Lemma Load_directory_witness :
  FileSet.Load disk_with_directory 100 10 "/w/lib" FileSet.NewFileSet
  = (Err (Wrapped "/w/lib" (SourceIsDirectoryError "/w/lib")),
     FileSet.NewFileSet).
Proof.
  refine (Load_directory disk_with_directory 100 10 "/w/lib" "/w/lib"
            FileSet.NewFileSet _ _ _ _).
  - vm_compute. reflexivity.
  - vm_compute. reflexivity.
  - vm_compute. reflexivity.
  - vm_compute. discriminate.
Defined.

(** The witness of [findAndLoad_final_path]: [c] is read from [c.yarp] and
    known as [c.yarp]. *)
Lemma findAndLoad_final_path_witness :
  FileSet.findAndLoad disk 100 "c" FileSet.NewFileSet
    = Ok ("c" +:+ ".yarp", Some parsed_c)
  /\ (FileSet.isLoaded "/w/c" FileSet.NewFileSet = true /\
      "c" +:+ ".yarp" = EmptyString /\ Some parsed_c = None
      \/ FileSet.isLoaded "/w/c" FileSet.NewFileSet = false /\
         is_Some (Some parsed_c) /\
         (Stat disk "/w/c" = StatOk false /\ "c" +:+ ".yarp" = "/w/c"
          \/ Stat disk "/w/c" <> StatOk false /\
             Stat disk ("c" +:+ ".yarp") = StatOk false /\
             "c" +:+ ".yarp" = "c" +:+ ".yarp")).
Proof.
  assert (Ha : Abs disk "c" = Ok "/w/c") by (vm_compute; reflexivity).
  assert (Hf : FileSet.findAndLoad disk 100 "c" FileSet.NewFileSet
               = Ok ("c" +:+ ".yarp", Some parsed_c))
    by (vm_compute; reflexivity).
  split; [exact Hf|].
  exact (findAndLoad_final_path disk 100 "c" "/w/c" FileSet.NewFileSet
           ("c" +:+ ".yarp") (Some parsed_c) Ha Hf).
Defined.

(** The witness of [processImport_missing_file]: [a.yarp] asks for
    [nothing]. *)
Lemma processImport_missing_file_witness :
  FileSet.processImport disk 100
    (FileSet.processImports disk 100 10) "/w/a.yarp" "nothing"
    FileSet.NewFileSet
  = (Err (ImportFileNotFoundError "/w/a.yarp" "/w/nothing"),
     FileSet.NewFileSet).
Proof.
  refine (processImport_missing_file disk 100
            (FileSet.processImports disk 100 10) "/w/a.yarp" "nothing"
            "/w/nothing" "/w/nothing" FileSet.NewFileSet _ _ _ _ _).
  - vm_compute. reflexivity.
  - vm_compute. reflexivity.
  - vm_compute. reflexivity.
  - vm_compute. reflexivity.
  - vm_compute. discriminate.
Defined.

(** ** What a load adds to the set *)

Lemma bind_Ok_inv {St E A B} (c : M St E A) (k : A -> M St E B)
    (s s' : St) (b : B) :
  bind c k s = (Ok b, s') ->
  exists a s1, c s = (Ok a, s1) /\ k a s1 = (Ok b, s').
Proof.
  unfold bind. destruct (c s) as [[a | e | x | ] s1]; try discriminate.
  intros Hk. exists a, s1. split; [reflexivity | exact Hk].
Qed.

Lemma bind_run_Err {St E A B} (c : M St E A) (k : A -> M St E B)
    (s s1 : St) (e : E) :
  c s = (Err e, s1) -> bind c k s = (Err e, s1).
Proof. intros Hc. unfold bind. rewrite Hc. reflexivity. Qed.

Lemma bind_run_Panic {St E A B} (c : M St E A) (k : A -> M St E B)
    (s s1 : St) (x : panic) :
  c s = (Panicked x, s1) -> bind c k s = (Panicked x, s1).
Proof. intros Hc. unfold bind. rewrite Hc. reflexivity. Qed.

Lemma bind_run_OutOfFuel {St E A B} (c : M St E A) (k : A -> M St E B)
    (s s1 : St) :
  c s = (OutOfFuel, s1) -> bind c k s = (OutOfFuel, s1).
Proof. intros Hc. unfold bind. rewrite Hc. reflexivity. Qed.

(** [registerMessage] touches the name index and nothing else. *)
Lemma registerMessage_frame (file : File) (msg : Message) (f : FileSet) :
  let f' := snd (FileSet.registerMessage file msg f) in
  FileSet.loadedFiles f' = FileSet.loadedFiles f /\
  FileSet.knownServices f' = FileSet.knownServices f /\
  FileSet.packageName f' = FileSet.packageName f /\
  FileSet.Messages f' = FileSet.Messages f /\
  FileSet.Services f' = FileSet.Services f.
Proof.
  unfold FileSet.registerMessage. rewrite bind_modify_run, bind_get_run.
  destruct (FileSet.messages f); case_bool_decide; simpl; auto.
Qed.

Section LoadAdds.
Context `{UnicodeTables} `{GoRuntime} `{FilePath}.
Variable host : Host.
Variable parseFuel : nat.

Lemma addMessages_Ok (finalPath : string) (file : File) (ns : list string)
    (f f' : FileSet) :
  FileSet.addMessages finalPath file ns f = (Ok tt, f') ->
  exists ms,
    Forall2 (fun n m => File.MessageByName n file = Some m) ns ms /\
    FileSet.Messages f' = FileSet.Messages f ++ ms /\
    FileSet.Services f' = FileSet.Services f /\
    FileSet.packageName f' = FileSet.packageName f /\
    FileSet.loadedFiles f' = FileSet.loadedFiles f /\
    FileSet.knownServices f' = FileSet.knownServices f /\
    Forall (fun m => default ∅ (FileSet.messages f')
                       !! FileSet.fqn (File.Package file) (Message.Name m)
                     = Some m) ms.
Proof.
  revert f. induction ns as [|n ns IH]; intros f; simpl.
  - intros [= <-]. exists []. rewrite app_nil_r.
    repeat split; constructor.
  - destruct (File.MessageByName n file) as [m|] eqn:Em; [|discriminate].
    rewrite bind_modify_run. intros HB.
    apply bind_Ok_inv in HB as ([] & f1 & HR & Hrest).
    pose proof (registerMessage_frame file m
                  (FileSet.set_Messages (FileSet.Messages f ++ [m]) f))
      as Hfr. rewrite HR in Hfr. simpl in Hfr.
    destruct Hfr as (Fl & Fk & Fp & FM & FS).
    apply registerMessage_Ok in HR as (_ & Hidx & _).
    pose proof (keeps_addMessages finalPath file ns f1) as (_ & _ & Hsub).
    rewrite Hrest in Hsub. simpl in Hsub.
    apply IH in Hrest as (ms & HF2 & HM & HS & HP & HL & HK & Hall).
    exists (m :: ms). repeat split.
    + constructor; assumption.
    + rewrite HM, FM, <- app_assoc. reflexivity.
    + congruence.
    + congruence.
    + congruence.
    + congruence.
    + constructor; [|exact Hall].
      eapply lookup_weaken; [|exact Hsub].
      rewrite Hidx. apply lookup_insert_eq.
Qed.

Lemma addServices_Ok (finalPath : string) (file : File) (ns : list string)
    (f f' : FileSet) :
  FileSet.addServices finalPath file ns f = (Ok tt, f') ->
  exists ss,
    Forall2 (fun n s => File.ServiceByName n file = Some s) ns ss /\
    FileSet.Services f' = FileSet.Services f ++ ss /\
    FileSet.Messages f' = FileSet.Messages f /\
    FileSet.packageName f' = FileSet.packageName f /\
    FileSet.loadedFiles f' = FileSet.loadedFiles f /\
    FileSet.messages f' = FileSet.messages f.
Proof.
  revert f. induction ns as [|n ns IH]; intros f; simpl.
  - intros [= <-]. exists []. rewrite app_nil_r.
    repeat split; constructor.
  - destruct (File.ServiceByName n file) as [s|] eqn:Es; [|discriminate].
    rewrite bind_modify_run, bind_get_run.
    case_bool_decide; [discriminate|].
    rewrite bind_modify_run. intros Hrest.
    apply IH in Hrest as (ss & HF2 & HS & HM & HP & HL & HI).
    exists (s :: ss).
    destruct (FileSet.knownServices f); simpl in *;
      (repeat split;
       [constructor; assumption
       | rewrite HS, <- app_assoc; reflexivity
       | assumption ..]).
Qed.

Lemma processImports_without_imports (depth : nat) (path : string)
    (file : File) (f : FileSet) :
  File.ImportedFiles file = [] ->
  FileSet.processImports host parseFuel (S depth) path (Some file) f
  = (Ok tt, f).
Proof.
  intros Hi. cbn [FileSet.processImports FileSet.deref].
  rewrite (bind_run_Ok (ret file) _ f f file eq_refl), Hi. reflexivity.
Qed.

(** When the load of a file without imports succeeds, the set has the
    package of the file, knows the file as loaded, and has at the end of
    [Messages] and [Services] the declarations of the file, the ones its
    name index gives for the declared names, in the order they were
    declared; each of these messages is found under its qualified name. *)
Theorem Load_without_imports (depth : nat) (path finalPath : string)
    (file : File) (f f' : FileSet) :
  FileSet.findAndLoad host parseFuel path f = Ok (finalPath, Some file) ->
  File.ImportedFiles file = [] ->
  FileSet.Load host parseFuel (S depth) path f = (Ok tt, f') ->
  exists ms ss,
    Forall2 (fun n m => File.MessageByName n file = Some m)
      (File.DeclaredMessages file) ms /\
    Forall2 (fun n s => File.ServiceByName n file = Some s)
      (File.DeclaredServices file) ss /\
    FileSet.Messages f' = FileSet.Messages f ++ ms /\
    FileSet.Services f' = FileSet.Services f ++ ss /\
    FileSet.packageName f' = File.Package file /\
    FileSet.isLoaded finalPath f' = true /\
    Forall (fun m =>
              FindMessage (FileSet.fqn (File.Package file) (Message.Name m))
                f' = Some m) ms.
Proof.
  intros HF Hi. unfold FileSet.Load. rewrite HF. intros HL.
  apply bind_Ok_inv in HL as ([] & f1 & Hmark & HL).
  assert (Hf1 : exists lf, FileSet.loadedFiles f = Some lf /\
                  f1 = FileSet.set_loadedFiles (Some (<[finalPath := true]> lf)) f).
  { unfold FileSet.markLoaded in Hmark. rewrite bind_get_run in Hmark.
    destruct (FileSet.loadedFiles f) as [lf|]; [|discriminate].
    injection Hmark as <-. exists lf. split; reflexivity. }
  destruct Hf1 as (lf & Hlf & ->).
  rewrite bind_get_run in HL.
  apply bind_Ok_inv in HL as ([] & f2 & Hpkg & HL).
  assert (Hf2 : FileSet.packageName f2 = File.Package file /\
                FileSet.Messages f2 = FileSet.Messages f /\
                FileSet.Services f2 = FileSet.Services f /\
                FileSet.loadedFiles f2 = Some (<[finalPath := true]> lf)).
  { simpl in Hpkg.
    destruct (String.eqb (FileSet.packageName f) EmptyString) eqn:E0;
      rewrite ?E0 in Hpkg.
    - cbv [bind ret modify] in Hpkg. injection Hpkg as <-. repeat split.
    - destruct (String.eqb (FileSet.packageName f) (File.Package file)) eqn:E;
        cbv [bind ret fail] in Hpkg; rewrite E in Hpkg; cbv [negb] in Hpkg;
        [|discriminate].
      injection Hpkg as <-. apply String.eqb_eq in E. repeat split.
      simpl. exact E. }
  destruct Hf2 as (P2 & M2 & S2 & L2).
  apply bind_Ok_inv in HL as ([] & f3 & Himp & HL).
  rewrite (processImports_without_imports _ _ _ _ Hi) in Himp.
  injection Himp as <-.
  cbn [FileSet.deref] in HL.
  rewrite (bind_run_Ok (ret file) _ f2 f2 file eq_refl) in HL.
  apply bind_Ok_inv in HL as ([] & f4 & Hmsgs & Hsvcs).
  apply addMessages_Ok in Hmsgs as (ms & HF2 & HM & HS & HP & HLd & _ & Hall).
  apply addServices_Ok in Hsvcs as (ss & HF2' & HS' & HM' & HP' & HLd' & HI').
  exists ms, ss. repeat split; try assumption.
  - congruence.
  - congruence.
  - congruence.
  - unfold FileSet.isLoaded. rewrite HLd', HLd, L2. simpl.
    apply bool_decide_eq_true_2. rewrite lookup_insert_eq. eexists.
    reflexivity.
  - eapply Forall_impl; [exact Hall|]. intros m Hm. simpl in Hm.
    unfold FindMessage. rewrite fqn_has_dot. simpl. rewrite HI'. exact Hm.
Qed.

(** The messages of a file imported from another package go to the name
    index only: whatever way the loop over them ends, [Messages] and
    [Services] are as before, and when it ends well each declared message
    is found under the name its own package gives it. *)
Theorem addImportedMessages_of_other_package (finalPath : string)
    (imported : File) (ns : list string) (f : FileSet) :
  File.Package imported <> FileSet.packageName f ->
  let r := FileSet.addImportedMessages finalPath imported ns f in
  FileSet.Messages (snd r) = FileSet.Messages f /\
  FileSet.Services (snd r) = FileSet.Services f /\
  (fst r = Ok tt ->
   Forall (fun n =>
             exists m, File.MessageByName n imported = Some m /\
               FindMessage
                 (FileSet.fqn (File.Package imported) (Message.Name m))
                 (snd r) = Some m) ns).
Proof.
  intros Hpkg. revert f Hpkg.
  induction ns as [|n ns IH]; intros f Hpkg;
    cbn [FileSet.addImportedMessages]; cbv zeta.
  - simpl. repeat split. intros _. constructor.
  - destruct (File.MessageByName n imported) as [m|] eqn:Em.
    2: { simpl. repeat split. discriminate. }
    pose proof (registerMessage_frame imported m f) as Hfr. cbv zeta in Hfr.
    destruct (FileSet.registerMessage imported m f) as [o f1] eqn:HR.
    simpl in Hfr. destruct Hfr as (Fl & Fk & Fp & FM & FS).
    destruct o as [[] | e | x | ].
    2: { rewrite (bind_run_Err _ _ _ _ _ HR). simpl.
         repeat split; try assumption. discriminate. }
    2: { rewrite (bind_run_Panic _ _ _ _ _ HR). simpl.
         repeat split; try assumption. discriminate. }
    2: { rewrite (bind_run_OutOfFuel _ _ _ _ HR). simpl.
         repeat split; try assumption. discriminate. }
    rewrite (bind_run_Ok _ _ _ _ _ HR), bind_get_run.
    assert (E : String.eqb (File.Package imported) (FileSet.packageName f1)
                = false) by (apply String.eqb_neq; congruence).
    rewrite E.
    rewrite (bind_run_Ok (ret tt) _ f1 f1 tt eq_refl).
    assert (Hpkg1 : File.Package imported <> FileSet.packageName f1)
      by congruence.
    pose proof (IH f1 Hpkg1) as HI. cbv zeta in HI.
    destruct HI as (HM & HS & Hok).
    split; [rewrite HM; exact FM|]. split; [rewrite HS; exact FS|].
    intros Hfst. constructor; [|exact (Hok Hfst)].
    exists m. split; [exact Em|].
    apply registerMessage_Ok in HR as (_ & Hidx & _).
    pose proof (keeps_addImportedMessages finalPath imported ns f1)
      as (_ & _ & Hsub).
    unfold FindMessage. rewrite fqn_has_dot. cbn [negb].
    eapply lookup_weaken; [|exact Hsub].
    rewrite Hidx. apply lookup_insert_eq.
Qed.

End LoadAdds.

(** The witness of [Load_without_imports]: [c.yarp], into a new set. *)
Lemma Load_without_imports_witness :
  exists ms ss,
    Forall2 (fun n m => File.MessageByName n parsed_c = Some m)
      (File.DeclaredMessages parsed_c) ms /\
    Forall2 (fun n s => File.ServiceByName n parsed_c = Some s)
      (File.DeclaredServices parsed_c) ss /\
    FileSet.Messages set_after_c = FileSet.Messages FileSet.NewFileSet ++ ms /\
    FileSet.Services set_after_c = FileSet.Services FileSet.NewFileSet ++ ss /\
    FileSet.packageName set_after_c = File.Package parsed_c /\
    FileSet.isLoaded "/w/c.yarp" set_after_c = true /\
    Forall (fun m =>
              FindMessage (FileSet.fqn (File.Package parsed_c) (Message.Name m))
                set_after_c = Some m) ms.
Proof.
  apply (Load_without_imports disk 100 9 "/w/c.yarp" "/w/c.yarp" parsed_c
           FileSet.NewFileSet set_after_c); vm_compute; reflexivity.
Defined.

(** The witness of [addImportedMessages_of_other_package]: the message of
    [b.yarp], package [b], into the set of the package [c]. *)
Lemma addImportedMessages_of_other_package_witness :
  FileSet.Messages
    (snd (FileSet.addImportedMessages "/w/b.yarp" parsed_b
            (File.DeclaredMessages parsed_b) set_after_c))
  = FileSet.Messages set_after_c.
Proof.
  apply (addImportedMessages_of_other_package "/w/b.yarp" parsed_b
           (File.DeclaredMessages parsed_b) set_after_c).
  vm_compute. discriminate.
Defined.

(** * Failed loads, step by step *)

(** ** Where a load stops *)

(** [registerMessage], run: it makes the index a map, and then refuses the
    name or enters it. *)
Lemma registerMessage_run (file : File) (msg : Message) (f : FileSet) :
  let n := FileSet.fqn (File.Package file) (Message.Name msg) in
  let g := match FileSet.messages f with
           | Some _ => f
           | None => FileSet.set_messages (Some ∅) f
           end in
  FileSet.registerMessage file msg f
  = if bool_decide (is_Some (default ∅ (FileSet.messages f) !! n))
    then (Err (ErrorString ("duplicated definition of " +:+ n)), g)
    else (Ok tt,
          FileSet.set_messages
            (Some (<[n := msg]> (default ∅ (FileSet.messages f)))) g).
Proof.
  cbv zeta. unfold FileSet.registerMessage.
  rewrite bind_modify_run, bind_get_run.
  destruct (FileSet.messages f) eqn:E; simpl; rewrite ?E; simpl;
    case_bool_decide; reflexivity.
Qed.

Lemma addMessages_stops (finalPath : string) (file : File)
    (ns : list string) (f f' : FileSet) (e : error) :
  FileSet.addMessages finalPath file ns f = (Err e, f') ->
  stops_at_message finalPath file ns f e f'.
Proof.
  revert f. induction ns as [|n ns IH]; intros f; simpl; [discriminate|].
  destruct (File.MessageByName n file) as [m|] eqn:Em.
  - rewrite bind_modify_run.
    set (f0 := FileSet.set_Messages (FileSet.Messages f ++ [m]) f).
    pose proof (registerMessage_run file m f0) as HR. cbv zeta in HR.
    set (g0 := match FileSet.messages f0 with
               | Some _ => f0
               | None => FileSet.set_messages (Some ∅) f0
               end) in HR.
    assert (Hg0 : default ∅ (FileSet.messages g0)
                  = default ∅ (FileSet.messages f)
                  /\ FileSet.Services g0 = FileSet.Services f
                  /\ FileSet.Messages g0 = FileSet.Messages f ++ [m]).
    { subst g0 f0. simpl. destruct (FileSet.messages f) eqn:E; simpl;
        rewrite ?E; auto. }
    destruct Hg0 as (Hidx0 & HS0 & HM0).
    change (default ∅ (FileSet.messages f0))
      with (default ∅ (FileSet.messages f)) in HR.
    clearbody g0.
    case_bool_decide as Hdup.
    + rewrite (bind_run_Err _ _ _ _ _ HR). intros Heq.
      injection Heq as He Hf. subst e f'.
      exists [], n, ns, []. split; [reflexivity|]. split; [constructor|].
      split; [exact Hidx0|]. split; [exact HS0|].
      right. exists m. split; [exact Em|]. split; [reflexivity|].
      split; [rewrite Hidx0; exact Hdup | exact HM0].
    + rewrite (bind_run_Ok _ _ _ _ _ HR). intros Hrest.
      apply IH in Hrest as (ns1 & n' & ns2 & ms & Hns & HF2 & Hidx & HS & Hend).
      exists (n :: ns1), n', ns2, (m :: ms).
      split; [rewrite Hns; reflexivity|].
      split; [constructor; assumption|].
      split; [rewrite Hidx; reflexivity|].
      split; [rewrite HS; exact HS0|].
      destruct Hend as [(Hnone & He & HM) | (m' & Hsome & He & Hin & HM)].
      * left. split; [exact Hnone|]. split; [exact He|].
        rewrite HM. simpl. rewrite HM0, <- app_assoc. reflexivity.
      * right. exists m'. split; [exact Hsome|]. split; [exact He|].
        split; [exact Hin|].
        rewrite HM. simpl. rewrite HM0, <- app_assoc. reflexivity.
  - intros Heq. injection Heq as He Hf. subst e f'. exists [], n, ns, [].
    split; [reflexivity|]. split; [constructor|].
    split; [reflexivity|]. split; [reflexivity|].
    left. split; [exact Em|]. split; [reflexivity|].
    rewrite app_nil_r. reflexivity.
Qed.

Lemma addServices_stops (finalPath : string) (file : File)
    (ns : list string) (f f' : FileSet) (e : error) :
  FileSet.addServices finalPath file ns f = (Err e, f') ->
  stops_at_service finalPath file ns f e f'.
Proof.
  revert f. induction ns as [|n ns IH]; intros f; simpl; [discriminate|].
  destruct (File.ServiceByName n file) as [s|] eqn:Es.
  - rewrite bind_modify_run, bind_get_run.
    set (g := match FileSet.knownServices f with
              | Some _ => f
              | None => FileSet.set_knownServices (Some ∅) f
              end).
    assert (Hg : default ∅ (FileSet.knownServices g)
                 = default ∅ (FileSet.knownServices f)
                 /\ FileSet.Services g = FileSet.Services f
                 /\ FileSet.Messages g = FileSet.Messages f
                 /\ FileSet.messages g = FileSet.messages f).
    { subst g. destruct (FileSet.knownServices f) eqn:E; simpl; rewrite ?E;
        auto. }
    destruct Hg as (Hk & HS & HM & HI).
    case_bool_decide as Hknown.
    + intros [= <- <-]. exists [], n, ns, [].
      split; [reflexivity|]. split; [constructor|].
      split; [rewrite app_nil_r; exact HS|].
      split; [exact Hk|]. split; [exact HM|]. split; [exact HI|].
      right. split; [rewrite Es; eexists; reflexivity|].
      split; [exact Hknown|].
      reflexivity.
    + rewrite bind_modify_run. intros Hrest.
      apply IH in Hrest
        as (ns1 & n' & ns2 & ss & Hns & HF2 & HS' & Hk' & HM' & HI' & Hend).
      exists (n :: ns1), n', ns2, (s :: ss).
      split; [rewrite Hns; reflexivity|].
      split; [constructor; assumption|].
      split; [rewrite HS'; simpl; rewrite HS, <- app_assoc; reflexivity|].
      split; [rewrite Hk'; simpl; rewrite Hk; reflexivity|].
      split; [rewrite HM'; exact HM|]. split; [rewrite HI'; exact HI|].
      exact Hend.
  - intros [= <- <-]. exists [], n, ns, [].
    split; [reflexivity|]. split; [constructor|].
    split; [rewrite app_nil_r; reflexivity|].
    split; [reflexivity|]. split; [reflexivity|]. split; [reflexivity|].
    left. split; [exact Es | reflexivity].
Qed.

Lemma markLoaded_run (path : string) (f : FileSet) :
  FileSet.markLoaded path f
  = match FileSet.loadedFiles f with
    | Some _ => (Ok tt, marked path f)
    | None => (Panicked AssignmentToNilMap, f)
    end.
Proof.
  unfold FileSet.markLoaded, marked. rewrite bind_get_run.
  destruct (FileSet.loadedFiles f); reflexivity.
Qed.

Section LoadStops.
Context `{UnicodeTables} `{GoRuntime} `{FilePath}.
Variable host : Host.
Variable parseFuel : nat.

(** [Load] once [findAndLoad] has answered a file and the package check
    has let it through: the imports, the messages and the services, from
    the set [entered]. *)
Lemma Load_run (depth : nat) (path finalPath : string) (file : File)
    (f : FileSet) :
  FileSet.findAndLoad host parseFuel path f = Ok (finalPath, Some file) ->
  is_Some (FileSet.loadedFiles f) ->
  FileSet.packageName f = EmptyString \/
  FileSet.packageName f = File.Package file ->
  FileSet.Load host parseFuel depth path f
  = (FileSet.processImports host parseFuel depth finalPath (Some file) ;;;
     FileSet.addMessages finalPath file (File.DeclaredMessages file) ;;;
     FileSet.addServices finalPath file (File.DeclaredServices file))
      (entered finalPath file f).
Proof.
  intros HF [lf Hlf] Hpkg. unfold FileSet.Load. rewrite HF.
  assert (Hmark : FileSet.markLoaded finalPath f = (Ok tt, marked finalPath f))
    by (rewrite markLoaded_run, Hlf; reflexivity).
  rewrite (bind_run_Ok _ _ _ _ _ Hmark), bind_get_run.
  assert (Hstep :
    (if String.eqb (FileSet.packageName (marked finalPath f)) EmptyString
     then file0 <- FileSet.deref (Some file) ;;
          modify (FileSet.set_packageName (File.Package file0))
     else file0 <- FileSet.deref (Some file) ;;
          if negb (String.eqb (FileSet.packageName (marked finalPath f))
                     (File.Package file0))
          then fail (MixedPackagesError path
                       (FileSet.packageName (marked finalPath f))
                       (File.Package file0))
          else ret tt) (marked finalPath f)
    = (Ok tt, entered finalPath file f)).
  { unfold entered. change (FileSet.packageName (marked finalPath f))
      with (FileSet.packageName f).
    destruct (String.eqb (FileSet.packageName f) EmptyString) eqn:E0;
      [reflexivity|].
    destruct Hpkg as [Hp | Hp];
      [rewrite Hp in E0; discriminate|].
    cbn [FileSet.deref]. rewrite (bind_run_Ok (ret file) _ _ _ file eq_refl).
    rewrite Hp, String.eqb_refl. reflexivity. }
  rewrite (bind_run_Ok _ _ _ _ _ Hstep).
  destruct (FileSet.processImports host parseFuel depth finalPath (Some file)
              (entered finalPath file f)) as [[[] | e | x | ] f2] eqn:Himp.
  - rewrite !(bind_run_Ok _ _ _ _ _ Himp). cbn [FileSet.deref].
    rewrite (bind_run_Ok (ret file) _ _ _ file eq_refl). reflexivity.
  - rewrite !(bind_run_Err _ _ _ _ _ Himp). reflexivity.
  - rewrite !(bind_run_Panic _ _ _ _ _ Himp). reflexivity.
  - rewrite !(bind_run_OutOfFuel _ _ _ _ Himp). reflexivity.
Qed.

(** [Load] when the package check refuses the file. *)
Lemma Load_mixed (depth : nat) (path finalPath : string) (file : File)
    (f : FileSet) :
  FileSet.findAndLoad host parseFuel path f = Ok (finalPath, Some file) ->
  is_Some (FileSet.loadedFiles f) ->
  FileSet.packageName f <> EmptyString ->
  FileSet.packageName f <> File.Package file ->
  FileSet.Load host parseFuel depth path f
  = (Err (MixedPackagesError path (FileSet.packageName f)
            (File.Package file)),
     marked finalPath f).
Proof.
  intros HF [lf Hlf] Hne Hdiff. unfold FileSet.Load. rewrite HF.
  assert (Hmark : FileSet.markLoaded finalPath f = (Ok tt, marked finalPath f))
    by (rewrite markLoaded_run, Hlf; reflexivity).
  rewrite (bind_run_Ok _ _ _ _ _ Hmark), bind_get_run.
  change (FileSet.packageName (marked finalPath f))
    with (FileSet.packageName f).
  apply String.eqb_neq in Hne. apply String.eqb_neq in Hdiff.
  rewrite Hne. apply bind_run_Err. cbn [FileSet.deref].
  rewrite (bind_run_Ok (ret file) _ _ _ file eq_refl), Hdiff. reflexivity.
Qed.

(** [Load] on the nil file that [findAndLoad] answers for a loaded path. *)
Lemma Load_nil_file (depth : nat) (path finalPath : string) (f : FileSet) :
  FileSet.findAndLoad host parseFuel path f = Ok (finalPath, None) ->
  is_Some (FileSet.loadedFiles f) ->
  FileSet.Load host parseFuel depth path f
  = (Panicked NilPointerDereference, marked finalPath f).
Proof.
  intros HF [lf Hlf]. unfold FileSet.Load. rewrite HF.
  assert (Hmark : FileSet.markLoaded finalPath f = (Ok tt, marked finalPath f))
    by (rewrite markLoaded_run, Hlf; reflexivity).
  rewrite (bind_run_Ok _ _ _ _ _ Hmark), bind_get_run.
  apply bind_run_Panic.
  destruct (String.eqb _ _); reflexivity.
Qed.


End LoadStops.


(** ** One package per set, for the file handed to [Load] *)

Section MixedPackages.
Context `{UnicodeTables} `{GoRuntime} `{FilePath}.
Variable host : Host.
Variable parseFuel : nat.


End MixedPackages.


(** * More of the code: services, scanner, parser *)

(** ** Services across files *)

(** The loop over the services, run over names that are new to the
    registry and that the file resolves: their services are added. *)
Lemma addServices_new (finalPath : string) (file : File) (pre : list string) :
  forall (ss : list Service) (rest : list string) (f : FileSet),
    Forall2 (fun k s => File.ServiceByName k file = Some s) pre ss ->
    NoDup pre ->
    Forall (fun k => default ∅ (FileSet.knownServices f) !! k = None) pre ->
    exists f1,
      FileSet.addServices finalPath file (pre ++ rest) f
      = FileSet.addServices finalPath file rest f1 /\
      FileSet.Services f1 = FileSet.Services f ++ ss /\
      default ∅ (FileSet.knownServices f1)
      = entered_names pre (default ∅ (FileSet.knownServices f)) /\
      FileSet.Messages f1 = FileSet.Messages f /\
      FileSet.messages f1 = FileSet.messages f /\
      FileSet.packageName f1 = FileSet.packageName f /\
      FileSet.loadedFiles f1 = FileSet.loadedFiles f.
Proof.
  induction pre as [|k pre IH]; intros ss rest f HF2 Hnd Hnew.
  - apply Forall2_nil_inv_l in HF2 as ->. exists f.
    rewrite app_nil_r. repeat split.
  - apply Forall2_cons_inv_l in HF2 as (s & ss' & Hs & HF2 & ->).
    apply NoDup_cons in Hnd as [Hk Hnd].
    apply Forall_cons in Hnew as [Hnk Hnew].
    cbn [app FileSet.addServices]. rewrite Hs.
    rewrite bind_modify_run, bind_get_run.
    set (g := match FileSet.knownServices f with
              | Some _ => f
              | None => FileSet.set_knownServices (Some ∅) f
              end).
    assert (Hg : default ∅ (FileSet.knownServices g)
                 = default ∅ (FileSet.knownServices f)
                 /\ FileSet.Services g = FileSet.Services f
                 /\ FileSet.Messages g = FileSet.Messages f
                 /\ FileSet.messages g = FileSet.messages f
                 /\ FileSet.packageName g = FileSet.packageName f
                 /\ FileSet.loadedFiles g = FileSet.loadedFiles f).
    { subst g. destruct (FileSet.knownServices f) eqn:E; simpl; rewrite ?E;
        auto 10. }
    destruct Hg as (Gk & GS & GM & GI & GP & GL).
    rewrite Gk. rewrite bool_decide_eq_false_2
      by (rewrite Hnk; intros [x Hx]; discriminate).
    rewrite bind_modify_run.
    edestruct (IH ss' rest) as (f1 & Hrun & HS & HK & HM & HI & HP & HL);
      [exact HF2 | exact Hnd | | ].
    2: { exists f1. split; [exact Hrun|].
         split; [rewrite HS; simpl; rewrite GS, <- app_assoc; reflexivity|].
         split; [rewrite HK; simpl; rewrite Gk; reflexivity|].
         simpl in HM, HI, HP, HL. repeat split; congruence. }
    simpl. rewrite Gk. apply Forall_forall. intros x Hx.
    rewrite Forall_forall in Hnew.
    rewrite lookup_insert_ne; [exact (Hnew x Hx)|].
    intros ->. exact (Hk Hx).
Qed.

Lemma entered_names_known (ns : list string) (ks : gmap string bool)
    (n : string) :
  is_Some (ks !! n) -> is_Some (entered_names ns ks !! n).
Proof.
  revert ks. induction ns as [|k ns IH]; intros ks Hn; [exact Hn|].
  simpl. apply IH. destruct (decide (k = n)) as [->|Hkn].
  - rewrite lookup_insert_eq. eexists. reflexivity.
  - rewrite lookup_insert_ne by exact Hkn. exact Hn.
Qed.

Lemma addServices_known_grow (finalPath : string) (file : File)
    (ns : list string) (f : FileSet) (n : string) :
  is_Some (default ∅ (FileSet.knownServices f) !! n) ->
  is_Some (default ∅ (FileSet.knownServices
                         (snd (FileSet.addServices finalPath file ns f)))
             !! n).
Proof.
  revert f. induction ns as [|n' ns IH]; intros f Hn; simpl; [exact Hn|].
  destruct (File.ServiceByName n' file) as [s|]; [|exact Hn].
  rewrite bind_modify_run, bind_get_run.
  assert (Hn1 : is_Some (default ∅ (FileSet.knownServices
                  (match FileSet.knownServices f with
                   | Some _ => f
                   | None => FileSet.set_knownServices (Some ∅) f
                   end)) !! n)).
  { destruct (FileSet.knownServices f) eqn:E; simpl; rewrite ?E; exact Hn. }
  case_bool_decide; [exact Hn1|].
  rewrite bind_modify_run. apply IH. simpl.
  destruct (decide (n' = n)) as [->|Hne].
  - rewrite lookup_insert_eq. eexists. reflexivity.
  - rewrite lookup_insert_ne by exact Hne. exact Hn1.
Qed.

(** The names of the services a file has added are in the registry. *)
Lemma addServices_Ok_known (finalPath : string) (file : File)
    (ns : list string) (f f1 : FileSet) (n : string) :
  FileSet.addServices finalPath file ns f = (Ok tt, f1) ->
  n ∈ ns ->
  is_Some (default ∅ (FileSet.knownServices f1) !! n).
Proof.
  revert f. induction ns as [|n' ns IH]; intros f H1 Hin;
    [inversion Hin|].
  simpl in H1.
  destruct (File.ServiceByName n' file) as [s'|]; [|discriminate].
  rewrite bind_modify_run, bind_get_run in H1.
  case_bool_decide; [discriminate|].
  rewrite bind_modify_run in H1.
  apply elem_of_cons in Hin as [->|Hin].
  - match type of H1 with
    | FileSet.addServices _ _ _ ?g = _ =>
        pose proof (addServices_known_grow finalPath file ns g n') as Hg
    end.
    rewrite H1 in Hg. apply Hg. simpl. rewrite lookup_insert_eq.
    eexists. reflexivity.
  - exact (IH _ H1 Hin).
Qed.

(** The registry of service names is kept from one file to the next. A
    service name [n] that one file has added to the set is refused when a
    later file brings it again, with the multiple-declarations error naming
    the later file. The services the later file declares before [n], under
    names new to the registry, have been added by then and stay: the set
    the error leaves has them at the end of [Services] and their names in
    the registry, and [Messages] and the name index as they were. *)
Theorem addServices_refuses_known_service
    (path1 path2 : string) (file1 file2 : File) (ns1 pre post : list string)
    (n : string) (ss : list Service) (f f1 : FileSet) :
  FileSet.addServices path1 file1 ns1 f = (Ok tt, f1) ->
  n ∈ ns1 ->
  is_Some (File.ServiceByName n file2) ->
  Forall2 (fun k s => File.ServiceByName k file2 = Some s) pre ss ->
  NoDup pre ->
  Forall (fun k => default ∅ (FileSet.knownServices f1) !! k = None) pre ->
  exists f2 : FileSet,
    FileSet.addServices path2 file2 (pre ++ n :: post) f1
    = (Err (ErrorString ("multiple declarations of service " +:+ n +:+
                         " (duplicate found in " +:+ path2 +:+ ")")), f2) /\
    FileSet.Services f2 = FileSet.Services f1 ++ ss /\
    default ∅ (FileSet.knownServices f2)
    = entered_names pre (default ∅ (FileSet.knownServices f1)) /\
    FileSet.Messages f2 = FileSet.Messages f1 /\
    FileSet.messages f2 = FileSet.messages f1.
Proof.
  intros H1 Hin [s Hs] HF2 Hnd Hnew.
  pose proof (addServices_Ok_known path1 file1 ns1 f f1 n H1 Hin) as Hknown.
  destruct (addServices_new path2 file2 pre ss (n :: post) f1 HF2 Hnd Hnew)
    as (g & Hrun & HS & HK & HM & HI & _ & _).
  assert (Hn : is_Some (default ∅ (FileSet.knownServices g) !! n))
    by (rewrite HK; apply entered_names_known; exact Hknown).
  rewrite Hrun. cbn [FileSet.addServices]. rewrite Hs.
  rewrite bind_modify_run, bind_get_run.
  set (g' := match FileSet.knownServices g with
             | Some _ => g
             | None => FileSet.set_knownServices (Some ∅) g
             end).
  assert (Hg : default ∅ (FileSet.knownServices g')
               = default ∅ (FileSet.knownServices g)
               /\ FileSet.Services g' = FileSet.Services g
               /\ FileSet.Messages g' = FileSet.Messages g
               /\ FileSet.messages g' = FileSet.messages g).
  { subst g'. destruct (FileSet.knownServices g) eqn:E; simpl; rewrite ?E;
      auto. }
  destruct Hg as (Gk & GS & GM & GI).
  rewrite Gk, bool_decide_eq_true_2 by exact Hn.
  exists g'. split; [reflexivity|].
  repeat split; congruence.
Qed.

(** The witness of [addServices_refuses_known_service]: the set has the
    service [S] of a first file; a second file declares [T] and then [S]. *)
Lemma addServices_refuses_known_service_witness :
  exists f2 : FileSet,
    FileSet.addServices "/w/s2.yarp" parsed_services_T_S
      (["T"] ++ "S" :: []) set_with_service_S
    = (Err (ErrorString ("multiple declarations of service " +:+ "S" +:+
                         " (duplicate found in " +:+ "/w/s2.yarp" +:+ ")")),
       f2) /\
    FileSet.Services f2 = FileSet.Services set_with_service_S ++ [service_T] /\
    default ∅ (FileSet.knownServices f2)
    = entered_names ["T"]
        (default ∅ (FileSet.knownServices set_with_service_S)) /\
    FileSet.Messages f2 = FileSet.Messages set_with_service_S /\
    FileSet.messages f2 = FileSet.messages set_with_service_S.
Proof.
  refine (addServices_refuses_known_service "/w/s1.yarp" "/w/s2.yarp"
            parsed_service parsed_services_T_S ["S"] ["T"] [] "S"
            [service_T] FileSet.NewFileSet set_with_service_S _ _ _ _ _ _).
  - vm_compute. reflexivity.
  - apply list_elem_of_here.
  - vm_compute. eexists. reflexivity.
  - constructor; [vm_compute; reflexivity | constructor].
  - apply NoDup_singleton.
  - apply List.Forall_cons; [vm_compute; reflexivity | apply List.Forall_nil].
Defined.

(** ** The tokens of a scan *)

Section ScannerTokens.
Context `{UnicodeTables}.

Lemma stays_ret (P : Scanner.Scanner -> Prop) {A} (a : A) : stays P (ret a).
Proof. intros s Hs. exact Hs. Qed.

Lemma stays_fail (P : Scanner.Scanner -> Prop) {A} (e : SyntaxError) :
  stays P (fail (A := A) e).
Proof. intros s Hs. exact Hs. Qed.

Lemma stays_get (P : Scanner.Scanner -> Prop) : stays P get.
Proof. intros s Hs. exact Hs. Qed.

Lemma stays_out_of_fuel (P : Scanner.Scanner -> Prop) {A} :
  stays P (out_of_fuel (A := A)).
Proof. intros s Hs. exact Hs. Qed.

Lemma stays_bind (P : Scanner.Scanner -> Prop) {A B} (c : Scanner.ScanM A)
    (k : A -> Scanner.ScanM B) :
  stays P c -> (forall a, stays P (k a)) -> stays P (bind c k).
Proof.
  intros Hc Hk s Hs. specialize (Hc s Hs). unfold bind.
  destruct (c s) as [[a | e | x | ] s1]; simpl in *; try exact Hc.
  apply Hk. exact Hc.
Qed.

Lemma noEOF_advance : stays noEOF Scanner.advance.
Proof.
  intros s Hs. unfold Scanner.advance.
  destruct (nth_error _ _); exact Hs.
Qed.

Lemma noEOF_pos : stays noEOF Scanner.pos.
Proof.
  intros s Hs. unfold Scanner.pos. destruct (Scanner.pos_loop _ _ _ _ _);
    exact Hs.
Qed.

Lemma noEOF_error {A} (msg : string) : stays noEOF (Scanner.error (A := A) msg).
Proof.
  apply stays_bind; [apply noEOF_pos | intros lc; apply stays_fail].
Qed.

Lemma noEOF_sliceData (lo hi : nat) : stays noEOF (Scanner.sliceData lo hi).
Proof.
  intros s Hs. unfold Scanner.sliceData. destruct (_ && _); exact Hs.
Qed.

Lemma noEOF_appendToken (k : Element) (v : string) (lc : Z * Z) :
  k <> EOF -> stays noEOF (Scanner.appendToken k v lc).
Proof.
  intros Hk s Hs. unfold noEOF in *. simpl.
  apply Forall_app. split; [exact Hs|]. constructor; [exact Hk | constructor].
Qed.

Lemma noEOF_pushToken (k : Element) (v : string) :
  k <> EOF -> stays noEOF (Scanner.pushToken k v).
Proof.
  intros Hk. apply stays_bind; [apply noEOF_pos|].
  intros lc. apply noEOF_appendToken. exact Hk.
Qed.

Lemma simpleTokens_not_EOF (r : rune) (k : Element) :
  Scanner.simpleTokens r = Some k -> k <> EOF.
Proof.
  unfold Scanner.simpleTokens.
  repeat match goal with
         | |- (if ?b then _ else _) = _ -> _ => destruct b
         end; intros [= <-]; discriminate.
Qed.

Lemma noEOF_while (cond : Scanner.Scanner -> bool)
    (loop : nat -> Scanner.ScanM unit) :
  loop O = out_of_fuel ->
  (forall fuel,
     loop (S fuel)
     = (s <- get ;;
        if cond s then (Scanner.advance ;;; loop fuel) else ret tt)) ->
  forall fuel, stays noEOF (loop fuel).
Proof.
  intros H0 HS fuel. induction fuel as [|fuel IH].
  - rewrite H0. apply stays_out_of_fuel.
  - rewrite HS. apply stays_bind; [apply stays_get | intros s].
    destruct (cond s); [|apply stays_ret].
    apply stays_bind; [apply noEOF_advance | intros _; exact IH].
Qed.

Lemma noEOF_string_loop (fuel : nat) (escaping : bool) :
  stays noEOF (Scanner.string_loop fuel escaping).
Proof.
  revert escaping. induction fuel as [|fuel IH]; intros escaping;
    cbn [Scanner.string_loop]; [apply stays_out_of_fuel|].
  apply stays_bind; [apply stays_get | intros s].
  assert (Hstep : forall b,
            stays noEOF (Scanner.advance ;;; Scanner.string_loop fuel b)).
  { intros b. apply stays_bind; [apply noEOF_advance | intros _; apply IH]. }
  destruct (Scanner.isAtEnd s); [apply noEOF_error|].
  destruct (Scanner.peek s =? dquote).
  { destruct (negb escaping); [apply stays_ret | apply Hstep]. }
  destruct (Scanner.peek s =? ch "\"); [apply Hstep|].
  destruct (Scanner.peek s =? ch "010"); [apply noEOF_error | apply Hstep].
Qed.

Ltac noEOF_step :=
  first
    [ apply stays_ret | apply stays_fail | apply stays_get
    | apply noEOF_advance | apply noEOF_pos | apply noEOF_error
    | apply noEOF_sliceData
    | apply noEOF_appendToken; discriminate
    | apply noEOF_pushToken; discriminate
    | apply noEOF_string_loop
    | apply (noEOF_while (fun s => IsDigit (Scanner.peek s)));
        [reflexivity | intros; reflexivity]
    | apply (noEOF_while (fun s => Scanner.isLetterOrDigit (Scanner.peek s)));
        [reflexivity | intros; reflexivity]
    | apply (noEOF_while (fun s => negb (Scanner.peek s =? ch "010")));
        [reflexivity | intros; reflexivity]
    | apply (noEOF_while (fun s => negb (Scanner.peek s =? ch " ")));
        [reflexivity | intros; reflexivity]
    | match goal with
      | |- stays _ (bind _ _) => apply stays_bind; [|intros ?]
      | |- stays _ (if ?b then _ else _) => destruct b
      | |- stays _ (let _ := _ in _) => cbv zeta
      end ].

Lemma noEOF_scanToken (fuel : nat) : stays noEOF (Scanner.scanToken fuel).
Proof.
  unfold Scanner.scanToken, Scanner.annotation, Scanner.string,
    Scanner.comment, Scanner.number, Scanner.identifier.
  repeat noEOF_step.
  destruct (Scanner.simpleTokens _) as [k|] eqn:Ek.
  - apply noEOF_pushToken. exact (simpleTokens_not_EOF _ _ Ek).
  - repeat noEOF_step.
Qed.

Lemma noEOF_Run_loop (fuel n : nat) : stays noEOF (Scanner.Run_loop fuel n).
Proof.
  induction n as [|n IH]; cbn [Scanner.Run_loop]; [apply stays_out_of_fuel|].
  apply stays_bind; [apply stays_get | intros s].
  destruct (negb (Scanner.isAtEnd s)); [|apply stays_ret].
  apply stays_bind; [intros s0 Hs0; exact Hs0 | intros _].
  apply stays_bind; [apply noEOF_scanToken | intros _; exact IH].
Qed.

(** The tokens of a scan end with the end-of-input token, whose text is
    empty, and hold no other end-of-input token. *)
Theorem Scan_ends_with_one_EOF (buf : list rune) (toks : list Token) :
  Scanner.Scan buf = Ok toks ->
  exists (body : list Token) (eof : Token),
    toks = body ++ [eof] /\
    Token.Type_ eof = EOF /\ Token.Value eof = EmptyString /\
    Forall (fun t => Token.Type_ t <> EOF) body.
Proof.
  unfold Scanner.Scan, Scanner.Run.
  set (n := S (length buf)). set (s0 := Scanner.NewScanner buf).
  assert (Hclean : noEOF s0) by (unfold noEOF; constructor).
  apply (noEOF_Run_loop n n s0) in Hclean.
  destruct (Scanner.Run_loop n n s0) as [[[] | e | x | ] s1] eqn:E1;
    [rewrite (bind_run_Ok _ _ _ _ _ E1)
    | unfold bind; rewrite E1; discriminate ..].
  simpl in Hclean. unfold Scanner.pushToken.
  destruct (Scanner.pos s1) as [[lc | e | x | ] s2] eqn:E2;
    [| unfold bind; rewrite E2; discriminate ..].
  assert (s2 = s1) as ->.
  { unfold Scanner.pos in E2. destruct (Scanner.pos_loop _ _ _ _ _);
      congruence. }
  unfold bind. rewrite E2. simpl. intros [= <-].
  eexists. eexists. split; [reflexivity|].
  repeat split. exact Hclean.
Qed.

End ScannerTokens.

(** The witness of [Scan_ends_with_one_EOF]: the text [(]. *)
Lemma Scan_ends_with_one_EOF_witness :
  exists (body : list Token) (eof : Token),
    [{| Token.Type_ := OpenParen; Token.Value := "(";
        Token.Line := 1; Token.Column := 2 |};
     {| Token.Type_ := EOF; Token.Value := EmptyString;
        Token.Line := 1; Token.Column := 2 |}] = body ++ [eof] /\
    Token.Type_ eof = EOF /\ Token.Value eof = EmptyString /\
    Forall (fun t => Token.Type_ t <> EOF) body.
Proof.
  refine (Scan_ends_with_one_EOF (runes text_paren) _ _).
  vm_compute. reflexivity.
Defined.
(** ** Lines and columns *)

Lemma skipn_nth_error {A} (d : list A) (i : nat) (r : A) :
  nth_error d i = Some r -> skipn i d = r :: skipn (S i) d.
Proof.
  revert i. induction d as [|x d IH]; intros [|i]; simpl; try discriminate.
  - intros [= ->]. reflexivity.
  - intros Hnth. exact (IH i Hnth).
Qed.

Lemma pos_loop_over (n : nat) (d : list rune) (i : nat) (line column : Z) :
  (i + n <= length d)%nat ->
  Scanner.pos_loop d i n line column
  = Some (pos_over (firstn n (skipn i d)) line column).
Proof.
  revert i line column. induction n as [|n IH]; intros i line column Hle.
  - reflexivity.
  - cbn [Scanner.pos_loop].
    destruct (nth_error d i) as [r|] eqn:E.
    + rewrite (skipn_nth_error _ _ _ E). cbn [firstn pos_over].
      change (1 + 1) with 2.
      destruct (r =? ch "010"); apply IH; lia.
    + apply nth_error_None in E. lia.
Qed.

Lemma pos_over_app (a b : list rune) (line column : Z) :
  pos_over (a ++ b) line column
  = pos_over b (fst (pos_over a line column)) (snd (pos_over a line column)).
Proof.
  revert line column. induction a as [|r a IH]; intros line column;
    [reflexivity|].
  cbn [app pos_over]. destruct (r =? ch "010"); apply IH.
Qed.

Lemma pos_over_no_feed (b : list rune) (line column : Z) :
  Forall (fun r => r <> ch "010") b ->
  pos_over b line column = (line, column + Z.of_nat (length b)).
Proof.
  intros Hb. revert line column.
  induction Hb as [|r b Hr Hb IH]; intros line column.
  - simpl. f_equal. lia.
  - cbn [pos_over]. apply Z.eqb_neq in Hr. rewrite Hr, IH.
    f_equal. simpl length. lia.
Qed.

Lemma pos_over_line (a : list rune) (line column : Z) :
  fst (pos_over a line column) = line + lineFeeds a.
Proof.
  unfold lineFeeds. revert line column.
  induction a as [|r a IH]; intros line column.
  - simpl. lia.
  - cbn [pos_over count_occ].
    destruct (Z.eq_dec r (ch "010")) as [-> | Hne].
    + rewrite Z.eqb_refl, IH. lia.
    + apply Z.eqb_neq in Hne as Hne'. rewrite Hne', IH.
      destruct (Z.eq_dec r (ch "010")); [contradiction | reflexivity].
Qed.

(** [pos] counts the line feeds up to [current] for the line; the column
    is the number of characters since the last of them, the line feed
    included, plus one. *)
Theorem pos_line_and_column (s : Scanner.Scanner) (pre post : list rune) :
  (Scanner.current s <= length (Scanner.data s))%nat ->
  firstn (Scanner.current s) (Scanner.data s) = pre ++ post ->
  Forall (fun r => r <> ch "010") post ->
  (pre = [] \/ exists pre', pre = pre' ++ [ch "010"]) ->
  Scanner.pos s
  = (Ok (1 + lineFeeds pre,
         match pre with [] => 1 | _ => 2 end + Z.of_nat (length post)), s).
Proof.
  intros Hle Hsplit Hpost Hpre. unfold Scanner.pos.
  rewrite pos_loop_over by (simpl; lia).
  change (skipn 0 (Scanner.data s)) with (Scanner.data s).
  rewrite Hsplit, pos_over_app, pos_over_no_feed by exact Hpost.
  rewrite pos_over_line.
  destruct Hpre as [-> | [pre' ->]]; [reflexivity|].
  rewrite pos_over_app. cbn [pos_over]. rewrite Z.eqb_refl. cbn [snd].
  destruct (pre' ++ [ch "010"]) eqn:E; [|reflexivity].
  destruct pre'; discriminate.
Qed.

(** The witness of [pos_line_and_column]: the scanner two characters into
    the second line of a text. *)
Lemma pos_line_and_column_witness :
  Scanner.pos (Scanner.set_current 5 (Scanner.NewScanner (runes ("ab" +:+ LF +:+ "cd"))))
  = (Ok (2, 4), Scanner.set_current 5 (Scanner.NewScanner (runes ("ab" +:+ LF +:+ "cd")))).
Proof.
  refine (pos_line_and_column
            (Scanner.set_current 5 (Scanner.NewScanner (runes ("ab" +:+ LF +:+ "cd"))))
            (runes ("ab" +:+ LF)) (runes "cd") _ _ _ _).
  - simpl. lia.
  - reflexivity.
  - repeat constructor; vm_compute; discriminate.
  - right. exists (runes "ab"). reflexivity.
Defined.
(** ** Punctuation and blanks *)

Section ScanPunctuation.
Context `{UnicodeTables}.

Lemma advance_run (s : Scanner.Scanner) (r : rune) :
  nth_error (Scanner.data s) (Scanner.current s) = Some r ->
  Scanner.advance s
  = (Ok r, Scanner.set_current (S (Scanner.current s)) s).
Proof. intros Hnth. unfold Scanner.advance. rewrite Hnth. reflexivity. Qed.

Lemma nth_error_room (s : Scanner.Scanner) (r : rune) :
  nth_error (Scanner.data s) (Scanner.current s) = Some r ->
  (Scanner.current s < length (Scanner.data s))%nat.
Proof. intros Hnth. apply nth_error_Some. congruence. Qed.

(** None of the characters [scanToken] tests for first is a blank or the
    character of a one-character token. *)
Ltac other_rune r Hr :=
  repeat match goal with
         | |- context [r =? ?c] =>
             let E := fresh "E" in
             destruct (r =? c) eqn:E;
               [apply Z.eqb_eq in E; rewrite E in Hr; vm_compute in Hr;
                discriminate Hr|]
         end.

Lemma scanToken_blank (fuel : nat) (s : Scanner.Scanner) (r : rune) :
  nth_error (Scanner.data s) (Scanner.current s) = Some r ->
  blankRune r = true ->
  Scanner.scanToken fuel s
  = (Ok tt, Scanner.set_current (S (Scanner.current s)) s).
Proof.
  intros Hnth Hr. unfold Scanner.scanToken.
  rewrite (bind_run_Ok _ _ _ _ _ (advance_run s r Hnth)).
  destruct (r =? ch "@") eqn:E1;
    [apply Z.eqb_eq in E1; rewrite E1 in Hr; vm_compute in Hr;
     discriminate Hr|].
  destruct (r =? ch "-") eqn:E2;
    [apply Z.eqb_eq in E2; rewrite E2 in Hr; vm_compute in Hr;
     discriminate Hr|].
  unfold blankRune in Hr. rewrite Hr. reflexivity.
Qed.

Lemma scanToken_punctuation (fuel : nat) (s : Scanner.Scanner) (r : rune)
    (k : Element) :
  nth_error (Scanner.data s) (Scanner.current s) = Some r ->
  Scanner.simpleTokens r = Some k ->
  exists lc,
    Scanner.scanToken fuel s
    = (Ok tt,
       Scanner.set_tokens
         (Scanner.tokens s ++
            [{| Token.Type_ := k; Token.Value := string_of_runes [r];
                Token.Line := fst lc; Token.Column := snd lc |}])
         (Scanner.set_current (S (Scanner.current s)) s)).
Proof.
  intros Hnth Hr. unfold Scanner.scanToken.
  rewrite (bind_run_Ok _ _ _ _ _ (advance_run s r Hnth)).
  destruct (r =? ch "@") eqn:E1;
    [apply Z.eqb_eq in E1; rewrite E1 in Hr; vm_compute in Hr;
     discriminate Hr|].
  destruct (r =? ch "-") eqn:E2;
    [apply Z.eqb_eq in E2; rewrite E2 in Hr; vm_compute in Hr;
     discriminate Hr|].
  destruct (r =? ch "013") eqn:E3;
    [apply Z.eqb_eq in E3; rewrite E3 in Hr; vm_compute in Hr;
     discriminate Hr|].
  destruct (r =? ch " ") eqn:E4;
    [apply Z.eqb_eq in E4; rewrite E4 in Hr; vm_compute in Hr;
     discriminate Hr|].
  destruct (r =? ch "009") eqn:E5;
    [apply Z.eqb_eq in E5; rewrite E5 in Hr; vm_compute in Hr;
     discriminate Hr|].
  destruct (r =? dquote) eqn:E6;
    [apply Z.eqb_eq in E6; rewrite E6 in Hr; vm_compute in Hr;
     discriminate Hr|].
  destruct (r =? ch "#") eqn:E7;
    [apply Z.eqb_eq in E7; rewrite E7 in Hr; vm_compute in Hr;
     discriminate Hr|].
  cbn [orb]. rewrite Hr. unfold Scanner.pushToken.
  pose proof (nth_error_room s r Hnth) as Hlt.
  destruct (pos_Ok (Scanner.set_current (S (Scanner.current s)) s))
    as [lc Hpos]; [simpl; lia|].
  rewrite (bind_run_Ok _ _ _ _ _ Hpos). exists lc. reflexivity.
Qed.

(** One turn of the loop of [Run] over a blank or a one-character token. *)
Lemma Run_loop_step (fuel n : nat) (s : Scanner.Scanner) (r : rune) :
  nth_error (Scanner.data s) (Scanner.current s) = Some r ->
  blankRune r = true \/ is_Some (Scanner.simpleTokens r) ->
  exists s',
    Scanner.Run_loop fuel (S n) s = Scanner.Run_loop fuel n s' /\
    Scanner.data s' = Scanner.data s /\
    Scanner.current s' = S (Scanner.current s) /\
    kinds (Scanner.tokens s')
    = kinds (Scanner.tokens s) ++ option_list (punctuation r).
Proof.
  intros Hnth Hr. cbn [Scanner.Run_loop]. rewrite bind_get_run.
  pose proof (nth_error_room s r Hnth) as Hlt.
  unfold Scanner.isAtEnd. apply Nat.leb_gt in Hlt as Hlt'. rewrite Hlt'.
  cbn [negb]. rewrite bind_modify_run.
  set (s0 := Scanner.set_start (Scanner.current s) s).
  destruct (Scanner.simpleTokens r) as [k|] eqn:Ek.
  - destruct (scanToken_punctuation fuel s0 r k Hnth Ek) as [lc Hs].
    eexists. split; [rewrite (bind_run_Ok _ _ _ _ _ Hs); reflexivity|].
    repeat split. simpl. unfold kinds, punctuation.
    rewrite map_app, Ek. reflexivity.
  - destruct Hr as [Hr | [k Hk]]; [|discriminate].
    pose proof (scanToken_blank fuel s0 r Hnth Hr) as Hs.
    eexists. split; [rewrite (bind_run_Ok _ _ _ _ _ Hs); reflexivity|].
    repeat split. simpl. unfold punctuation. rewrite Ek. simpl.
    rewrite app_nil_r. reflexivity.
Qed.

Lemma Run_loop_punctuation (fuel : nat) (l : list rune) :
  forall (n : nat) (s : Scanner.Scanner) (rest : list rune),
    skipn (Scanner.current s) (Scanner.data s) = l ++ rest ->
    Forall (fun r => blankRune r = true \/ is_Some (Scanner.simpleTokens r))
      l ->
    exists s',
      Scanner.Run_loop fuel (length l + n) s = Scanner.Run_loop fuel n s' /\
      Scanner.data s' = Scanner.data s /\
      Scanner.current s' = (Scanner.current s + length l)%nat /\
      kinds (Scanner.tokens s')
      = kinds (Scanner.tokens s) ++ omap punctuation l.
Proof.
  induction l as [|r l IH]; intros n s rest Hskip Hall.
  - exists s. repeat split; simpl; [lia | rewrite app_nil_r; reflexivity].
  - apply Forall_cons in Hall as [Hr Hall].
    assert (Hnth : nth_error (Scanner.data s) (Scanner.current s) = Some r).
    { rewrite <- (Nat.add_0_r (Scanner.current s)), <- nth_error_skipn, Hskip.
      reflexivity. }
    destruct (Run_loop_step fuel (length l + n) s r Hnth Hr)
      as (s1 & Hrun & Hd & Hc & Hk).
    destruct (IH n s1 rest) as (s' & Hrun' & Hd' & Hc' & Hk');
      [|exact Hall|].
    { rewrite Hd, Hc. rewrite (skipn_nth_error _ _ _ Hnth) in Hskip.
      simpl in Hskip. congruence. }
    exists s'. split; [simpl length; cbn [Nat.add]; congruence|].
    repeat split; [congruence | simpl; lia|].
    rewrite Hk', Hk, <- app_assoc. f_equal. simpl.
    destruct (punctuation r); reflexivity.
Qed.

(** A text of blanks and one-character tokens scans to the token of each
    of these characters, in their order, and the end-of-input token. *)
Theorem Scan_punctuation (buf : list rune) :
  Forall (fun r => blankRune r = true \/ is_Some (Scanner.simpleTokens r))
    buf ->
  exists toks,
    Scanner.Scan buf = Ok toks /\
    kinds toks = omap punctuation buf ++ [(EOF, EmptyString)].
Proof.
  intros Hall. unfold Scanner.Scan, Scanner.Run.
  destruct (Run_loop_punctuation (S (length buf)) buf 1
              (Scanner.NewScanner buf) [])
    as (s' & Hrun & Hd & Hc & Hk);
    [simpl; rewrite app_nil_r; reflexivity | exact Hall |].
  replace (length buf + 1)%nat with (S (length buf)) in Hrun by lia.
  assert (Hend : Scanner.Run_loop (S (length buf)) 1 s' = (Ok tt, s')).
  { cbn [Scanner.Run_loop]. rewrite bind_get_run. unfold Scanner.isAtEnd.
    rewrite Hd, Hc. simpl.
    rewrite (proj2 (Nat.leb_le _ _) (Nat.le_refl _)). reflexivity. }
  rewrite (bind_run_Ok _ _ _ _ _ (eq_trans Hrun Hend)).
  destruct (pos_Ok s') as [lc Hpos]; [rewrite Hd, Hc; simpl; lia|].
  erewrite bind_run_Ok
    by (unfold Scanner.pushToken; rewrite (bind_run_Ok _ _ _ _ _ Hpos);
        reflexivity).
  eexists. split; [reflexivity|].
  simpl. unfold kinds in *. rewrite map_app, Hk. reflexivity.
Qed.

(** A text of blanks and one-character tokens followed by a dash that
    ends the text makes [Scan] panic: the character after the dash is
    read where there is none. *)
Theorem Scan_dash_at_end_panics (pre : list rune) :
  Forall (fun r => blankRune r = true \/ is_Some (Scanner.simpleTokens r))
    pre ->
  Scanner.Scan (pre ++ [ch "-"]) = Panicked IndexOutOfRange.
Proof.
  intros Hall. unfold Scanner.Scan, Scanner.Run.
  apply bind_run_Panicked.
  destruct (Run_loop_punctuation (S (length (pre ++ [ch "-"]))) pre 2
              (Scanner.NewScanner (pre ++ [ch "-"])) [ch "-"])
    as (s' & Hrun & Hd & Hc & Hk); [reflexivity | exact Hall |].
  replace (length pre + 2)%nat with (S (length (pre ++ [ch "-"]))) in Hrun
    by (rewrite length_app; simpl; lia).
  rewrite Hrun. clear Hrun.
  simpl in Hd, Hc.
  assert (Hnth : nth_error (Scanner.data s') (Scanner.current s')
                 = Some (ch "-")).
  { rewrite Hd, Hc, nth_error_app2, Nat.sub_diag by lia. reflexivity. }
  assert (Hlen : length (Scanner.data s') = S (Scanner.current s')).
  { rewrite Hd, Hc, length_app. simpl. lia. }
  cbn [Scanner.Run_loop]. rewrite bind_get_run.
  unfold Scanner.isAtEnd at 1. rewrite Hlen.
  rewrite (proj2 (Nat.leb_gt _ _) (Nat.lt_succ_diag_r _)). cbn [negb].
  rewrite bind_modify_run. apply bind_run_Panicked.
  unfold Scanner.scanToken.
  erewrite bind_run_Ok by (apply advance_run; exact Hnth).
  change (ch "-" =? ch "@") with false. change (ch "-" =? ch "-") with true.
  cbv iota. rewrite bind_get_run.
  set (s1 := Scanner.set_current _ _).
  assert (Hend : Scanner.isAtEnd s1 = true).
  { unfold Scanner.isAtEnd. subst s1. simpl. rewrite Hlen.
    apply Nat.leb_refl. }
  unfold Scanner.peek. rewrite Hend.
  change (negb (0 =? ch ">")) with true. cbv iota.
  apply bind_run_Panicked. unfold Scanner.advance.
  unfold Scanner.isAtEnd in Hend. apply Nat.leb_le, nth_error_None in Hend.
  rewrite Hend. reflexivity.
Qed.

End ScanPunctuation.

(** The witness of [Scan_punctuation]: a line with two braces. *)
Lemma Scan_punctuation_witness :
  exists toks,
    Scanner.Scan (runes ("{ }" +:+ LF)) = Ok toks /\
    kinds toks
    = omap punctuation (runes ("{ }" +:+ LF)) ++ [(EOF, EmptyString)].
Proof.
  refine (Scan_punctuation (runes ("{ }" +:+ LF)) _).
  repeat (apply List.Forall_cons;
          [vm_compute;
           first [left; reflexivity | right; eexists; reflexivity]|]).
  apply List.Forall_nil.
Defined.

(** The witness of [Scan_dash_at_end_panics]: the text [;-]. *)
Lemma Scan_dash_at_end_panics_witness :
  Scanner.Scan (runes ";" ++ [ch "-"]) = Panicked IndexOutOfRange.
Proof.
  refine (Scan_dash_at_end_panics (runes ";") _).
  apply List.Forall_cons; [|apply List.Forall_nil].
  vm_compute. right. eexists. reflexivity.
Defined.
(** ** A comment that its line ends *)

Section ScanComment.
Context `{UnicodeTables}.

(** The loop of [comment] stops in front of the first line feed. *)
Lemma comment_loop_stops (l : list rune) :
  forall (fuel : nat) (s : Scanner.Scanner) (rest : list rune),
    skipn (Scanner.current s) (Scanner.data s) = l ++ ch "010" :: rest ->
    Forall (fun r => r <> ch "010") l ->
    (length l < fuel)%nat ->
    Scanner.comment_loop fuel s
    = (Ok tt, Scanner.set_current (Scanner.current s + length l) s).
Proof.
  induction l as [|r l IH]; intros fuel s rest Hskip Hall Hfuel;
    (destruct fuel as [|fuel]; [simpl in Hfuel; lia|]);
    cbn [Scanner.comment_loop]; rewrite bind_get_run.
  - assert (Hnth : nth_error (Scanner.data s) (Scanner.current s)
                   = Some (ch "010")).
    { rewrite <- (Nat.add_0_r (Scanner.current s)), <- nth_error_skipn, Hskip.
      reflexivity. }
    pose proof (nth_error_room s _ Hnth) as Hlt.
    unfold Scanner.peek, Scanner.isAtEnd.
    apply Nat.leb_gt in Hlt. rewrite Hlt.
    erewrite nth_error_nth by exact Hnth. rewrite Z.eqb_refl. simpl.
    rewrite Nat.add_0_r. destruct s; reflexivity.
  - apply Forall_cons in Hall as [Hr Hall].
    assert (Hnth : nth_error (Scanner.data s) (Scanner.current s) = Some r).
    { rewrite <- (Nat.add_0_r (Scanner.current s)), <- nth_error_skipn, Hskip.
      reflexivity. }
    pose proof (nth_error_room s _ Hnth) as Hlt.
    unfold Scanner.peek, Scanner.isAtEnd.
    apply Nat.leb_gt in Hlt. rewrite Hlt.
    erewrite nth_error_nth by exact Hnth.
    apply Z.eqb_neq in Hr. rewrite Hr. cbn [negb].
    rewrite (bind_run_Ok _ _ _ _ _ (advance_run s r Hnth)).
    rewrite (IH fuel _ rest).
    + simpl. rewrite Nat.add_succ_r. reflexivity.
    + simpl. rewrite (skipn_nth_error _ _ _ Hnth) in Hskip. simpl in Hskip.
      congruence.
    + exact Hall.
    + simpl in Hfuel. lia.
Qed.

(** A text that is one comment and the line feed that ends it scans to
    the comment, its text without the number sign and the white space
    around it, the line break and the end-of-input token. *)
Theorem Scan_comment_line (body : list rune) :
  Forall (fun r => r <> ch "010") body ->
  exists toks,
    Scanner.Scan (ch "#" :: body ++ [ch "010"]) = Ok toks /\
    kinds toks
    = [(Comment, string_of_runes (Scanner.TrimSpace body));
       (LineBreak, string_of_runes [ch "010"]);
       (EOF, EmptyString)].
Proof.
  intros Hbody. unfold Scanner.Scan, Scanner.Run.
  set (buf := ch "#" :: body ++ [ch "010"]).
  set (n := S (length buf)).
  assert (Hn : n = S (S (S (length body)))).
  { subst n buf. simpl. rewrite length_app. simpl. lia. }
  set (s0 := Scanner.NewScanner buf).
  (* the comment *)
  set (s1 := Scanner.set_current 1 (Scanner.set_start 0 s0)).
  destruct (pos_Ok s1) as [lc1 Hpos1]; [subst s1 s0 buf; simpl; lia|].
  assert (Hloop : Scanner.comment_loop n s1
                  = (Ok tt, Scanner.set_current (1 + length body) s1)).
  { rewrite (comment_loop_stops body n s1 []); [reflexivity | reflexivity
      | exact Hbody | lia]. }
  set (s2 := Scanner.set_current (1 + length body) s1) in *.
  set (tok1 := {| Token.Type_ := Comment;
                  Token.Value := string_of_runes (Scanner.TrimSpace body);
                  Token.Line := fst lc1; Token.Column := snd lc1 |}).
  assert (Hcomment : Scanner.comment n s1
                     = (Ok tt, Scanner.set_tokens [tok1] s2)).
  { unfold Scanner.comment.
    rewrite (bind_run_Ok _ _ _ _ _ Hpos1), (bind_run_Ok _ _ _ _ _ Hloop).
    rewrite bind_get_run.
    assert (Hslice : Scanner.sliceData (Scanner.start s2 + 1)
                       (Scanner.current s2) s2 = (Ok body, s2)).
    { unfold Scanner.sliceData. subst s2 s1 s0 buf. simpl.
      rewrite length_app. simpl.
      rewrite (proj2 (Nat.leb_le _ _)) by lia. simpl.
      unfold subslice. simpl. rewrite Nat.sub_0_r, drop_0, take_app_length.
      reflexivity. }
    rewrite (bind_run_Ok _ _ _ _ _ Hslice). reflexivity. }
  assert (Hrun1 : Scanner.Run_loop n n s0
                  = Scanner.Run_loop n (S (S (length body)))
                      (Scanner.set_tokens [tok1] s2)).
  { rewrite Hn at 2. cbn [Scanner.Run_loop]. rewrite bind_get_run.
    change (Scanner.isAtEnd s0) with false. cbn [negb].
    rewrite bind_modify_run.
    erewrite bind_run_Ok; [reflexivity|].
    rewrite scanToken_comment by reflexivity. exact Hcomment. }
  (* the line feed *)
  set (s3 := Scanner.set_tokens [tok1] s2) in *.
  assert (Hnth : nth_error (Scanner.data s3) (Scanner.current s3)
                 = Some (ch "010")).
  { subst s3 s2 s1 s0 buf. simpl.
    rewrite nth_error_app2, Nat.sub_diag by lia. reflexivity. }
  destruct (Run_loop_step n (S (length body)) s3 (ch "010") Hnth)
    as (s4 & Hrun2 & Hd & Hc & Hk); [right; eexists; reflexivity|].
  assert (Hend : Scanner.Run_loop n (S (length body)) s4 = (Ok tt, s4)).
  { cbn [Scanner.Run_loop]. rewrite bind_get_run. unfold Scanner.isAtEnd.
    rewrite Hd, Hc. subst s3 s2 s1 s0 buf. simpl. rewrite length_app. simpl.
    rewrite (proj2 (Nat.leb_le _ _)) by lia. reflexivity. }
  rewrite (bind_run_Ok _ _ _ _ _
             (eq_trans Hrun1 (eq_trans Hrun2 Hend))).
  destruct (pos_Ok s4) as [lc Hpos].
  { rewrite Hd, Hc. subst s3 s2 s1 s0 buf. simpl. rewrite length_app.
    simpl. lia. }
  erewrite bind_run_Ok
    by (unfold Scanner.pushToken; rewrite (bind_run_Ok _ _ _ _ _ Hpos);
        reflexivity).
  eexists. split; [reflexivity|].
  simpl. unfold kinds in *. rewrite map_app, Hk. reflexivity.
Qed.

End ScanComment.

(** The witness of [Scan_comment_line]: a comment with blanks around its
    words. *)
Lemma Scan_comment_line_witness :
  exists toks,
    Scanner.Scan (ch "#" :: runes "  to do " ++ [ch "010"]) = Ok toks /\
    kinds toks
    = [(Comment, string_of_runes (Scanner.TrimSpace (runes "  to do ")));
       (LineBreak, string_of_runes [ch "010"]);
       (EOF, EmptyString)].
Proof.
  refine (Scan_comment_line (runes "  to do ") _).
  repeat (apply List.Forall_cons; [vm_compute; discriminate|]).
  apply List.Forall_nil.
Defined.

(** ** What the parser keeps *)

Lemma lands_weaken {A} (I Post : parser -> Prop) (c : parser.P A)
    (p : parser) :
  (forall q, I q -> Post q) -> lands I c p -> lands Post c p.
Proof. intros Himp [HI Hx]. split; [apply Himp, HI | exact Hx]. Qed.

Lemma lands_bind {A B} (I Post : parser -> Prop) (c : parser.P A)
    (k : A -> parser.P B) (p : parser) :
  lands I c p -> (forall q, I q -> Post q) ->
  (forall a q, I q -> lands Post (k a) q) ->
  lands Post (bind c k) p.
Proof.
  intros [Hq Hx] Himp Hk. unfold lands, bind.
  destruct (c p) as [[a | e | x | ] q]; simpl in *.
  - apply Hk, Hq.
  - split; [apply Himp, Hq | discriminate].
  - exfalso. exact (Hx x eq_refl).
  - split; [apply Himp, Hq | discriminate].
Qed.

Lemma lands_get_bind {B} (Post : parser -> Prop)
    (k : parser -> parser.P B) (p : parser) :
  lands Post (k p) p -> lands Post (bind get k) p.
Proof. intros Hk. exact Hk. Qed.

Lemma framed_file_is (f0 : File) : framed (file_is f0).
Proof.
  split; [intros p [Hs _]; exact Hs|].
  intros p q [_ Hf] Hs Hq. split; [exact Hs | congruence].
Qed.

Lemma framed_tidy `{FilePath} : framed tidy.
Proof.
  split; [intros p [Hs _]; exact Hs|].
  intros p q [_ Hd] Hs Hq. split; [exact Hs | rewrite Hq; exact Hd].
Qed.

(** The cursor *)

Lemma ahead_lookup (p : parser) :
  tokenList.tokens (parser.tokens p) !! tokenList.current (parser.tokens p)
  = head (ahead p).
Proof. unfold ahead. rewrite head_lookup, lookup_drop, Nat.add_0_r. reflexivity. Qed.

Lemma peek_head (p : parser) :
  sound p ->
  tokenList.peek (parser.tokens p)
  = Ok (default tokenList.eofToken (head (ahead p))).
Proof.
  intros Hs. unfold tokenList.peek. rewrite Hs, <- ahead_lookup.
  destruct (_ <=? _)%nat eqn:E.
  - apply Nat.leb_le in E. rewrite lookup_ge_None_2 by exact E. reflexivity.
  - apply Nat.leb_gt in E.
    destruct (lookup_lt_is_Some_2 _ _ E) as [t Ht]. rewrite Ht. reflexivity.
Qed.

Lemma peek_not_EOF (p : parser) (t : Token) :
  sound p ->
  tokenList.peek (parser.tokens p) = Ok t ->
  Token.Type_ t <> EOF ->
  head (ahead p) = Some t.
Proof.
  intros Hs Hp Ht. rewrite (peek_head p Hs) in Hp. injection Hp as Hp.
  destruct (head (ahead p)) as [t'|]; simpl in Hp; [congruence|].
  subst t. exfalso. apply Ht. reflexivity.
Qed.

Lemma peekPrevious_Ok (p : parser) (t : Token) :
  head (ahead p) = Some t ->
  exists prev, tokenList.peekPrevious (parser.tokens p) = Ok prev.
Proof.
  rewrite <- ahead_lookup. intros Ht. unfold tokenList.peekPrevious.
  destruct (tokenList.current (parser.tokens p)) as [|n] eqn:E; simpl.
  - rewrite Ht. eauto.
  - rewrite Nat.sub_0_r.
    destruct (lookup_lt_is_Some_2 (tokenList.tokens (parser.tokens p)) n)
      as [prev Hprev].
    + apply lookup_lt_Some in Ht. lia.
    + rewrite Hprev. eauto.
Qed.

Section ParserKeeps.
Context `{GoRuntime} `{FilePath}.
Variable I : parser -> Prop.
Hypothesis HI : framed I.

Lemma inv_ret {A} (a : A) : inv I (ret a).
Proof. intros p Hp. split; [exact Hp | discriminate]. Qed.

Lemma inv_fail {A} (e : error) : inv I (fail (A := A) e).
Proof. intros p Hp. split; [exact Hp | discriminate]. Qed.

Lemma inv_out_of_fuel {A} : inv I (out_of_fuel (A := A)).
Proof. intros p Hp. split; [exact Hp | discriminate]. Qed.

Lemma inv_get : inv I get.
Proof. intros p Hp. split; [exact Hp | discriminate]. Qed.

Lemma inv_bind {A B} (c : parser.P A) (k : A -> parser.P B) :
  inv I c -> (forall a, inv I (k a)) -> inv I (bind c k).
Proof.
  intros Hc Hk p Hp. apply (lands_bind I I c k p (Hc p Hp)); [auto|].
  intros a q Hq. exact (Hk a q Hq).
Qed.

(** A step that leaves the tokens and the file alone. *)
Lemma inv_touch (g : parser -> parser) :
  (forall p, parser.tokens (g p) = parser.tokens p /\
             parser.file (g p) = parser.file p) ->
  inv I (modify g).
Proof.
  intros Hg p Hp. split; [|discriminate]. simpl.
  destruct (Hg p) as [Ht Hf]. destruct HI as [Hsound Hframe].
  apply (Hframe p); [exact Hp | | exact Hf].
  unfold sound. rewrite Ht. exact (Hsound p Hp).
Qed.

Lemma inv_peek : inv I parser.peek.
Proof.
  intros p Hp. split; [exact Hp|]. unfold parser.peek. simpl.
  rewrite (peek_head p (proj1 HI p Hp)). discriminate.
Qed.

Lemma inv_peekIs (el : Element) : inv I (parser.peekIs el).
Proof.
  apply inv_bind; [apply inv_peek | intros t; apply inv_ret].
Qed.

Lemma inv_error {A} (msg : string) : inv I (parser.error (A := A) msg).
Proof.
  intros p Hp. split; [exact Hp|]. unfold parser.error, tokenList.error.
  simpl. rewrite (peek_head p (proj1 HI p Hp)). discriminate.
Qed.

Lemma inv_advance : inv I parser.advance.
Proof.
  intros p Hp. destruct HI as [Hsound Hframe].
  unfold lands, parser.advance, tokenList.advance.
  rewrite (peek_head p (Hsound p Hp)). simpl.
  split; [|discriminate].
  apply (Hframe p); [exact Hp | exact (Hsound p Hp) | reflexivity].
Qed.

Lemma inv_appendString (v : slice) (x : string) :
  inv I (parser.appendString v x).
Proof.
  intros p Hp. destruct HI as [Hsound Hframe].
  unfold lands, parser.appendString.
  destruct (append _ v x) as [h v']. simpl. split; [|discriminate].
  apply (Hframe p); [exact Hp | exact (Hsound p Hp) | reflexivity].
Qed.

Lemma inv_joinStrings (v : slice) (sep : string) :
  inv I (parser.joinStrings v sep).
Proof.
  apply inv_bind; [apply inv_get | intros p; apply inv_ret].
Qed.

Lemma inv_appendComment (c : string) : inv I (parser.appendComment c).
Proof.
  apply inv_touch. intros p. destruct (append _ _ c); split; reflexivity.
Qed.

Lemma inv_appendAnnotation (a : AnnotationValue) :
  inv I (parser.appendAnnotation a).
Proof.
  apply inv_touch. intros p. destruct (append _ _ a); split; reflexivity.
Qed.

Lemma inv_flushMeta : inv I parser.flushMeta.
Proof. apply inv_touch. intros p. split; reflexivity. Qed.

Lemma Atoi_no_panic (v : string) (x : panic) : Atoi v <> Panicked x.
Proof.
  unfold Atoi.
  assert (Hp : forall neg l,
             match l with
             | [] => Err (NumError v)
             | _ :: _ =>
                 match digits_value 0 l with
                 | Some n =>
                     let n := if neg : bool then - n else n in
                     if (- 2 ^ 63 <=? n) && (n <? 2 ^ 63) then Ok n
                     else Err (NumError v)
                 | None => Err (NumError v)
                 end
             end <> Panicked x).
  { intros neg l. destruct l; [discriminate|].
    destruct (digits_value 0 _); [|discriminate].
    cbv zeta. destruct (_ && _); discriminate. }
  destruct (list_ascii_of_string v) as [|c l]; [apply (Hp false [])|].
  destruct (Ascii.eqb c "+"%char) eqn:E1.
  - apply Ascii.eqb_eq in E1. subst c. apply (Hp false).
  - destruct (Ascii.eqb c "-"%char) eqn:E2.
    + apply Ascii.eqb_eq in E2. subst c. apply (Hp true).
    + apply Ascii.eqb_neq in E1. apply Ascii.eqb_neq in E2.
      pose proof (Hp false (c :: l)) as Hc.
      destruct c as [[] [] [] [] [] [] [] []]; try exact Hc;
        congruence.
Qed.

Lemma inv_Atoi (v : string) : inv I (fun p => (Atoi v, p)).
Proof. intros p Hp. split; [exact Hp | intros x; apply Atoi_no_panic]. Qed.

(** A step that looks at the next token first. *)
Lemma inv_peek_bind {B} (k : Token -> parser.P B) :
  (forall p t, I p -> tokenList.peek (parser.tokens p) = Ok t ->
               lands I (k t) p) ->
  inv I (bind parser.peek k).
Proof.
  intros Hk p Hp. pose proof (peek_head p (proj1 HI p Hp)) as Hpeek.
  specialize (Hk p _ Hp Hpeek).
  unfold lands, bind, parser.peek in *. rewrite Hpeek. exact Hk.
Qed.

(** [peekPrevious] after [peek] has answered a token of the list: the
    token before it is there, or it is the first one. *)
Lemma lands_peekPrevious_bind {B} (k : Token -> parser.P B) (p : parser)
    (t : Token) :
  I p ->
  tokenList.peek (parser.tokens p) = Ok t ->
  Token.Type_ t <> EOF ->
  (forall prev, inv I (k prev)) ->
  lands I (bind parser.peekPrevious k) p.
Proof.
  intros Hp Hpeek Ht Hk.
  pose proof (peek_not_EOF p t (proj1 HI p Hp) Hpeek Ht) as Hhead.
  destruct (peekPrevious_Ok p t Hhead) as [prev Hprev].
  specialize (Hk prev p Hp).
  unfold lands, bind, parser.peekPrevious in *. rewrite Hprev. exact Hk.
Qed.

Ltac inv_step :=
  first
    [ assumption
    | apply inv_ret | apply inv_fail | apply inv_out_of_fuel | apply inv_get
    | apply inv_peek | apply inv_peekIs | apply inv_error | apply inv_advance
    | apply inv_appendString | apply inv_joinStrings
    | apply inv_appendComment | apply inv_appendAnnotation
    | apply inv_flushMeta | apply inv_Atoi
    | match goal with
      | H : forall _, inv I _ |- inv I _ => apply H
      | H : forall _ _, inv I _ |- inv I _ => apply H
      | H : forall _ _ _, inv I _ |- inv I _ => apply H
      | |- inv I (bind _ _) => apply inv_bind; [|intros ?]
      | |- inv I (if ?b then _ else _) => destruct b
      | |- inv I (match ?o with Some _ => _ | None => _ end) => destruct o
      | |- inv I (let '(_, _) := ?x in _) => destruct x
      end ].

Lemma inv_parseMapKey : inv I parser.parseMapKey.
Proof.
  unfold parser.parseMapKey.
  apply inv_bind; [inv_step | intros id].
  destruct (negb id); [inv_step|].
  apply inv_bind; [inv_step | intros k].
  destruct (stringToPrimitive _) as [[]|]; inv_step.
Qed.

Lemma inv_parseMapType (parseType : parser.P Type') :
  inv I parseType -> inv I (parser.parseMapType parseType).
Proof.
  intros Hpt. unfold parser.parseMapType.
  apply inv_bind; [apply inv_parseMapKey | intros k]. repeat inv_step.
Qed.

Lemma inv_parseArrayType (parseType : parser.P Type') :
  inv I parseType -> inv I (parser.parseArrayType parseType).
Proof. intros Hpt. unfold parser.parseArrayType. repeat inv_step. Qed.

Lemma inv_dotted_loop (fuel : nat) (v : list string) :
  inv I (parser.dotted_loop fuel v).
Proof.
  revert v. induction fuel as [|fuel IH]; intros v;
    cbn [parser.dotted_loop]; repeat inv_step.
Qed.

Lemma inv_parseType (fuel : nat) : inv I (parser.parseType fuel).
Proof.
  induction fuel as [|fuel IH]; cbn [parser.parseType]; [inv_step|].
  apply inv_bind; [inv_step | intros id].
  destruct (negb id); [inv_step|].
  apply inv_bind; [inv_step | intros tok]. cbv zeta.
  destruct (stringToPrimitive _); [inv_step|].
  destruct (String.eqb _ "array"); [apply inv_parseArrayType, IH|].
  destruct (String.eqb _ "map"); [apply inv_parseMapType, IH|].
  apply inv_bind; [apply inv_dotted_loop | intros v; inv_step].
Qed.

Lemma inv_parseIndex : inv I parser.parseIndex.
Proof. unfold parser.parseIndex. repeat inv_step. Qed.

Lemma inv_values_loop (fuel : nat) (vals val : slice) :
  inv I (parser.values_loop fuel vals val).
Proof.
  revert vals val. induction fuel as [|fuel IH]; intros vals val;
    cbn [parser.values_loop]; repeat inv_step.
Qed.

Lemma inv_parseOne {A} (fuel : nat) (or : A -> parser.P A) (acc : A) :
  (forall a, inv I (or a)) -> inv I (parser.parseOne fuel or acc).
Proof.
  intros Hor. unfold parser.parseOne. apply inv_peek_bind.
  intros p t Hp Hpeek.
  destruct (Token.Type_ t) eqn:E;
    try exact (Hor acc p Hp).
  - (* a line break *)
    apply (lands_peekPrevious_bind _ p t Hp Hpeek);
      [rewrite E; discriminate|].
    intros prev. repeat inv_step.
  - (* a comment *)
    apply (lands_peekPrevious_bind _ p t Hp Hpeek);
      [rewrite E; discriminate|].
    intros prev. repeat inv_step.
  - (* an annotation *)
    match goal with
    | |- lands I ?c p => cut (inv I c); [intros Hc; exact (Hc p Hp)|]
    end.
    apply inv_bind; [inv_step | intros start].
    apply inv_bind; [inv_step | intros o].
    apply inv_bind.
    + destruct o; [|inv_step].
      apply inv_bind; [apply inv_values_loop | intros [vals val]].
      repeat inv_step.
    + intros [e vals]. repeat inv_step.
Qed.

Lemma inv_members_loop {A} (fuel n : nat) (or : A -> parser.P A) (acc : A) :
  (forall a, inv I (or a)) -> inv I (parser.members_loop fuel n or acc).
Proof.
  intros Hor. revert acc. induction n as [|n IH]; intros acc;
    cbn [parser.members_loop]; [inv_step|].
  apply inv_bind; [inv_step | intros c].
  destruct (negb c); [|inv_step].
  apply inv_bind; [apply inv_parseOne, Hor | intros a; apply IH].
Qed.

Lemma inv_parseOneOf (fuel : nat)
    (parseStructureField : bool -> list member -> parser.P (list member))
    (arr : list member) :
  (forall b l, inv I (parseStructureField b l)) ->
  inv I (parser.parseOneOf fuel parseStructureField arr).
Proof.
  intros Hpsf. unfold parser.parseOneOf.
  apply inv_bind; [inv_step | intros start].
  apply inv_bind; [inv_step | intros o].
  destruct (negb o); [inv_step|].
  apply inv_bind; [inv_step | intros _].
  apply inv_bind; [inv_step | intros p]. cbv zeta.
  apply inv_bind; [inv_step | intros _].
  apply inv_bind; [apply inv_members_loop; intros a; apply Hpsf | intros items].
  apply inv_bind; [inv_step | intros _].
  apply inv_bind; [apply inv_parseIndex | intros idx].
  repeat inv_step.
Qed.

Lemma inv_parseStructureField (fuel : nat) (allowOneOf : bool)
    (arr : list member) :
  inv I (parser.parseStructureField fuel allowOneOf arr).
Proof.
  revert allowOneOf arr. induction fuel as [|fuel IH]; intros allowOneOf arr;
    cbn [parser.parseStructureField]; [inv_step|].
  apply inv_bind; [inv_step | intros t].
  destruct (negb _); [inv_step|].
  destruct (String.eqb _ _).
  { destruct (negb allowOneOf); [inv_step|].
    apply inv_parseOneOf. exact IH. }
  apply inv_bind; [inv_step | intros fName].
  apply inv_bind; [apply inv_parseType | intros fType].
  apply inv_bind; [apply inv_parseIndex | intros fIndex].
  repeat inv_step.
Qed.

Lemma inv_reqType_loop (fuel : nat) (reqType : string) :
  inv I (parser.reqType_loop fuel reqType).
Proof.
  revert reqType. induction fuel as [|fuel IH]; intros reqType;
    cbn [parser.reqType_loop]; repeat inv_step.
Qed.

Lemma inv_retType_loop (fuel : nat) (retType : string) :
  inv I (parser.retType_loop fuel retType).
Proof.
  revert retType. induction fuel as [|fuel IH]; intros retType;
    cbn [parser.retType_loop]; repeat inv_step.
Qed.

Lemma inv_parseMethod (fuel : nat) (methods : list Method) :
  inv I (parser.parseMethod fuel methods).
Proof.
  unfold parser.parseMethod.
  apply inv_bind; [inv_step | intros id].
  destruct (negb id); [inv_step|].
  apply inv_bind; [inv_step | intros name].
  apply inv_bind; [inv_step | intros o].
  destruct (negb o); [inv_step|].
  apply inv_bind; [inv_step | intros _].
  apply inv_bind; [inv_step | intros t].
  destruct (_ && _); [inv_step|].
  apply inv_bind; [apply inv_reqType_loop | intros reqType].
  apply inv_bind; [inv_step | intros c].
  destruct (negb c); [inv_step|].
  apply inv_bind; [inv_step | intros _].
  apply inv_bind; [inv_step | intros s].
  apply inv_bind.
  - destruct (negb s); [|inv_step].
    apply inv_bind; [inv_step | intros a].
    destruct (negb a); [inv_step|].
    apply inv_bind; [inv_step | intros _].
    apply inv_bind; [inv_step | intros t'].
    apply inv_bind; [destruct (_ && _); repeat inv_step | intros stream].
    apply inv_bind; [inv_step | intros id'].
    destruct (negb id'); [inv_step|].
    apply inv_bind; [apply inv_retType_loop | intros retType]. inv_step.
  - intros [retType stream]. repeat inv_step.
Qed.

Lemma inv_skip_loop (fuel : nat) : inv I (parser.skip_loop fuel).
Proof.
  induction fuel as [|fuel IH]; cbn [parser.skip_loop]; repeat inv_step.
Qed.

Lemma inv_trivia_loop (fuel : nat) : inv I (parser.trivia_loop fuel).
Proof.
  induction fuel as [|fuel IH]; cbn [parser.trivia_loop]; [inv_step|].
  apply inv_peek_bind. intros p t Hp Hpeek.
  unfold Token.is_ at 1. case_bool_decide as E.
  - apply (lands_peekPrevious_bind _ p t Hp Hpeek);
      [rewrite E; discriminate|].
    intros prev. repeat inv_step.
  - match goal with
    | |- lands I ?c p => cut (inv I c); [intros Hc; exact (Hc p Hp)|]
    end.
    repeat inv_step.
Qed.

End ParserKeeps.
(** ** The names a file declares *)

Section DeclaredOnce.
Context `{FilePath}.

Lemma declared_once_empty : declared_once File.empty.
Proof. repeat split; constructor. Qed.

Lemma declared_once_push_package (v : Package) (f : File) :
  declared_once f -> declared_once (File.push (APackage v) f).
Proof. intros Hd. exact Hd. Qed.

Lemma declared_once_push_import (v : Import') (f : File) :
  declared_once f ->
  File.isImported (Import'.Path v) f = false ->
  declared_once (File.push (AnImport v) f).
Proof.
  intros (Hnd & Hm & Hs & Hi) Himp. repeat split; try assumption.
  simpl. apply NoDup_app. split; [exact Hi|]. split; [|apply NoDup_singleton].
  intros x Hx Hx'. apply list_elem_of_singleton in Hx'. subst x.
  unfold File.isImported in Himp.
  apply not_true_iff_false in Himp. apply Himp.
  apply existsb_exists. exists (Clean (Import'.Path v)).
  split; [apply list_elem_of_In; exact Hx | apply String.eqb_refl].
Qed.

Lemma isDefined_false (name : string) (f : File) :
  File.isDefined name f = false ->
  default ∅ (File.declaredNames f) !! name = None.
Proof.
  unfold File.isDefined. destruct (File.declaredNames f) as [m|]; simpl.
  - intros Hb. apply bool_decide_eq_false_1 in Hb.
    destruct (m !! name) eqn:E; [|reflexivity].
    exfalso. apply Hb. eexists. reflexivity.
  - intros _. apply lookup_empty.
Qed.

(** A name that is not defined is none of the declared names. *)
Lemma undefined_not_declared (name : string) (f : File) :
  declared_once f ->
  default ∅ (File.declaredNames f) !! name = None ->
  name ∉ File.DeclaredMessages f ++ File.DeclaredServices f.
Proof.
  intros (_ & Hm & Hs & _) Hnone Hin.
  apply elem_of_app in Hin as [Hin | Hin].
  - rewrite Forall_forall in Hm. destruct (Hm _ Hin) as (m & Hl & _).
    unfold File.MessageByName in Hl. rewrite Hnone in Hl. discriminate.
  - rewrite Forall_forall in Hs. destruct (Hs _ Hin) as (s & Hl & _).
    unfold File.ServiceByName in Hl. rewrite Hnone in Hl. discriminate.
Qed.

Lemma declared_once_push_message (v : Message) (f : File) :
  declared_once f ->
  File.isDefined (Message.Name v) f = false ->
  declared_once (File.push (AMessage v) f).
Proof.
  intros Hd Hdef. apply isDefined_false in Hdef.
  pose proof (undefined_not_declared _ _ Hd Hdef) as Hnew.
  destruct Hd as (Hnd & Hm & Hs & Hi).
  assert (Hother : forall n,
            n ∈ File.DeclaredMessages f ++ File.DeclaredServices f ->
            (<[Message.Name v := AMessage v]>
               (default ∅ (File.declaredNames f))) !! n
            = default ∅ (File.declaredNames f) !! n).
  { intros n Hn. apply lookup_insert_ne. intros <-. exact (Hnew Hn). }
  repeat split; simpl.
  - rewrite <- app_assoc. apply NoDup_app in Hnd as (HM & Hdis & HS).
    apply NoDup_app. split; [exact HM|]. split.
    + intros x Hx Hx'. apply elem_of_cons in Hx' as [-> | Hx'].
      * apply Hnew. apply elem_of_app. left. exact Hx.
      * exact (Hdis x Hx Hx').
    + apply NoDup_cons. split; [|exact HS].
      intros Hin. apply Hnew. apply elem_of_app. right. exact Hin.
  - apply Forall_app. split.
    + rewrite Forall_forall in *. intros n Hn.
      destruct (Hm n Hn) as (m & Hl & Hname). exists m. split; [|exact Hname].
      unfold File.MessageByName in *. simpl.
      rewrite Hother by (apply elem_of_app; left; exact Hn). exact Hl.
    + constructor; [|constructor]. exists v. split; [|reflexivity].
      unfold File.MessageByName. simpl. rewrite lookup_insert_eq. reflexivity.
  - rewrite Forall_forall in *. intros n Hn.
    destruct (Hs n Hn) as (s & Hl & Hname). exists s. split; [|exact Hname].
    unfold File.ServiceByName in *. simpl.
    rewrite Hother by (apply elem_of_app; right; exact Hn). exact Hl.
  - exact Hi.
Qed.

Lemma declared_once_push_service (v : Service) (f : File) :
  declared_once f ->
  File.isDefined (Service.Name v) f = false ->
  declared_once (File.push (AService v) f).
Proof.
  intros Hd Hdef. apply isDefined_false in Hdef.
  pose proof (undefined_not_declared _ _ Hd Hdef) as Hnew.
  destruct Hd as (Hnd & Hm & Hs & Hi).
  assert (Hother : forall n,
            n ∈ File.DeclaredMessages f ++ File.DeclaredServices f ->
            (<[Service.Name v := AService v]>
               (default ∅ (File.declaredNames f))) !! n
            = default ∅ (File.declaredNames f) !! n).
  { intros n Hn. apply lookup_insert_ne. intros <-. exact (Hnew Hn). }
  repeat split; simpl.
  - rewrite app_assoc. apply NoDup_app. split; [exact Hnd|]. split.
    + intros x Hx Hx'. apply list_elem_of_singleton in Hx'. subst x.
      exact (Hnew Hx).
    + apply NoDup_singleton.
  - rewrite Forall_forall in *. intros n Hn.
    destruct (Hm n Hn) as (m & Hl & Hname). exists m. split; [|exact Hname].
    unfold File.MessageByName in *. simpl.
    rewrite Hother by (apply elem_of_app; left; exact Hn). exact Hl.
  - apply Forall_app. split.
    + rewrite Forall_forall in *. intros n Hn.
      destruct (Hs n Hn) as (s & Hl & Hname). exists s. split; [|exact Hname].
      unfold File.ServiceByName in *. simpl.
      rewrite Hother by (apply elem_of_app; right; exact Hn). exact Hl.
    + constructor; [|constructor]. exists v. split; [|reflexivity].
      unfold File.ServiceByName. simpl. rewrite lookup_insert_eq. reflexivity.
  - exact Hi.
Qed.

End DeclaredOnce.
(** ** The parser keeps the declared names apart *)

Section ParserTidy.
Context `{GoRuntime} `{FilePath}.

Lemma file_is_tidy (f0 : File) :
  declared_once f0 -> forall q, file_is f0 q -> tidy q.
Proof. intros Hd q [Hs Hf]. split; [exact Hs | rewrite Hf; exact Hd]. Qed.

(** A step that leaves the file alone, run in a tidy parser. *)
Lemma lands_still {A} (c : parser.P A) (p : parser) :
  (forall f0, inv (file_is f0) c) -> tidy p ->
  lands (file_is (parser.file p)) c p.
Proof. intros Hc [Hs _]. apply Hc. split; [exact Hs | reflexivity]. Qed.

(** [push], where the declaration may be added. *)
Lemma lands_push (d : decl) (q : parser) :
  sound q ->
  declared_once (File.push d (parser.file q)) ->
  lands tidy (parser.push d) q.
Proof. intros Hs Hd. split; [split; [exact Hs | exact Hd] | discriminate]. Qed.

Ltac still f0 Hq :=
  first
    [ apply lands_get_bind
    | eapply (lands_bind (file_is f0) tidy);
        [ first
            [ apply (inv_advance _ (framed_file_is f0)); exact Hq
            | apply (inv_peekIs _ (framed_file_is f0)); exact Hq
            | apply (inv_peek _ (framed_file_is f0)); exact Hq
            | apply (inv_flushMeta _ (framed_file_is f0)); exact Hq ]
        | apply file_is_tidy; assumption
        | clear Hq; intros ? ? Hq ] ].

Lemma lands_error_still {A} (f0 : File) (msg : string) (q : parser) :
  declared_once f0 -> file_is f0 q ->
  lands tidy (parser.error (A := A) msg) q.
Proof.
  intros Hd Hq. apply (lands_weaken (file_is f0)).
  - apply file_is_tidy, Hd.
  - apply (inv_error _ (framed_file_is f0)). exact Hq.
Qed.

Lemma inv_message (fuel : nat) : inv tidy (parser.message fuel).
Proof.
  intros p [Hs Hd]. set (f0 := parser.file p) in *.
  assert (Hq : file_is f0 p) by (split; [exact Hs | reflexivity]).
  clearbody f0. clear Hs. revert Hq. generalize p. clear p. intros q Hq.
  unfold parser.message.
  still f0 Hq. still f0 Hq.
  destruct (negb _); [exact (lands_error_still f0 _ _ Hd Hq)|].
  still f0 Hq. rename a1 into name. still f0 Hq.
  rewrite (proj2 Hq).
  destruct (File.isDefined (Token.Value name) f0) eqn:Edef;
    [exact (lands_error_still f0 _ _ Hd Hq)|].
  still f0 Hq. still f0 Hq.
  destruct (negb _); [exact (lands_error_still f0 _ _ Hd Hq)|].
  still f0 Hq. cbv zeta. still f0 Hq. still f0 Hq.
  eapply (lands_bind (file_is f0) tidy);
    [ apply (inv_members_loop _ (framed_file_is f0));
        [intros acc; apply (inv_parseStructureField _ (framed_file_is f0))
        | exact Hq]
    | apply file_is_tidy; assumption
    | clear Hq; intros fields ? Hq ].
  still f0 Hq.
  apply lands_push; [exact (proj1 Hq)|].
  rewrite (proj2 Hq). apply declared_once_push_message; [exact Hd|].
  exact Edef.
Qed.

Lemma inv_service (fuel : nat) : inv tidy (parser.service fuel).
Proof.
  intros p [Hs Hd]. set (f0 := parser.file p) in *.
  assert (Hq : file_is f0 p) by (split; [exact Hs | reflexivity]).
  clearbody f0. clear Hs. revert Hq. generalize p. clear p. intros q Hq.
  unfold parser.service.
  still f0 Hq. still f0 Hq.
  destruct (negb _); [exact (lands_error_still f0 _ _ Hd Hq)|].
  still f0 Hq. rename a1 into name. still f0 Hq.
  rewrite (proj2 Hq).
  destruct (File.isDefined (Token.Value name) f0) eqn:Edef;
    [exact (lands_error_still f0 _ _ Hd Hq)|].
  still f0 Hq. still f0 Hq.
  destruct (negb _); [exact (lands_error_still f0 _ _ Hd Hq)|].
  still f0 Hq. still f0 Hq. cbv zeta. still f0 Hq.
  eapply (lands_bind (file_is f0) tidy);
    [ apply (inv_members_loop _ (framed_file_is f0));
        [intros acc; apply (inv_parseMethod _ (framed_file_is f0))
        | exact Hq]
    | apply file_is_tidy; assumption
    | clear Hq; intros methods ? Hq ].
  still f0 Hq.
  apply lands_push; [exact (proj1 Hq)|].
  rewrite (proj2 Hq). apply declared_once_push_service; [exact Hd|].
  exact Edef.
Qed.

Lemma inv_messageOrService (fuel : nat) (u : unit) :
  inv tidy (parser.messageOrService fuel u).
Proof.
  unfold parser.messageOrService.
  apply inv_bind; [apply (inv_peek _ framed_tidy) | intros t].
  destruct (negb _); [apply (inv_error _ framed_tidy)|].
  destruct (String.eqb _ _); [apply inv_message|].
  destruct (String.eqb _ _); [apply inv_service|].
  destruct (String.eqb _ _); apply (inv_error _ framed_tidy).
Qed.

Lemma inv_push_package (v : Package) : inv tidy (parser.push (APackage v)).
Proof.
  intros p [Hs Hd]. apply lands_push; [exact Hs|].
  apply declared_once_push_package, Hd.
Qed.

Lemma inv_parsePackage (fuel : nat) : inv tidy (parser.parsePackage fuel).
Proof.
  unfold parser.parsePackage.
  apply inv_bind; [apply (inv_skip_loop _ framed_tidy)|].
  intros _.
  apply inv_bind; [apply (inv_peek _ framed_tidy) | intros t].
  destruct (negb _); [apply (inv_error _ framed_tidy)|].
  destruct (negb _); [apply (inv_error _ framed_tidy)|].
  apply inv_bind; [apply (inv_advance _ framed_tidy)|].
  intros start.
  apply inv_bind; [apply (inv_advance _ framed_tidy)|].
  intros first.
  apply inv_bind; [apply (inv_dotted_loop _ framed_tidy)|].
  intros pName.
  apply inv_bind; [apply (inv_peekIs _ framed_tidy)|].
  intros s.
  destruct (negb _); [apply (inv_error _ framed_tidy)|].
  apply inv_bind; [apply (inv_advance _ framed_tidy)|].
  intros e. apply inv_push_package.
Qed.

Lemma inv_parseImports (fuel n : nat) : inv tidy (parser.parseImports fuel n).
Proof.
  induction n as [|n IH]; cbn [parser.parseImports];
    [apply (inv_out_of_fuel _)|].
  apply inv_bind; [apply (inv_trivia_loop _ framed_tidy)|].
  intros _.
  apply inv_bind; [apply (inv_peek _ framed_tidy) | intros t].
  destruct (negb _); [apply (inv_ret _)|].
  destruct (negb _); [apply (inv_ret _)|].
  apply inv_bind; [apply (inv_flushMeta _ framed_tidy)|].
  intros _.
  apply inv_bind; [apply (inv_advance _ framed_tidy)|].
  intros start.
  apply inv_bind; [apply (inv_peekIs _ framed_tidy)|].
  intros s.
  destruct (negb _); [apply (inv_error _ framed_tidy)|].
  apply inv_bind; [apply (inv_advance _ framed_tidy)|].
  intros path.
  intros p [Hs Hd]. set (f0 := parser.file p) in *.
  assert (Hq : file_is f0 p) by (split; [exact Hs | reflexivity]).
  clearbody f0. clear Hs. revert Hq. generalize p. clear p. intros q Hq.
  still f0 Hq. rewrite (proj2 Hq).
  destruct (File.isImported (Token.Value path) f0) eqn:Eimp;
    [exact (lands_error_still f0 _ _ Hd Hq)|].
  still f0 Hq.
  destruct (negb _); [exact (lands_error_still f0 _ _ Hd Hq)|].
  still f0 Hq.
  eapply (lands_bind tidy tidy); [|auto|intros _ q' Hq'; exact (IH q' Hq')].
  apply lands_push; [exact (proj1 Hq)|].
  rewrite (proj2 Hq). apply declared_once_push_import; [exact Hd|].
  exact Eimp.
Qed.

Lemma inv_run_loop (fuel n : nat) : inv tidy (parser.run_loop fuel n).
Proof.
  induction n as [|n IH]; cbn [parser.run_loop];
    [apply (inv_out_of_fuel _)|].
  apply inv_bind; [apply (inv_peekIs _ framed_tidy)|].
  intros e. destruct (negb e); [|apply (inv_ret _)].
  apply inv_bind; [|intros _; exact IH].
  apply (inv_parseOne _ framed_tidy). intros u. apply inv_messageOrService.
Qed.

Lemma inv_run (fuel : nat) : inv tidy (parser.run fuel).
Proof.
  unfold parser.run.
  apply inv_bind; [apply inv_parsePackage | intros _].
  apply inv_bind; [apply inv_parseImports | intros _].
  apply inv_bind; [apply inv_run_loop | intros _].
  apply inv_bind; [apply (inv_get _) | intros p].
  apply (inv_ret _).
Qed.

Lemma tidy_newParser (toks : list Token) : tidy (parser.newParser toks).
Proof. split; [reflexivity | apply declared_once_empty]. Qed.

(** The file [run] answers is the file of the parser it leaves. *)
Lemma run_answers_file (fuel : nat) (p p' : parser) (f : File) :
  parser.run fuel p = (Ok f, p') -> f = parser.file p'.
Proof.
  unfold parser.run. intros Hr.
  apply bind_Ok_inv in Hr as ([] & p1 & _ & Hr).
  apply bind_Ok_inv in Hr as ([] & p2 & _ & Hr).
  apply bind_Ok_inv in Hr as ([] & p3 & _ & Hr).
  cbv [bind get ret] in Hr. congruence.
Qed.

(** Whatever the tokens, and whatever the budget of its loops, [Parse] does
    not panic: it reads no token outside the list and writes to no nil
    map. *)
Theorem Parse_never_panics (fuel : nat) (toks : list Token) (x : panic) :
  Parse fuel toks <> Panicked x.
Proof.
  destruct (inv_run fuel (parser.newParser toks) (tidy_newParser toks))
    as [_ Hx].
  unfold Parse. specialize (Hx x).
  destruct (parser.run fuel (parser.newParser toks)) as [[f | e | y | ] p'];
    simpl in Hx; congruence.
Qed.

Lemma Parse_declared_once (fuel : nat) (toks : list Token) (f : File)
    (mem : Memory) :
  Parse fuel toks = Ok (f, mem) -> declared_once f.
Proof.
  destruct (inv_run fuel (parser.newParser toks) (tidy_newParser toks))
    as [[_ Hd] _].
  unfold Parse.
  destruct (parser.run fuel (parser.newParser toks)) as [[f' | e | y | ] p']
    eqn:Hr; try discriminate.
  intros [= <- _]. apply run_answers_file in Hr. subst f'. exact Hd.
Qed.

(** In the file [Parse] returns, no name is declared twice, be it by
    messages or services, every declared name is resolved by
    [MessageByName] or [ServiceByName], according to its kind, to a
    declaration that carries that name, and no path is imported twice. *)
Theorem Parse_declares_each_name_once (fuel : nat) (toks : list Token)
    (f : File) (mem : Memory) :
  Parse fuel toks = Ok (f, mem) ->
  NoDup (File.DeclaredMessages f ++ File.DeclaredServices f) /\
  Forall (fun n => exists m, File.MessageByName n f = Some m /\
                             Message.Name m = n)
         (File.DeclaredMessages f) /\
  Forall (fun n => exists s, File.ServiceByName n f = Some s /\
                             Service.Name s = n)
         (File.DeclaredServices f) /\
  NoDup (File.ImportedFiles f).
Proof. exact (Parse_declared_once fuel toks f mem). Qed.

End ParserTidy.

(** The witness of [Parse_declares_each_name_once]: the two messages of
    [text_two_messages]. *)
Lemma Parse_declares_each_name_once_witness :
  NoDup (File.DeclaredMessages (fst parsed_two_messages) ++
         File.DeclaredServices (fst parsed_two_messages)) /\
  Forall (fun n => exists m,
            File.MessageByName n (fst parsed_two_messages) = Some m /\
            Message.Name m = n)
         (File.DeclaredMessages (fst parsed_two_messages)) /\
  Forall (fun n => exists s,
            File.ServiceByName n (fst parsed_two_messages) = Some s /\
            Service.Name s = n)
         (File.DeclaredServices (fst parsed_two_messages)) /\
  NoDup (File.ImportedFiles (fst parsed_two_messages)).
Proof.
  refine (Parse_declares_each_name_once 100 tokens_two_messages
            (fst parsed_two_messages) (snd parsed_two_messages) _).
  vm_compute. reflexivity.
Defined.

(** ** Walking the tokens *)

Lemma parser_peek_run (p : parser) (t : Token) (l : list Token) :
  sound p -> ahead p = t :: l -> parser.peek p = (Ok t, p).
Proof.
  intros Hs Ha. unfold parser.peek. rewrite (peek_head p Hs), Ha. reflexivity.
Qed.

Lemma parser_peekIs_run (el : Element) (p : parser) (t : Token)
    (l : list Token) :
  sound p -> ahead p = t :: l ->
  parser.peekIs el p = (Ok (Token.is_ t el), p).
Proof.
  intros Hs Ha. unfold parser.peekIs.
  rewrite (bind_run_Ok _ _ _ _ _ (parser_peek_run p t l Hs Ha)). reflexivity.
Qed.

Lemma drop_succ_tail {A} (l : list A) (n : nat) :
  drop (S n) l = tail (drop n l).
Proof.
  revert n. induction l as [|x l IH]; intros [|n]; try reflexivity.
  simpl. rewrite <- IH. reflexivity.
Qed.

Lemma parser_advance_any (p : parser) :
  sound p ->
  exists q,
    parser.advance p = (Ok (default tokenList.eofToken (head (ahead p))), q) /\
    sound q /\ ahead q = tail (ahead p).
Proof.
  intros Hs. unfold parser.advance, tokenList.advance.
  rewrite (peek_head p Hs). eexists. split; [reflexivity|].
  split; [exact Hs|]. unfold ahead. simpl. apply drop_succ_tail.
Qed.

Lemma parser_advance_run (p : parser) (t : Token) (l : list Token) :
  sound p -> ahead p = t :: l ->
  exists q, parser.advance p = (Ok t, q) /\ sound q /\ ahead q = l.
Proof.
  intros Hs Ha. destruct (parser_advance_any p Hs) as (q & Hadv & Hq & Hl).
  rewrite Ha in Hadv, Hl. exists q. auto.
Qed.

Lemma bind_fst_OutOfFuel {St E A B} (c : M St E A) (k : A -> M St E B)
    (s : St) :
  fst (c s) = OutOfFuel -> fst (bind c k s) = OutOfFuel.
Proof.
  unfold bind. destruct (c s) as [o s1]. simpl. intros ->. reflexivity.
Qed.

Section ParserWalks.
Context `{GoRuntime} `{FilePath}.

(** *** The package clause comes first *)

Lemma skip_loop_run (trivia : list Token) :
  forall (fuel : nat) (p : parser) (t : Token) (rest : list Token),
    sound p ->
    ahead p = trivia ++ t :: rest ->
    Forall (fun x => Token.Type_ x = LineBreak \/ Token.Type_ x = Comment)
      trivia ->
    Token.Type_ t <> LineBreak -> Token.Type_ t <> Comment ->
    (length trivia < fuel)%nat ->
    exists q, parser.skip_loop fuel p = (Ok tt, q) /\
              sound q /\ ahead q = t :: rest /\
              parser.file q = parser.file p.
Proof.
  induction trivia as [|x trivia IH];
    intros fuel p t rest Hs Ha Hall Hlb Hcm Hfuel;
    (destruct fuel as [|fuel]; [simpl in Hfuel; lia|]);
    cbn [parser.skip_loop].
  - rewrite (bind_run_Ok _ _ _ _ _ (parser_peek_run p t rest Hs Ha)).
    unfold Token.is_.
    rewrite !bool_decide_eq_false_2 by assumption.
    exists p. auto.
  - apply Forall_cons in Hall as [Hx Hall].
    rewrite (bind_run_Ok _ _ _ _ _ (parser_peek_run p x _ Hs Ha)).
    assert (Hor : Token.is_ x LineBreak || Token.is_ x Comment = true).
    { unfold Token.is_. destruct Hx as [-> | ->]; reflexivity. }
    rewrite Hor.
    destruct (parser_advance_run p x _ Hs Ha) as (q & Hadv & Hq & Hl).
    rewrite (bind_run_Ok _ _ _ _ _ Hadv).
    destruct (IH fuel q t rest Hq Hl Hall Hlb Hcm) as (q' & Hrun & Hq' & Hl' & Hf);
      [simpl in Hfuel; lia|].
    exists q'. repeat split; try assumption.
    rewrite Hf. unfold parser.advance in Hadv.
    destruct (tokenList.advance _) in Hadv. injection Hadv as _ <-.
    reflexivity.
Qed.

(** A text must open with its package clause: after line breaks and
    comments, a token that is not the identifier [package] makes [Parse]
    return a ParseError at that token. *)
Theorem Parse_requires_package (fuel : nat) (trivia : list Token)
    (t : Token) (rest : list Token) :
  Forall (fun x => Token.Type_ x = LineBreak \/ Token.Type_ x = Comment)
    trivia ->
  Token.Type_ t <> LineBreak ->
  Token.Type_ t <> Comment ->
  Token.Type_ t <> Identifier \/ Token.Value t <> "package" ->
  (length trivia < fuel)%nat ->
  Parse fuel (trivia ++ t :: rest)
  = Err (EParse {| ParseError.Token := t;
                   ParseError.Message := packageExpected t |}).
Proof.
  intros Hall Hlb Hcm Hnot Hfuel.
  destruct (skip_loop_run trivia fuel (parser.newParser (trivia ++ t :: rest))
              t rest eq_refl eq_refl Hall Hlb Hcm Hfuel)
    as (q & Hskip & Hq & Ha & _).
  assert (Hpkg : parser.parsePackage fuel
                   (parser.newParser (trivia ++ t :: rest))
                 = (Err (EParse {| ParseError.Token := t;
                                   ParseError.Message := packageExpected t |}),
                    q)).
  { unfold parser.parsePackage.
    rewrite (bind_run_Ok _ _ _ _ _ Hskip).
    rewrite (bind_run_Ok _ _ _ _ _ (parser_peek_run q t rest Hq Ha)).
    assert (Herr : forall msg,
              parser.error (A := unit) msg q
              = (Err (EParse {| ParseError.Token := t;
                                ParseError.Message := msg |}), q)).
    { intros msg. unfold parser.error, tokenList.error.
      rewrite (peek_head q Hq), Ha. reflexivity. }
    unfold packageExpected.
    destruct (Token.is_ t Identifier) eqn:Eid; cbn [negb]; [|apply Herr].
    destruct Hnot as [Hty | Hval].
    - unfold Token.is_ in Eid. apply bool_decide_eq_true_1 in Eid.
      contradiction.
    - apply String.eqb_neq in Hval. rewrite Hval. cbn [negb]. apply Herr. }
  unfold Parse, parser.run. rewrite (bind_run_Err _ _ _ _ _ Hpkg).
  reflexivity.
Qed.

(** *** An annotation whose parenthesis is not closed *)

(** The loop over the values of an annotation does not leave when no
    closing parenthesis and no comma is ahead: at the end of the tokens it
    goes on with the end-of-input token [peek] answers there. *)
Lemma values_loop_never_ends (fuel : nat) :
  forall (vals val : slice) (p : parser),
    sound p ->
    Forall (fun t => Token.Type_ t <> CloseParen /\ Token.Type_ t <> Comma)
      (ahead p) ->
    fst (parser.values_loop fuel vals val p) = OutOfFuel.
Proof.
  induction fuel as [|fuel IH]; intros vals val p Hs Hall; [reflexivity|].
  cbn [parser.values_loop].
  assert (Hpeek : parser.peek p
                  = (Ok (default tokenList.eofToken (head (ahead p))), p)).
  { unfold parser.peek. rewrite (peek_head p Hs). reflexivity. }
  rewrite (bind_run_Ok _ _ _ _ _ Hpeek).
  assert (Ht : Token.Type_ (default tokenList.eofToken (head (ahead p)))
               <> CloseParen /\
               Token.Type_ (default tokenList.eofToken (head (ahead p)))
               <> Comma).
  { destruct (ahead p) as [|t l]; [split; discriminate|].
    apply Forall_cons in Hall as [Ht _]. exact Ht. }
  unfold Token.is_. rewrite !bool_decide_eq_false_2 by apply Ht.
  destruct (parser_advance_any p Hs) as (q & Hadv & Hq & Hl).
  rewrite (bind_run_Ok _ _ _ _ _ Hadv).
  unfold bind at 1. unfold parser.appendString at 1.
  destruct (append _ val _) as [h v'].
  apply IH; [exact Hq|].
  change (ahead (parser.set_strs h q)) with (ahead q). rewrite Hl.
  destruct (ahead p) as [|t l]; [constructor|].
  apply Forall_cons in Hall as [_ Hall]. exact Hall.
Qed.

(** After the package clause, an annotation followed by an opening
    parenthesis that no closing parenthesis and no comma follows makes
    [Parse] go on for ever: whatever the budget of its loops, the loop over
    the values of the annotation uses it up. *)
Theorem Parse_unclosed_annotation_never_ends (fuel : nat)
    (kw name semi a o : Token) (rest : list Token) :
  Token.Type_ kw = Identifier ->
  Token.Value kw = "package" ->
  Token.Type_ semi = Semi ->
  Token.Type_ a = Annotation ->
  Token.Type_ o = OpenParen ->
  Forall (fun t => Token.Type_ t <> CloseParen /\ Token.Type_ t <> Comma)
    rest ->
  Parse fuel (kw :: name :: semi :: a :: o :: rest) = OutOfFuel.
Proof.
  intros Hkw Hpackage Hsemi Ha Ho Hrest.
  assert (Hrun : fst (parser.run fuel
                        (parser.newParser
                           (kw :: name :: semi :: a :: o :: rest)))
                 = OutOfFuel).
  2: { unfold Parse. destruct (parser.run _ _) as [[f | e | x | ] p'];
       simpl in Hrun; congruence. }
  destruct fuel as [|fuel]; [reflexivity|].
  set (p0 := parser.newParser (kw :: name :: semi :: a :: o :: rest)).
  assert (Hs0 : sound p0) by reflexivity.
  assert (Ha0 : ahead p0 = kw :: name :: semi :: a :: o :: rest)
    by reflexivity.
  clearbody p0.
  (* the package clause *)
  assert (Hpkg : exists q, parser.parsePackage (S fuel) p0 = (Ok tt, q) /\
                           sound q /\ ahead q = a :: o :: rest).
  { unfold parser.parsePackage.
    destruct (skip_loop_run [] (S fuel) p0 kw _ Hs0 Ha0)
      as (q0 & Hskip & Hq0 & Haq0 & _);
      [constructor | rewrite Hkw; discriminate | rewrite Hkw; discriminate
      | simpl; lia |].
    rewrite (bind_run_Ok _ _ _ _ _ Hskip).
    rewrite (bind_run_Ok _ _ _ _ _ (parser_peek_run q0 _ _ Hq0 Haq0)).
    unfold Token.is_ at 1. rewrite Hkw, Hpackage.
    change (bool_decide (Identifier = Identifier)) with true.
    cbn [negb String.eqb Ascii.eqb Bool.eqb].
    destruct (parser_advance_run q0 _ _ Hq0 Haq0) as (q1 & Hadv1 & Hs1 & Ha1).
    rewrite (bind_run_Ok _ _ _ _ _ Hadv1).
    destruct (parser_advance_run q1 _ _ Hs1 Ha1) as (q2 & Hadv2 & Hs2 & Ha2).
    rewrite (bind_run_Ok _ _ _ _ _ Hadv2).
    assert (Hdot : parser.dotted_loop (S fuel) [Token.Value name] q2
                   = (Ok [Token.Value name], q2)).
    { cbn [parser.dotted_loop].
      rewrite (bind_run_Ok _ _ _ _ _ (parser_peek_run q2 _ _ Hs2 Ha2)).
      unfold Token.is_. rewrite Hsemi. reflexivity. }
    rewrite (bind_run_Ok _ _ _ _ _ Hdot).
    rewrite (bind_run_Ok _ _ _ _ _ (parser_peekIs_run Semi q2 _ _ Hs2 Ha2)).
    unfold Token.is_ at 1. rewrite Hsemi.
    change (bool_decide (Semi = Semi)) with true. cbn [negb].
    destruct (parser_advance_run q2 _ _ Hs2 Ha2) as (q3 & Hadv3 & Hs3 & Ha3).
    rewrite (bind_run_Ok _ _ _ _ _ Hadv3).
    eexists. split; [reflexivity|]. split; [exact Hs3 | exact Ha3]. }
  destruct Hpkg as (q & Hpkg & Hs & Haq).
  unfold parser.run. rewrite (bind_run_Ok _ _ _ _ _ Hpkg).
  (* no import *)
  assert (Himp : parser.parseImports (S fuel) (S fuel) q = (Ok tt, q)).
  { cbn [parser.parseImports].
    assert (Htrivia : parser.trivia_loop (S fuel) q = (Ok tt, q)).
    { cbn [parser.trivia_loop].
      rewrite (bind_run_Ok _ _ _ _ _ (parser_peek_run q _ _ Hs Haq)).
      unfold Token.is_. rewrite Ha. reflexivity. }
    rewrite (bind_run_Ok _ _ _ _ _ Htrivia).
    rewrite (bind_run_Ok _ _ _ _ _ (parser_peek_run q _ _ Hs Haq)).
    unfold Token.is_ at 1. rewrite Ha. reflexivity. }
  rewrite (bind_run_Ok _ _ _ _ _ Himp).
  (* the annotation *)
  apply bind_fst_OutOfFuel. cbn [parser.run_loop].
  rewrite (bind_run_Ok _ _ _ _ _ (parser_peekIs_run EOF q _ _ Hs Haq)).
  unfold Token.is_ at 1. rewrite Ha.
  change (bool_decide (Annotation = EOF)) with false. cbn [negb].
  apply bind_fst_OutOfFuel. unfold parser.parseOne.
  rewrite (bind_run_Ok _ _ _ _ _ (parser_peek_run q _ _ Hs Haq)), Ha.
  destruct (parser_advance_run q _ _ Hs Haq) as (q5 & Hadv5 & Hs5 & Ha5).
  rewrite (bind_run_Ok _ _ _ _ _ Hadv5).
  rewrite (bind_run_Ok _ _ _ _ _ (parser_peekIs_run OpenParen q5 _ _ Hs5 Ha5)).
  unfold Token.is_ at 1. rewrite Ho.
  change (bool_decide (OpenParen = OpenParen)) with true. cbv iota.
  apply bind_fst_OutOfFuel, bind_fst_OutOfFuel.
  apply values_loop_never_ends; [exact Hs5|].
  rewrite Ha5. constructor; [|exact Hrest].
  rewrite Ho. split; discriminate.
Qed.

End ParserWalks.

(** The witness of [Parse_requires_package]: a line break and then a
    message. *)
Lemma Parse_requires_package_witness :
  Parse 5 ([token LineBreak LF] ++ token Identifier "message" :: [])
  = Err (EParse {| ParseError.Token := token Identifier "message";
                   ParseError.Message :=
                     packageExpected (token Identifier "message") |}).
Proof.
  refine (Parse_requires_package 5 [token LineBreak LF]
            (token Identifier "message") [] _ _ _ _ _).
  - constructor; [left; reflexivity | constructor].
  - discriminate.
  - discriminate.
  - right. discriminate.
  - simpl. lia.
Defined.

(** The witness of [Parse_unclosed_annotation_never_ends]: the tokens of
    [package p; @x (a]. *)
Lemma Parse_unclosed_annotation_never_ends_witness :
  Parse 7 (token Identifier "package" :: token Identifier "p" ::
           token Semi ";" :: token Annotation "x" :: token OpenParen "(" ::
           [token Identifier "a"; token EOF EmptyString])
  = OutOfFuel.
Proof.
  refine (Parse_unclosed_annotation_never_ends 7
            (token Identifier "package") (token Identifier "p")
            (token Semi ";") (token Annotation "x") (token OpenParen "(")
            [token Identifier "a"; token EOF EmptyString] _ _ _ _ _ _);
    try reflexivity.
  repeat (apply List.Forall_cons; [split; discriminate|]).
  apply List.Forall_nil.
Defined.

(** ** The declarations of a parsed file, in the loops of the resolver *)

Section ParsedDeclarations.
Context `{UnicodeTables} `{GoRuntime} `{FilePath}.

Lemma addMessages_of_declared (finalPath : string) (file : File)
    (ns : list string) :
  Forall (fun n => exists m, File.MessageByName n file = Some m /\
                             Message.Name m = n) ns ->
  forall (f f' : FileSet) (e : error),
    FileSet.addMessages finalPath file ns f = (Err e, f') ->
    exists n, n ∈ ns /\
      e = ErrorString ("duplicated definition of " +:+
                       FileSet.fqn (File.Package file) n).
Proof.
  induction ns as [|n ns IH]; intros Hall f f' e; simpl; [discriminate|].
  apply Forall_cons in Hall as [(m & Hm & Hname) Hall]. rewrite Hm.
  rewrite bind_modify_run. cbv beta.
  match goal with
  | |- bind (FileSet.registerMessage file m) _ ?g = _ -> _ =>
      pose proof (registerMessage_run file m g) as HR; cbv zeta in HR
  end.
  case_bool_decide.
  - rewrite (bind_run_Err _ _ _ _ _ HR). intros Heq.
    injection Heq as <- _. exists n. split; [apply list_elem_of_here|].
    rewrite Hname. reflexivity.
  - rewrite (bind_run_Ok _ _ _ _ _ HR). intros Hrest.
    destruct (IH Hall _ _ _ Hrest) as (n' & Hin & He).
    exists n'. split; [apply list_elem_of_further, Hin | exact He].
Qed.

Lemma addImportedMessages_of_declared (finalPath : string) (file : File)
    (ns : list string) :
  Forall (fun n => exists m, File.MessageByName n file = Some m /\
                             Message.Name m = n) ns ->
  forall (f f' : FileSet) (e : error),
    FileSet.addImportedMessages finalPath file ns f = (Err e, f') ->
    exists n, n ∈ ns /\
      e = ErrorString ("duplicated definition of " +:+
                       FileSet.fqn (File.Package file) n).
Proof.
  induction ns as [|n ns IH]; intros Hall f f' e; simpl; [discriminate|].
  apply Forall_cons in Hall as [(m & Hm & Hname) Hall]. rewrite Hm.
  pose proof (registerMessage_run file m f) as HR. cbv zeta in HR.
  case_bool_decide.
  - rewrite (bind_run_Err _ _ _ _ _ HR). intros Heq.
    injection Heq as <- _. exists n. split; [apply list_elem_of_here|].
    rewrite Hname. reflexivity.
  - rewrite (bind_run_Ok _ _ _ _ _ HR), bind_get_run.
    match goal with
    | |- bind ?c _ ?g = _ -> _ =>
        destruct (c g) as [[[] | e1 | x | ] g1] eqn:Eapp
    end.
    + rewrite (bind_run_Ok _ _ _ _ _ Eapp). intros Hrest.
      destruct (IH Hall _ _ _ Hrest) as (n' & Hin & He).
      exists n'. split; [apply list_elem_of_further, Hin | exact He].
    + destruct (String.eqb _ _); discriminate.
    + destruct (String.eqb _ _); discriminate.
    + destruct (String.eqb _ _); discriminate.
Qed.

Lemma addServices_of_declared (finalPath : string) (file : File)
    (ns : list string) :
  Forall (fun n => exists s, File.ServiceByName n file = Some s /\
                             Service.Name s = n) ns ->
  forall (f f' : FileSet) (e : error),
    FileSet.addServices finalPath file ns f = (Err e, f') ->
    exists n, n ∈ ns /\
      e = ErrorString ("multiple declarations of service " +:+ n +:+
                       " (duplicate found in " +:+ finalPath +:+ ")").
Proof.
  induction ns as [|n ns IH]; intros Hall f f' e; simpl; [discriminate|].
  apply Forall_cons in Hall as [(s & Hs & _) Hall]. rewrite Hs.
  rewrite bind_modify_run, bind_get_run.
  case_bool_decide.
  - intros Heq. injection Heq as <- _. exists n.
    split; [apply list_elem_of_here | reflexivity].
  - rewrite bind_modify_run. intros Hrest.
    destruct (IH Hall _ _ _ Hrest) as (n' & Hin & He).
    exists n'. split; [apply list_elem_of_further, Hin | exact He].
Qed.

(** For a file that [Parse] returned, the loops of [Load] and of
    [processImports] over the declared messages and services find every
    declaration they look up: they do not return the error that a declared
    name could not be found. The loops over the messages only fail with the
    duplicate definition of one of the declared names, the loop over the
    services with the multiple declarations of one of them. *)
Theorem resolver_finds_parsed_declarations (fuel : nat) (toks : list Token)
    (file : File) (mem : Memory) (finalPath : string) :
  Parse fuel toks = Ok (file, mem) ->
  (forall (f f' : FileSet) (e : error),
     FileSet.addMessages finalPath file (File.DeclaredMessages file) f
     = (Err e, f') ->
     exists n, n ∈ File.DeclaredMessages file /\
       e = ErrorString ("duplicated definition of " +:+
                        FileSet.fqn (File.Package file) n)) /\
  (forall (f f' : FileSet) (e : error),
     FileSet.addImportedMessages finalPath file (File.DeclaredMessages file) f
     = (Err e, f') ->
     exists n, n ∈ File.DeclaredMessages file /\
       e = ErrorString ("duplicated definition of " +:+
                        FileSet.fqn (File.Package file) n)) /\
  (forall (f f' : FileSet) (e : error),
     FileSet.addServices finalPath file (File.DeclaredServices file) f
     = (Err e, f') ->
     exists n, n ∈ File.DeclaredServices file /\
       e = ErrorString ("multiple declarations of service " +:+ n +:+
                        " (duplicate found in " +:+ finalPath +:+ ")")).
Proof.
  intros HP. destruct (Parse_declared_once fuel toks file mem HP)
    as (_ & Hm & Hs & _).
  split; [apply addMessages_of_declared, Hm|].
  split; [apply addImportedMessages_of_declared, Hm|].
  apply addServices_of_declared, Hs.
Qed.

End ParsedDeclarations.

(** The witness of [resolver_finds_parsed_declarations]: the file of
    [text_two_messages]. *)
Lemma resolver_finds_parsed_declarations_witness :
  (forall (f f' : FileSet) (e : error),
     FileSet.addMessages "/w/m.yarp" (fst parsed_two_messages)
       (File.DeclaredMessages (fst parsed_two_messages)) f
     = (Err e, f') ->
     exists n, n ∈ File.DeclaredMessages (fst parsed_two_messages) /\
       e = ErrorString ("duplicated definition of " +:+
                        FileSet.fqn (File.Package (fst parsed_two_messages))
                          n)) /\
  (forall (f f' : FileSet) (e : error),
     FileSet.addImportedMessages "/w/m.yarp" (fst parsed_two_messages)
       (File.DeclaredMessages (fst parsed_two_messages)) f
     = (Err e, f') ->
     exists n, n ∈ File.DeclaredMessages (fst parsed_two_messages) /\
       e = ErrorString ("duplicated definition of " +:+
                        FileSet.fqn (File.Package (fst parsed_two_messages))
                          n)) /\
  (forall (f f' : FileSet) (e : error),
     FileSet.addServices "/w/m.yarp" (fst parsed_two_messages)
       (File.DeclaredServices (fst parsed_two_messages)) f
     = (Err e, f') ->
     exists n, n ∈ File.DeclaredServices (fst parsed_two_messages) /\
       e = ErrorString ("multiple declarations of service " +:+ n +:+
                        " (duplicate found in " +:+ "/w/m.yarp" +:+ ")")).
Proof.
  refine (resolver_finds_parsed_declarations 100 tokens_two_messages
            (fst parsed_two_messages) (snd parsed_two_messages)
            "/w/m.yarp" _).
  vm_compute. reflexivity.
Defined.
